(** * FEXCore: the interference bucket list and the interpreter's ALU handlers

    A shallow embedding of [FEXCore::BucketList] (Utils/BucketList.h) and of
    the integer handlers of the IR interpreter ([DEF_OP(...)] in the ALU
    part of the interpreter), with the properties the specification states
    about them.

    Machine integers are values of [Z] with the wrap-around written out;
    the SSA scratch buffer is a total map from node ids to 16-byte slots. *)

From Stdlib Require Import ZArith Lia Bool List.
From Stdlib Require Import Floats.SpecFloat.
From stdpp Require Import base functions list.

Local Open Scope Z_scope.

(** ** Machine integers *)

Module Word.

(** Conversion to the unsigned [w]-bit type ([static_cast<uintw_t>]). *)
Definition wrap (w x : Z) : Z := x mod 2 ^ w.

(** Conversion to the signed [w]-bit type ([static_cast<intw_t>]), as the
    two's-complement reading of the low [w] bits. *)
Definition sext (w x : Z) : Z :=
  let u := wrap w x in
  if u <? 2 ^ (w - 1) then u else u - 2 ^ w.

(** [~x] on the unsigned [w]-bit type. *)
Definition not_ (w x : Z) : Z := wrap w (Z.lnot x).

(** C++ leaves a shift by the operand's full width (or more) undefined.
    Two resolutions are in use: the shifted-out bits are dropped (constant
    folding, a wide intermediate), or the count is reduced modulo the
    width (the shift instructions of x86-64 and AArch64).  The handlers
    are modelled under both. *)
Inductive OversizedShift := ShiftDrops | ShiftCountWraps.

Definition shamt (m : OversizedShift) (w n : Z) : Z :=
  match m with
  | ShiftDrops => n
  | ShiftCountWraps => n mod w
  end.

(** [x << n] and [x >> n] on the unsigned [w]-bit type. *)
Definition shl (m : OversizedShift) (w x n : Z) : Z :=
  wrap w (Z.shiftl x (shamt m w n)).

Definition shr (m : OversizedShift) (w x n : Z) : Z :=
  Z.shiftr (wrap w x) (shamt m w n).

(** [std::popcount] on a 64-bit operand: the number of positions below 64
    at which the bit is set. *)
Definition popcount64 (x : Z) : Z :=
  Z.of_nat (length (filter (fun i => Is_true (Z.testbit x i)) (seqZ 0 64))).

(** [a / b] and [a % b] at an unsigned type: there is no result for the
    divisor zero. *)
Definition udiv (a b : Z) : option Z :=
  if b =? 0 then None else Some (a / b).

Definition urem (a b : Z) : option Z :=
  if b =? 0 then None else Some (a mod b).

(** [a / b] and [a % b] at the signed type of [w] bits, which round towards
    zero: there is no result for the divisor zero, nor for the least value
    of the type divided by [-1], whose quotient the type does not hold. *)
Definition sdiv (w a b : Z) : option Z :=
  if b =? 0 then None
  else if (a =? - 2 ^ (w - 1)) && (b =? -1) then None
  else Some (Z.quot a b).

Definition srem (w a b : Z) : option Z :=
  if b =? 0 then None
  else if (a =? - 2 ^ (w - 1)) && (b =? -1) then None
  else Some (Z.rem a b).

(** [std::countl_zero] on an unsigned type of [w] bits: the number of
    consecutive zero bits from the top down; [w] for the operand zero. *)
Fixpoint countl_zero_below (k : nat) (x : Z) : Z :=
  match k with
  | O => 0
  | S k' => if Z.testbit x (Z.of_nat k') then 0 else 1 + countl_zero_below k' x
  end.

Definition countl_zero (w x : Z) : Z := countl_zero_below (Z.to_nat w) x.

(** [std::countr_zero]: the number of consecutive zero bits from the bottom
    up; [w] for the operand zero. *)
Fixpoint countr_zero_from (fuel : nat) (i x : Z) : Z :=
  match fuel with
  | O => 0
  | S fuel' => if Z.testbit x i then 0 else 1 + countr_zero_from fuel' (i + 1) x
  end.

Definition countr_zero (w x : Z) : Z := countr_zero_from (Z.to_nat w) 0 x.

End Word.

Import Word.

(** ** The interpreter's ALU handlers *)

Module Interpreter.

(** *** IR operations *)

(** An SSA node id ([OrderedNodeWrapper]). *)
Definition Node := nat.

(** [IROp_Header]: the operation size and element size in bytes
    ([uint8_t]) and the operand node ids. *)
Record IROp_Header := {
  Size : Z;
  ElementSize : Z;
  Args : nat -> Node
}.

(** [IROp_Bfi] and [IROp_Bfe]: the header with the field's width and least
    significant bit ([uint8_t]). *)
Record IROp_Bfi := {
  Bfi_Header : IROp_Header;
  Bfi_Width : Z;
  Bfi_lsb : Z
}.

Record IROp_Bfe := {
  Bfe_Header : IROp_Header;
  Bfe_Width : Z;
  Bfe_lsb : Z
}.

(** [IROp_FCmp]: the header with the element size and the mask of the
    requested flags. *)
Record IROp_FCmp := {
  FCmp_Header : IROp_Header;
  FCmp_ElementSize : Z;
  FCmp_Flags : Z
}.

(** *** The SSA scratch buffer *)

(** [Data->SSAData]: one 16-byte slot per node, held as the little-endian
    value of its bytes. *)
Abbreviation SSAData := (Node -> Z).

(** [*GetSrc<T*>(Data->SSAData, n)] for an unsigned [T] of [w] bits and for
    a signed one: the low [w] bits of the slot of [n]. *)
Definition GetSrc (w : Z) (D : SSAData) (n : Node) : Z := wrap w (D n).

Definition GetSrcS (w : Z) (D : SSAData) (n : Node) : Z := sext w (D n).

(** A store of [w] bits at the start of a slot; the bytes above keep their
    contents. *)
Definition store (w v old : Z) : Z := old - wrap w old + wrap w v.

(** Modelled from the spec: the macro [GD], of InterpreterDefines.h, which
    is not among the sources.  "All operations whose result fits in <= 8
    bytes write the zero-extended 64-bit result to GD".  The handlers use
    [GD] as one lvalue of 64 bits whatever the operation size: they assign
    64-bit values to it ([GD = Tmp >> 64], [GD = Op->Constant]) and shift it
    in place ([GD >>= 32] after a 64-bit product, in [UMulH] at size 4), so
    that it cannot be a store of [op.size] bytes.  [GD_set] is the
    assignment [GD = v], which converts [v] to [uint64_t] as C++ does: the
    value of an unsigned expression is zero-extended and that of a signed
    one is sign-extended ([Ashr] casts its 32-bit result to [uint32_t]
    before it assigns).  [GD_get] reads the lvalue back. *)
Definition GD_set (D : SSAData) (n : Node) (v : Z) : SSAData :=
  <[n := store 64 v (D n)]> D.

Definition GD_get (D : SSAData) (n : Node) : Z := GetSrc 64 D n.

(** Modelled from the spec: the macro [GDP] with [memcpy(GDP, &Tmp, n)],
    "written by a memory copy of exactly op.size bytes": the first [n]
    bytes of the destination slot receive the low [n] bytes of [Tmp]. *)
Definition GDP_memcpy (D : SSAData) (n : Node) (Tmp : Z) (bytes : Z) : SSAData :=
  <[n := store (8 * bytes) Tmp (D n)]> D.

(** Modelled from the spec: the macro [DO_OP(size, type, func)], of
    InterpreterDefines.h, which is not among the sources: the "macro
    expansion over {u8, u16, u32, u64, u128}" of the size-dispatched
    kernels, where "operands and results are the modular integer of the
    declared width".  Both operands are read as [type], of [w] bits,
    [func] is applied at that type, and the result is stored as [type]
    in the destination slot. *)
Definition DO_OP (w : Z) (func : Z -> Z -> Z) (Op : IROp_Header)
    (D : SSAData) (n : Node) : SSAData :=
  let Src1 := GetSrc w D (Args Op 0%nat) in
  let Src2 := GetSrc w D (Args Op 1%nat) in
  <[n := store w (wrap w (func Src1 Src2)) (D n)]> D.

(** *** Arithmetic *)

(** [DEF_OP(Add)]; [None] is the fatal diagnostic of an unknown size. *)
Definition Op_Add (Op : IROp_Header) (D : SSAData) (n : Node) : option SSAData :=
  let OpSize := Size Op in
  let Func := fun a b => a + b in
  match OpSize with
  | 4 => Some (DO_OP 32 Func Op D n)
  | 8 => Some (DO_OP 64 Func Op D n)
  | _ => None
  end.

(** [DEF_OP(Sub)]. *)
Definition Op_Sub (Op : IROp_Header) (D : SSAData) (n : Node) : option SSAData :=
  let OpSize := Size Op in
  let Func := fun a b => a - b in
  match OpSize with
  | 4 => Some (DO_OP 32 Func Op D n)
  | 8 => Some (DO_OP 64 Func Op D n)
  | _ => None
  end.

(** [DEF_OP(Neg)].  The negation is computed at [int32_t] or [int64_t];
    negating the least value of the type wraps around. *)
Definition Op_Neg (Op : IROp_Header) (D : SSAData) (n : Node) : option SSAData :=
  let OpSize := Size Op in
  let Src := wrap 64 (GetSrcS 64 D (Args Op 0%nat)) in
  match OpSize with
  | 4 => Some (GD_set D n (sext 32 (- sext 32 Src)))
  | 8 => Some (GD_set D n (sext 64 (- sext 64 Src)))
  | _ => None
  end.

(** [DEF_OP(UMul)]. *)
Definition Op_UMul (Op : IROp_Header) (D : SSAData) (n : Node) : option SSAData :=
  let OpSize := Size Op in
  let Src1 := GetSrc 64 D (Args Op 0%nat) in
  let Src2 := GetSrc 64 D (Args Op 1%nat) in
  match OpSize with
  | 4 => Some (GD_set D n (wrap 32 (wrap 32 Src1 * wrap 32 Src2)))
  | 8 => Some (GD_set D n (wrap 64 (wrap 64 Src1 * wrap 64 Src2)))
  | 16 =>
      let Tmp := wrap 128 (wrap 128 (wrap 64 Src1) * wrap 128 (wrap 64 Src2)) in
      Some (GDP_memcpy D n Tmp 16)
  | _ => None
  end.

(** [DEF_OP(UMulH)].  At size 4 the product is assigned to [GD] and [GD] is
    then shifted in place. *)
Definition Op_UMulH (Op : IROp_Header) (D : SSAData) (n : Node) : option SSAData :=
  let OpSize := Size Op in
  let Src1 := GetSrc 64 D (Args Op 0%nat) in
  let Src2 := GetSrc 64 D (Args Op 1%nat) in
  match OpSize with
  | 4 =>
      let D1 := GD_set D n (wrap 64 (wrap 64 Src1 * wrap 64 Src2)) in
      Some (GD_set D1 n (Z.shiftr (GD_get D1 n) 32))
  | 8 =>
      let Tmp := wrap 128 (wrap 128 Src1 * wrap 128 Src2) in
      Some (GD_set D n (Z.shiftr Tmp 64))
  | 16 =>
      (* XXX: This is incorrect *)
      let Tmp := wrap 128 (wrap 128 Src1 * wrap 128 Src2) in
      Some (GD_set D n (Z.shiftr Tmp 64))
  | _ => None
  end.

(** *** Rotate *)

(** The lambda [Ror] of [DEF_OP(Ror)], at an unsigned type of [w] bits. *)
Definition Ror (m : OversizedShift) (w In R : Z) : Z :=
  let RotateMask := w - 1 in
  let R := wrap w (Z.land R RotateMask) in
  Z.lor (shr m w In R) (shl m w In (w - R)).

(** [DEF_OP(Ror)]. *)
Definition Op_Ror (m : OversizedShift) (Op : IROp_Header) (D : SSAData)
    (n : Node) : option SSAData :=
  let OpSize := Size Op in
  let Src1 := GetSrc 64 D (Args Op 0%nat) in
  let Src2 := GetSrc 64 D (Args Op 1%nat) in
  match OpSize with
  | 4 => Some (GD_set D n (Ror m 32 (wrap 32 Src1) (wrap 32 Src2)))
  | 8 => Some (GD_set D n (Ror m 64 (wrap 64 Src1) (wrap 64 Src2)))
  | _ => None
  end.

(** *** Long unsigned division *)

(** [DEF_OP(LUDiv)].  Each source is [OpSize] bytes; the division is done
    at twice that width.  [None] is an unknown size, or the division by
    zero, which the handler does not guard. *)
Definition Op_LUDiv (Op : IROp_Header) (D : SSAData) (n : Node) : option SSAData :=
  let OpSize := Size Op in
  let wide (w : Z) : option Z :=
    let SrcLow := GetSrc w D (Args Op 0%nat) in
    let SrcHigh := GetSrc w D (Args Op 1%nat) in
    let Divisor := GetSrc w D (Args Op 2%nat) in
    let Source := Z.lor (wrap (2 * w) (Z.shiftl (wrap (2 * w) SrcHigh) w)) SrcLow in
    if Divisor =? 0 then None else Some (wrap (2 * w) (Source / Divisor)) in
  match OpSize with
  | 2 => Res ← wide 16; Some (GD_set D n (wrap 16 Res))
  | 4 => Res ← wide 32; Some (GD_set D n (wrap 32 Res))
  | 8 => Res ← wide 64; Some (GDP_memcpy D n Res OpSize)
  | _ => None
  end.

(** *** Bitwise *)

(** [DEF_OP(Not)].  The mask table has 9 entries; [None] is the read past
    its end. *)
Definition Op_Not (Op : IROp_Header) (D : SSAData) (n : Node) : option SSAData :=
  let OpSize := Size Op in
  let Src := GetSrc 64 D (Args Op 0%nat) in
  let mask := [0; 0xFF; 0xFFFF; 0; 0xFFFFFFFF; 0; 0; 0; 0xFFFFFFFFFFFFFFFF] in
  Mask ← mask !! Z.to_nat OpSize;
  Some (GD_set D n (Z.land (not_ 64 Src) Mask)).

(** [DEF_OP(Popcount)]. *)
Definition Op_Popcount (Op : IROp_Header) (D : SSAData) (n : Node) : SSAData :=
  let Src := GetSrc 64 D (Args Op 0%nat) in
  GD_set D n (popcount64 Src).

(** *** Bit fields *)

(** The mask of [Width] low bits, as [Op_Bfi] and [Op_Bfe] compute it. *)
Definition SourceMask (m : OversizedShift) (Width : Z) : Z :=
  let SourceMask := wrap 64 (shl m 64 1 Width - 1) in
  if Width =? 64 then not_ 64 0 else SourceMask.

(** [DEF_OP(Bfi)]. *)
Definition Op_Bfi (m : OversizedShift) (Op : IROp_Bfi) (D : SSAData)
    (n : Node) : SSAData :=
  let SourceMask := SourceMask m (Bfi_Width Op) in
  let DestMask := not_ 64 (shl m 64 SourceMask (Bfi_lsb Op)) in
  let Src1 := GetSrc 64 D (Args (Bfi_Header Op) 0%nat) in
  let Src2 := GetSrc 64 D (Args (Bfi_Header Op) 1%nat) in
  let Res := Z.lor (Z.land Src1 DestMask)
                   (shl m 64 (Z.land Src2 SourceMask) (Bfi_lsb Op)) in
  GD_set D n Res.

(** [DEF_OP(Bfe)]; [None] is the failed assertion [OpSize <= 8]. *)
Definition Op_Bfe (m : OversizedShift) (Op : IROp_Bfe) (D : SSAData)
    (n : Node) : option SSAData :=
  let OpSize := Size (Bfe_Header Op) in
  if 8 <? OpSize then None else
  let SourceMask := SourceMask m (Bfe_Width Op) in
  let SourceMask := shl m 64 SourceMask (Bfe_lsb Op) in
  let Src := GetSrc 64 D (Args (Bfe_Header Op) 0%nat) in
  Some (GD_set D n (shr m 64 (Z.land Src SourceMask) (Bfe_lsb Op))).

(** *** Further operations *)

(** [IROp_Extr]: the header with the least significant bit ([uint8_t]). *)
Record IROp_Extr := {
  Extr_Header : IROp_Header;
  Extr_LSB : Z
}.

(** [IROp_Sbfe]: as [IROp_Bfe]. *)
Record IROp_Sbfe := {
  Sbfe_Header : IROp_Header;
  Sbfe_Width : Z;
  Sbfe_lsb : Z
}.

(** [GetSrc<uint64_t*>(Data->SSAData, n)[k]]: the 64-bit lane [k] of the
    slot of [n]. *)
Definition GetSrc_lane (D : SSAData) (n : Node) (k : Z) : Z :=
  wrap 64 (Z.shiftr (D n) (64 * k)).

(** [DEF_OP(TruncElementPair)]. *)
Definition Op_TruncElementPair (Op : IROp_Header) (D : SSAData) (n : Node)
    : option SSAData :=
  match Size Op with
  | 4 =>
      let Src := GetSrc_lane D (Args Op 0%nat) in
      let Result := Z.land (Src 0) (not_ 32 0) in
      let Result := Z.lor Result (wrap 64 (Z.shiftl (Src 1) 32)) in
      Some (GD_set D n Result)
  | _ => None
  end.

(** [DEF_OP(Mul)].  The products are computed at [int64_t] and at
    [__int128_t]; the product at [int64_t] of size 8 wraps around. *)
Definition Op_Mul (Op : IROp_Header) (D : SSAData) (n : Node) : option SSAData :=
  let OpSize := Size Op in
  let Src1 := GetSrc 64 D (Args Op 0%nat) in
  let Src2 := GetSrc 64 D (Args Op 1%nat) in
  match OpSize with
  | 4 => Some (GD_set D n (sext 64 (sext 64 (sext 32 Src1) * sext 64 (sext 32 Src2))))
  | 8 => Some (GD_set D n (sext 64 (sext 64 Src1 * sext 64 Src2)))
  | 16 =>
      let Tmp := sext 128 (sext 128 (sext 64 Src1) * sext 128 (sext 64 Src2)) in
      Some (GDP_memcpy D n Tmp 16)
  | _ => None
  end.

(** [DEF_OP(Div)]; [None] is also the division without a result. *)
Definition Op_Div (Op : IROp_Header) (D : SSAData) (n : Node) : option SSAData :=
  let OpSize := Size Op in
  let Src1 := GetSrc 64 D (Args Op 0%nat) in
  let Src2 := GetSrc 64 D (Args Op 1%nat) in
  match OpSize with
  | 1 => Res ← sdiv 64 (sext 64 (sext 8 Src1)) (sext 64 (sext 8 Src2));
         Some (GD_set D n Res)
  | 2 => Res ← sdiv 64 (sext 64 (sext 16 Src1)) (sext 64 (sext 16 Src2));
         Some (GD_set D n Res)
  | 4 => Res ← sdiv 64 (sext 64 (sext 32 Src1)) (sext 64 (sext 32 Src2));
         Some (GD_set D n Res)
  | 8 => Res ← sdiv 64 (sext 64 Src1) (sext 64 Src2);
         Some (GD_set D n Res)
  | 16 =>
      Tmp ← sdiv 128 (GetSrcS 128 D (Args Op 0%nat)) (GetSrcS 128 D (Args Op 1%nat));
      Some (GDP_memcpy D n Tmp 16)
  | _ => None
  end.

(** [DEF_OP(UDiv)]. *)
Definition Op_UDiv (Op : IROp_Header) (D : SSAData) (n : Node) : option SSAData :=
  let OpSize := Size Op in
  let Src1 := GetSrc 64 D (Args Op 0%nat) in
  let Src2 := GetSrc 64 D (Args Op 1%nat) in
  match OpSize with
  | 1 => Res ← udiv (wrap 64 (wrap 8 Src1)) (wrap 64 (wrap 8 Src2));
         Some (GD_set D n Res)
  | 2 => Res ← udiv (wrap 64 (wrap 16 Src1)) (wrap 64 (wrap 16 Src2));
         Some (GD_set D n Res)
  | 4 => Res ← udiv (wrap 64 (wrap 32 Src1)) (wrap 64 (wrap 32 Src2));
         Some (GD_set D n Res)
  | 8 => Res ← udiv (wrap 64 Src1) (wrap 64 Src2);
         Some (GD_set D n Res)
  | 16 =>
      Tmp ← udiv (GetSrc 128 D (Args Op 0%nat)) (GetSrc 128 D (Args Op 1%nat));
      Some (GDP_memcpy D n Tmp 16)
  | _ => None
  end.

(** [DEF_OP(Rem)]. *)
Definition Op_Rem (Op : IROp_Header) (D : SSAData) (n : Node) : option SSAData :=
  let OpSize := Size Op in
  let Src1 := GetSrc 64 D (Args Op 0%nat) in
  let Src2 := GetSrc 64 D (Args Op 1%nat) in
  match OpSize with
  | 1 => Res ← srem 64 (sext 64 (sext 8 Src1)) (sext 64 (sext 8 Src2));
         Some (GD_set D n Res)
  | 2 => Res ← srem 64 (sext 64 (sext 16 Src1)) (sext 64 (sext 16 Src2));
         Some (GD_set D n Res)
  | 4 => Res ← srem 64 (sext 64 (sext 32 Src1)) (sext 64 (sext 32 Src2));
         Some (GD_set D n Res)
  | 8 => Res ← srem 64 (sext 64 Src1) (sext 64 Src2);
         Some (GD_set D n Res)
  | 16 =>
      Tmp ← srem 128 (GetSrcS 128 D (Args Op 0%nat)) (GetSrcS 128 D (Args Op 1%nat));
      Some (GDP_memcpy D n Tmp 16)
  | _ => None
  end.

(** [DEF_OP(URem)]. *)
Definition Op_URem (Op : IROp_Header) (D : SSAData) (n : Node) : option SSAData :=
  let OpSize := Size Op in
  let Src1 := GetSrc 64 D (Args Op 0%nat) in
  let Src2 := GetSrc 64 D (Args Op 1%nat) in
  match OpSize with
  | 1 => Res ← urem (wrap 64 (wrap 8 Src1)) (wrap 64 (wrap 8 Src2));
         Some (GD_set D n Res)
  | 2 => Res ← urem (wrap 64 (wrap 16 Src1)) (wrap 64 (wrap 16 Src2));
         Some (GD_set D n Res)
  | 4 => Res ← urem (wrap 64 (wrap 32 Src1)) (wrap 64 (wrap 32 Src2));
         Some (GD_set D n Res)
  | 8 => Res ← urem (wrap 64 Src1) (wrap 64 Src2);
         Some (GD_set D n Res)
  | 16 =>
      Tmp ← urem (GetSrc 128 D (Args Op 0%nat)) (GetSrc 128 D (Args Op 1%nat));
      Some (GDP_memcpy D n Tmp 16)
  | _ => None
  end.

(** [DEF_OP(MulH)]; the right shifts of the signed products are
    arithmetic. *)
Definition Op_MulH (Op : IROp_Header) (D : SSAData) (n : Node) : option SSAData :=
  let OpSize := Size Op in
  let Src1 := GetSrc 64 D (Args Op 0%nat) in
  let Src2 := GetSrc 64 D (Args Op 1%nat) in
  match OpSize with
  | 4 =>
      let Tmp := sext 64 (sext 64 (sext 32 Src1) * sext 64 (sext 32 Src2)) in
      Some (GD_set D n (Z.shiftr Tmp 32))
  | 8 =>
      let Tmp := sext 128 (sext 128 (sext 64 Src1) * sext 128 (sext 64 Src2)) in
      Some (GD_set D n (Z.shiftr Tmp 64))
  | _ => None
  end.

(** [DEF_OP(Or)], [DEF_OP(And)] and [DEF_OP(Xor)]. *)
Definition Op_Or (Op : IROp_Header) (D : SSAData) (n : Node) : option SSAData :=
  let OpSize := Size Op in
  let Func := fun a b => Z.lor a b in
  match OpSize with
  | 1 => Some (DO_OP 8 Func Op D n)
  | 2 => Some (DO_OP 16 Func Op D n)
  | 4 => Some (DO_OP 32 Func Op D n)
  | 8 => Some (DO_OP 64 Func Op D n)
  | 16 => Some (DO_OP 128 Func Op D n)
  | _ => None
  end.

Definition Op_And (Op : IROp_Header) (D : SSAData) (n : Node) : option SSAData :=
  let OpSize := Size Op in
  let Func := fun a b => Z.land a b in
  match OpSize with
  | 1 => Some (DO_OP 8 Func Op D n)
  | 2 => Some (DO_OP 16 Func Op D n)
  | 4 => Some (DO_OP 32 Func Op D n)
  | 8 => Some (DO_OP 64 Func Op D n)
  | _ => None
  end.

Definition Op_Xor (Op : IROp_Header) (D : SSAData) (n : Node) : option SSAData :=
  let OpSize := Size Op in
  let Func := fun a b => Z.lxor a b in
  match OpSize with
  | 1 => Some (DO_OP 8 Func Op D n)
  | 2 => Some (DO_OP 16 Func Op D n)
  | 4 => Some (DO_OP 32 Func Op D n)
  | 8 => Some (DO_OP 64 Func Op D n)
  | _ => None
  end.

(** [DEF_OP(Andn)]: the lambda converts [~b] and the conjunction back to
    the type of its operands, of [w] bits. *)
Definition Op_Andn (Op : IROp_Header) (D : SSAData) (n : Node) : option SSAData :=
  let OpSize := Size Op in
  let Func w := fun a b => wrap w (Z.land a (not_ w b)) in
  match OpSize with
  | 1 => Some (DO_OP 8 (Func 8) Op D n)
  | 2 => Some (DO_OP 16 (Func 16) Op D n)
  | 4 => Some (DO_OP 32 (Func 32) Op D n)
  | 8 => Some (DO_OP 64 (Func 64) Op D n)
  | _ => None
  end.

(** [DEF_OP(Lshl)], [DEF_OP(Lshr)] and [DEF_OP(Ashr)].  [Mask] is a
    [uint8_t]; at the sizes 4 and 8 the masked amount is below the width of
    the shifted type. *)
Definition Op_Lshl (Op : IROp_Header) (D : SSAData) (n : Node) : option SSAData :=
  let OpSize := Size Op in
  let Src1 := GetSrc 64 D (Args Op 0%nat) in
  let Src2 := GetSrc 64 D (Args Op 1%nat) in
  let Mask := wrap 8 (OpSize * 8 - 1) in
  match OpSize with
  | 4 => Some (GD_set D n (wrap 32 (Z.shiftl (wrap 32 Src1) (Z.land Src2 Mask))))
  | 8 => Some (GD_set D n (wrap 64 (Z.shiftl (wrap 64 Src1) (Z.land Src2 Mask))))
  | _ => None
  end.

Definition Op_Lshr (Op : IROp_Header) (D : SSAData) (n : Node) : option SSAData :=
  let OpSize := Size Op in
  let Src1 := GetSrc 64 D (Args Op 0%nat) in
  let Src2 := GetSrc 64 D (Args Op 1%nat) in
  let Mask := wrap 8 (OpSize * 8 - 1) in
  match OpSize with
  | 4 => Some (GD_set D n (Z.shiftr (wrap 32 Src1) (Z.land Src2 Mask)))
  | 8 => Some (GD_set D n (Z.shiftr (wrap 64 Src1) (Z.land Src2 Mask)))
  | _ => None
  end.

Definition Op_Ashr (Op : IROp_Header) (D : SSAData) (n : Node) : option SSAData :=
  let OpSize := Size Op in
  let Src1 := GetSrc 64 D (Args Op 0%nat) in
  let Src2 := GetSrc 64 D (Args Op 1%nat) in
  let Mask := wrap 8 (OpSize * 8 - 1) in
  match OpSize with
  | 4 => Some (GD_set D n (wrap 32 (Z.shiftr (sext 32 Src1) (Z.land Src2 Mask))))
  | 8 => Some (GD_set D n (wrap 64 (Z.shiftr (sext 64 Src1) (Z.land Src2 Mask))))
  | _ => None
  end.

(** The lambda [Extr] of [DEF_OP(Extr)], at an unsigned type of [w] bits:
    the two sources are concatenated at [__uint128_t]. *)
Definition Extr (m : OversizedShift) (w Src1 Src2 lsb : Z) : Z :=
  let Result := wrap 128 Src1 in
  let Result := shl m 128 Result w in
  let Result := Z.lor Result (wrap 128 Src2) in
  let Result := shr m 128 Result lsb in
  wrap w Result.

(** [DEF_OP(Extr)]. *)
Definition Op_Extr (m : OversizedShift) (Op : IROp_Extr) (D : SSAData)
    (n : Node) : option SSAData :=
  let OpSize := Size (Extr_Header Op) in
  let Src1 := GetSrc 64 D (Args (Extr_Header Op) 0%nat) in
  let Src2 := GetSrc 64 D (Args (Extr_Header Op) 1%nat) in
  match OpSize with
  | 4 => Some (GD_set D n (Extr m 32 (wrap 32 Src1) (wrap 32 Src2) (Extr_LSB Op)))
  | 8 => Some (GD_set D n (Extr m 64 (wrap 64 Src1) (wrap 64 Src2) (Extr_LSB Op)))
  | _ => None
  end.

(** [DEF_OP(LURem)], as [Op_LUDiv] with the remainder. *)
Definition Op_LURem (Op : IROp_Header) (D : SSAData) (n : Node) : option SSAData :=
  let OpSize := Size Op in
  let wide (w : Z) : option Z :=
    let SrcLow := GetSrc w D (Args Op 0%nat) in
    let SrcHigh := GetSrc w D (Args Op 1%nat) in
    let Divisor := GetSrc w D (Args Op 2%nat) in
    let Source := Z.lor (wrap (2 * w) (Z.shiftl (wrap (2 * w) SrcHigh) w)) SrcLow in
    if Divisor =? 0 then None else Some (wrap (2 * w) (Source mod Divisor)) in
  match OpSize with
  | 2 => Res ← wide 16; Some (GD_set D n (wrap 16 Res))
  | 4 => Res ← wide 32; Some (GD_set D n (wrap 32 Res))
  | 8 => Res ← wide 64; Some (GDP_memcpy D n Res OpSize)
  | _ => None
  end.

(** [DEF_OP(Sbfe)]; [None] is the failed assertion [OpSize <= 8].  The
    shift amounts are [uint64_t]; the left shift is made at [int64_t] and
    wraps around, the right shift is arithmetic. *)
Definition Op_Sbfe (m : OversizedShift) (Op : IROp_Sbfe) (D : SSAData)
    (n : Node) : option SSAData :=
  let OpSize := Size (Sbfe_Header Op) in
  if 8 <? OpSize then None else
  let Src := GetSrcS 64 D (Args (Sbfe_Header Op) 0%nat) in
  let ShiftLeftAmount := wrap 64 (64 - (Sbfe_Width Op + Sbfe_lsb Op)) in
  let ShiftRightAmount := wrap 64 (ShiftLeftAmount + Sbfe_lsb Op) in
  let Src := sext 64 (Z.shiftl Src (shamt m 64 ShiftLeftAmount)) in
  let Src := Z.shiftr Src (shamt m 64 ShiftRightAmount) in
  Some (GD_set D n Src).

(** [DEF_OP(LDiv)] and [DEF_OP(LRem)]: as [Op_LUDiv], with the dividend
    and the divisor converted to the signed types; the division is made at
    the signed type of twice the width, and its result is converted to the
    signed type of the operation before it is assigned. *)
Definition Op_LDiv (Op : IROp_Header) (D : SSAData) (n : Node) : option SSAData :=
  let OpSize := Size Op in
  let wide (w : Z) : option Z :=
    let SrcLow := GetSrc w D (Args Op 0%nat) in
    let SrcHigh := GetSrc w D (Args Op 1%nat) in
    let Divisor := sext w (GetSrc w D (Args Op 2%nat)) in
    let Source :=
      sext (2 * w) (Z.lor (wrap (2 * w) (Z.shiftl (wrap (2 * w) SrcHigh) w)) SrcLow) in
    sdiv (2 * w) Source (sext (2 * w) Divisor) in
  match OpSize with
  | 2 => Res ← wide 16; Some (GD_set D n (sext 16 Res))
  | 4 => Res ← wide 32; Some (GD_set D n (sext 32 Res))
  | 8 => Res ← wide 64; Some (GDP_memcpy D n Res OpSize)
  | _ => None
  end.

Definition Op_LRem (Op : IROp_Header) (D : SSAData) (n : Node) : option SSAData :=
  let OpSize := Size Op in
  let wide (w : Z) : option Z :=
    let SrcLow := GetSrc w D (Args Op 0%nat) in
    let SrcHigh := GetSrc w D (Args Op 1%nat) in
    let Divisor := sext w (GetSrc w D (Args Op 2%nat)) in
    let Source :=
      sext (2 * w) (Z.lor (wrap (2 * w) (Z.shiftl (wrap (2 * w) SrcHigh) w)) SrcLow) in
    srem (2 * w) Source (sext (2 * w) Divisor) in
  match OpSize with
  | 2 => Res ← wide 16; Some (GD_set D n (sext 16 Res))
  | 4 => Res ← wide 32; Some (GD_set D n (sext 32 Res))
  | 8 => Res ← wide 64; Some (GDP_memcpy D n Res OpSize)
  | _ => None
  end.

(** [DEF_OP(FindMSB)].  The subtractions are made at [int]; the result
    [-1], for the operand zero, is converted to [uint64_t] by the
    assignment. *)
Definition Op_FindMSB (Op : IROp_Header) (D : SSAData) (n : Node) : option SSAData :=
  let OpSize := Size Op in
  let Src w := GetSrc w D (Args Op 0%nat) in
  match OpSize with
  | 1 => Some (GD_set D n ((OpSize * 8 - countl_zero 8 (Src 8)) - 1))
  | 2 => Some (GD_set D n ((OpSize * 8 - countl_zero 16 (Src 16)) - 1))
  | 4 => Some (GD_set D n ((OpSize * 8 - countl_zero 32 (Src 32)) - 1))
  | 8 => Some (GD_set D n ((OpSize * 8 - countl_zero 64 (Src 64)) - 1))
  | _ => None
  end.

(** [DEF_OP(FindTrailingZeros)]. *)
Definition Op_FindTrailingZeros (Op : IROp_Header) (D : SSAData) (n : Node)
    : option SSAData :=
  let OpSize := Size Op in
  match OpSize with
  | 1 => let Src := GetSrc 8 D (Args Op 0%nat) in Some (GD_set D n (countr_zero 8 Src))
  | 2 => let Src := GetSrc 16 D (Args Op 0%nat) in Some (GD_set D n (countr_zero 16 Src))
  | 4 => let Src := GetSrc 32 D (Args Op 0%nat) in Some (GD_set D n (countr_zero 32 Src))
  | 8 => let Src := GetSrc 64 D (Args Op 0%nat) in Some (GD_set D n (countr_zero 64 Src))
  | _ => None
  end.

(** [DEF_OP(CountLeadingZeroes)]. *)
Definition Op_CountLeadingZeroes (Op : IROp_Header) (D : SSAData) (n : Node)
    : option SSAData :=
  let OpSize := Size Op in
  match OpSize with
  | 1 => let Src := GetSrc 8 D (Args Op 0%nat) in Some (GD_set D n (countl_zero 8 Src))
  | 2 => let Src := GetSrc 16 D (Args Op 0%nat) in Some (GD_set D n (countl_zero 16 Src))
  | 4 => let Src := GetSrc 32 D (Args Op 0%nat) in Some (GD_set D n (countl_zero 32 Src))
  | 8 => let Src := GetSrc 64 D (Args Op 0%nat) in Some (GD_set D n (countl_zero 64 Src))
  | _ => None
  end.

(** *** Floating-point compare *)

(** The value of an IEEE 754 binary interchange format with [mw] stored
    significand bits and [ew] exponent bits, from its bit pattern:
    what reading a slot as [float] (23, 8) or [double] (52, 11) gives. *)
Definition float_of_bits (mw ew x : Z) : spec_float :=
  let s := Z.testbit x (mw + ew) in
  let e := (x / 2 ^ mw) mod 2 ^ ew in
  let f := x mod 2 ^ mw in
  if e =? 2 ^ ew - 1 then
    if f =? 0 then S754_infinity s else S754_nan
  else if e =? 0 then
    match f with
    | Zpos p => S754_finite s p (2 - 2 ^ (ew - 1) - mw)
    | _ => S754_zero s
    end
  else
    match f + 2 ^ mw with
    | Zpos p => S754_finite s p (e - (2 ^ (ew - 1) - 1) - mw)
    | _ => S754_nan
    end.

Definition GetSrc_float (D : SSAData) (n : Node) : spec_float :=
  float_of_bits 23 8 (GetSrc 32 D n).

Definition GetSrc_double (D : SSAData) (n : Node) : spec_float :=
  float_of_bits 52 11 (GetSrc 64 D n).

(** [std::isnan]. *)
Definition isnan (f : spec_float) : bool :=
  match f with
  | S754_nan => true
  | _ => false
  end.

Section FCmp.

(** The bit numbers [IR::FCMP_FLAG_LT], [IR::FCMP_FLAG_UNORDERED] and
    [IR::FCMP_FLAG_EQ]; the enumeration that declares them is not among
    the sources. *)
Context (FCMP_FLAG_LT FCMP_FLAG_UNORDERED FCMP_FLAG_EQ : Z).

(** [Op->Flags & (1 << flag)], as a condition. *)
Definition requested (Flags flag : Z) : bool :=
  negb (Z.land Flags (Z.shiftl 1 flag) =? 0).

(** The body shared by the two branches of [DEF_OP(FCmp)], at [float] and
    at [double]. *)
Definition FCmp_flags (Flags : Z) (Src1 Src2 : spec_float) : Z :=
  let ResultFlags := 0 in
  let Unordered := isnan Src1 || isnan Src2 in
  let ResultFlags :=
    if requested Flags FCMP_FLAG_LT then
      if Unordered || SFltb Src1 Src2
      then wrap 32 (Z.lor ResultFlags (Z.shiftl 1 FCMP_FLAG_LT))
      else ResultFlags
    else ResultFlags in
  let ResultFlags :=
    if requested Flags FCMP_FLAG_UNORDERED then
      if Unordered
      then wrap 32 (Z.lor ResultFlags (Z.shiftl 1 FCMP_FLAG_UNORDERED))
      else ResultFlags
    else ResultFlags in
  let ResultFlags :=
    if requested Flags FCMP_FLAG_EQ then
      if Unordered || SFeqb Src1 Src2
      then wrap 32 (Z.lor ResultFlags (Z.shiftl 1 FCMP_FLAG_EQ))
      else ResultFlags
    else ResultFlags in
  ResultFlags.

(** [DEF_OP(FCmp)]. *)
Definition Op_FCmp (Op : IROp_FCmp) (D : SSAData) (n : Node) : SSAData :=
  let ResultFlags :=
    if FCmp_ElementSize Op =? 4 then
      let Src1 := GetSrc_float D (Args (FCmp_Header Op) 0%nat) in
      let Src2 := GetSrc_float D (Args (FCmp_Header Op) 1%nat) in
      FCmp_flags (FCmp_Flags Op) Src1 Src2
    else
      let Src1 := GetSrc_double D (Args (FCmp_Header Op) 0%nat) in
      let Src2 := GetSrc_double D (Args (FCmp_Header Op) 1%nat) in
      FCmp_flags (FCmp_Flags Op) Src1 Src2 in
  GD_set D n ResultFlags.

(** The operand [i] of an [FCmp], as the handler reads it. *)
Definition FCmp_Src (Op : IROp_FCmp) (D : SSAData) (i : nat) : spec_float :=
  if FCmp_ElementSize Op =? 4
  then GetSrc_float D (Args (FCmp_Header Op) i)
  else GetSrc_double D (Args (FCmp_Header Op) i).

End FCmp.

End Interpreter.

(** ** The bucket list *)

Module BucketList.

(** A chain of buckets, the head first: each bucket is its array [Items];
[Next] of a bucket is the bucket after it, and is null at the last.
The chain always has its head. *)
Abbreviation Chain := (list (list Z)).

Section Bucket.

(** The template parameter [_Size], and what [Clear] leaves in the slots
    after the first: [0xDEADBEEF] in a debug build, nothing specified
    otherwise.  The item type [T] is [uint32_t], held in [Z]. *)
Context (Size : nat) (poison : Z).

(** [Bucket->Items[i]], and the assignment [Bucket->Items[i] = v], for
    the bucket number [Bucket] of the chain. *)
Definition Item (c : Chain) (Bucket i : nat) : option Z :=
  Items ← c !! Bucket; Items !! i.

Definition set_Item (c : Chain) (Bucket i : nat) (v : Z) : Chain :=
  alter (fun Items => <[i := v]> Items) Bucket c.

(** [Bucket->Next != nullptr]. *)
Definition has_Next (c : Chain) (Bucket : nat) : bool :=
  bool_decide (S Bucket < length c)%nat.

(** [Clear], on a bucket without a successor, and the constructor. *)
Definition Clear : list Z := 0 :: replicate (Size - 1) poison.

Definition new : Chain := [Clear].

(** The loops are bounded by the number of slots of the chain. *)
Definition slots (c : Chain) : nat := S (Size * length c).

(** [Iterate], with the enumerator that collects the items it is given.
    [None] is the failed assertion "Interference bug". *)
Fixpoint Iterate_loop (fuel : nat) (c : Chain) (Bucket i : nat)
    : option (list Z) :=
  match fuel with
  | O => None
  | S fuel =>
      Item ← Item c Bucket i;
      if Item =? 0 then Some [] else
      rest ← (if (S i =? Size)%nat then
                if has_Next c Bucket
                then Iterate_loop fuel c (S Bucket) 0
                else None
              else Iterate_loop fuel c Bucket (S i));
      Some (Item :: rest)
  end.

Definition Iterate (c : Chain) : option (list Z) :=
  Iterate_loop (slots c) c 0 0.

(** [Find]; [None] is the failed assertion "Bucket in bad state". *)
Fixpoint Find_loop (fuel : nat) (Enumerator : Z -> bool) (c : Chain)
    (Bucket i : nat) : option bool :=
  match fuel with
  | O => None
  | S fuel =>
      Item ← Item c Bucket i;
      if Item =? 0 then Some false else
      if Enumerator Item then Some true else
      if (S i =? Size)%nat then
        if has_Next c Bucket
        then Find_loop fuel Enumerator c (S Bucket) 0
        else None
      else Find_loop fuel Enumerator c Bucket (S i)
  end.

Definition Find (Enumerator : Z -> bool) (c : Chain) : option bool :=
  Find_loop (slots c) Enumerator c 0 0.

(** The [for] loop of [Append], over the slots [i ..] of the last
    bucket: the value of [i] when the loop is left, which is [Size] when
    no slot holds [0]. *)
Fixpoint Append_for (n : nat) (Items : list Z) (i : nat) : nat :=
  match n with
  | O => i
  | S n =>
      match Items !! i with
      | Some 0 => i
      | _ => Append_for n Items (S i)
      end
  end.

(** [Append]. *)
Definition Append (Val : Z) (c : Chain) : Chain :=
  let that := (length c - 1)%nat in
  let i := Append_for Size (default [] (c !! that)) 0 in
  let c := if (i <? Size)%nat then set_Item c that i Val else c in
  if (i <? Size - 1)%nat
  then set_Item c that (S i) 0
  else c ++ [Clear].

(** The first loop of [Erase]: the bucket and the slot that hold [Val].
    [None] is the failed assertion "Bucket::Erase but element not
    contained". *)
Fixpoint Erase_find (fuel : nat) (Val : Z) (c : Chain) (that i : nat)
    : option (nat * nat) :=
  match fuel with
  | O => None
  | S fuel =>
      Item ← Item c that i;
      if Item =? Val then Some (that, i) else
      if (S i =? Size)%nat then
        if has_Next c that
        then Erase_find fuel Val c (S that) 0
        else None
      else Erase_find fuel Val c that (S i)
  end.

(** The second loop of [Erase]: the last item is moved into the slot
    found and its own slot becomes the terminator; a successor left
    empty is released.  [None] is a read outside of a bucket or through
    a null [Next]. *)
Fixpoint Erase_move (fuel : nat) (c : Chain) (foundThat foundI that i : nat)
    : option Chain :=
  match fuel with
  | O => None
  | S fuel =>
      Item_i ← Item c that i;
      if Item_i =? 0 then
        match i with
        | O => None
        | S j =>
            last ← Item c that j;
            Some (set_Item (set_Item c foundThat foundI last) that j 0)
        end
      else if (S i =? Size)%nat then
        Next_0 ← Item c (S that) 0;
        if Next_0 =? 0 then
          let c := take (S that) c in
          last ← Item c that (Size - 1);
          Some (set_Item (set_Item c foundThat foundI last) that (Size - 1) 0)
        else Erase_move fuel c foundThat foundI (S that) 0
      else Erase_move fuel c foundThat foundI that (S i)
  end.

(** [Erase]. *)
Definition Erase (Val : Z) (c : Chain) : option Chain :=
  '(that, i) ← Erase_find (slots c) Val c 0 0;
  Erase_move (slots c) c that i that i.

(** The method [Clear] on a chain: the first slot of the head becomes the
    terminator, a debug build poisons the other slots of the head, and
    [Next] is released.  [NDEBUG] tells a release build. *)
Definition Clear_this (NDEBUG : bool) (c : Chain) : Chain :=
  let Items := <[0%nat := 0]> (default [] (c !! 0%nat)) in
  let Items := if NDEBUG then Items
               else take 1 Items ++ replicate (Size - 1) poison in
  [Items].

(** The predicate given to [Find] to look for an id. *)
Definition is_item (v : Z) : Z -> bool := fun item => item =? v.

(** The chains that a sequence of appends and erases builds from the
    empty one, where an id is appended when it is not zero and not
    stored, and erased when it is stored. *)
Inductive built : Chain -> Prop :=
| built_new : built new
| built_Append c v :
    built c -> v <> 0 -> Find (is_item v) c = Some false ->
    built (Append v c)
| built_Erase c v c' :
    built c -> Find (is_item v) c = Some true -> Erase v c = Some c' ->
    built c'.

(** The representation invariant: every bucket has [Size] slots, the
    slots of the chain, read in order, are the stored items [l] with the
    terminator [0] after them, and that terminator is in the last
    bucket. *)
Definition shape (c : Chain) : Prop :=
  c <> [] /\ Forall (fun Items => length Items = Size) c.

Definition holds (c : Chain) (l : list Z) : Prop :=
  shape c /\
  (exists unused, mjoin c = l ++ 0 :: unused) /\
  Forall (fun x => x <> 0) l /\
  (Size * (length c - 1) <= length l)%nat.

End Bucket.

End BucketList.

(** * Properties of the ALU handlers *)

Import Interpreter.

(** ** Machine integers *)

Lemma wrap_range (w x : Z) : 0 <= w -> 0 <= wrap w x < 2 ^ w.
Proof. intros Hw. unfold wrap. apply Z.mod_pos_bound. lia. Qed.

Lemma wrap_small (w x : Z) : 0 <= x < 2 ^ w -> wrap w x = x.
Proof. intros Hx. unfold wrap. apply Z.mod_small, Hx. Qed.

Lemma wrap_wrap (w x : Z) : wrap w (wrap w x) = wrap w x.
Proof. unfold wrap. apply Z.mod_mod_divide. apply Z.divide_refl. Qed.

Lemma wrap_widen (w w' x : Z) : 0 <= w <= w' -> wrap w' (wrap w x) = wrap w x.
Proof.
  intros Hw. apply wrap_small.
  pose proof (wrap_range w x (proj1 Hw)) as Hr.
  assert (2 ^ w <= 2 ^ w') by (apply Z.pow_le_mono_r; lia). lia.
Qed.

Lemma wrap_land_ones (w x : Z) : 0 <= w -> wrap w x = Z.land x (Z.ones w).
Proof. intros Hw. unfold wrap. symmetry. apply Z.land_ones, Hw. Qed.

Lemma wrap_testbit (w x i : Z) :
  0 <= w -> Z.testbit (wrap w x) i = (i <? w) && Z.testbit x i.
Proof.
  intros Hw. unfold wrap. destruct (Z.ltb_spec i w) as [Hi | Hi]; cbn.
  - destruct (Z.neg_nonneg_cases i) as [Hn | Hn].
    + now rewrite !Z.testbit_neg_r.
    + apply Z.mod_pow2_bits_low. lia.
  - apply Z.mod_pow2_bits_high. lia.
Qed.

Lemma wrap_lor (w x y : Z) :
  0 <= w -> wrap w (Z.lor x y) = Z.lor (wrap w x) (wrap w y).
Proof.
  intros Hw. rewrite !wrap_land_ones by assumption.
  apply Z.land_lor_distr_l.
Qed.

Lemma wrap_store (w v old : Z) : wrap w (store w v old) = wrap w v.
Proof.
  unfold store, wrap.
  destruct (Z.eq_dec (2 ^ w) 0) as [H0 | H0].
  - rewrite H0, !Z.mod_0_r. lia.
  - pose proof (Z.div_mod old (2 ^ w) H0) as Hd.
    replace (old - old mod 2 ^ w + v mod 2 ^ w)
      with (v mod 2 ^ w + (old / 2 ^ w) * 2 ^ w) by lia.
    rewrite Z_mod_plus_full. apply Z.mod_mod_divide, Z.divide_refl.
Qed.

(** ** The destination slot *)

Lemma GD_get_set (D : SSAData) (n : Node) (v : Z) :
  GD_get (GD_set D n v) n = wrap 64 v.
Proof.
  unfold GD_get, GD_set, GetSrc. rewrite fn_lookup_insert. apply wrap_store.
Qed.

Lemma GetSrc_GD_set_ne (w : Z) (D : SSAData) (n n' : Node) (v : Z) :
  n <> n' -> GetSrc w (GD_set D n v) n' = GetSrc w D n'.
Proof.
  intros Hn. unfold GD_set, GetSrc. now rewrite fn_lookup_insert_ne.
Qed.

Lemma GetSrc_DO_OP (w : Z) (func : Z -> Z -> Z) (Op : IROp_Header)
    (D : SSAData) (n : Node) :
  GetSrc w (DO_OP w func Op D n) n
  = wrap w (func (GetSrc w D (Args Op 0%nat)) (GetSrc w D (Args Op 1%nat))).
Proof.
  unfold DO_OP, GetSrc. rewrite fn_lookup_insert, wrap_store. apply wrap_wrap.
Qed.

(** ** UMulH *)

(** C1.  [UMulH] at size 16 does what it does at size 8, whatever the
    operand slots hold: it writes the high 64 bits of the 128-bit product of
    the low 64 bits [a] and [b] of its operands, and the upper halves of the
    operand slots play no part. *)
Theorem UMulH_size16_is_size8 (ES : Z) (A : nat -> Node) (D : SSAData) (n : Node) :
  let Op s := {| Size := s; ElementSize := ES; Args := A |} in
  let a := GetSrc 64 D (A 0%nat) in
  let b := GetSrc 64 D (A 1%nat) in
  Op_UMulH (Op 16) D n = Op_UMulH (Op 8) D n /\
  exists D', Op_UMulH (Op 16) D n = Some D' /\
             GD_get D' n = (a * b) / 2 ^ 64.
Proof.
  intros Op a b. split; [reflexivity |].
  eexists. split; [reflexivity |].
  rewrite GD_get_set. cbn [Args Op]. fold a b.
  assert (Ha : 0 <= a < 2 ^ 64) by (apply wrap_range; lia).
  assert (Hb : 0 <= b < 2 ^ 64) by (apply wrap_range; lia).
  assert (Hw : forall x, 0 <= x < 2 ^ 64 -> wrap 128 x = x).
  { intros x Hx. apply wrap_small. change (2 ^ 128) with (2 ^ 64 * 2 ^ 64). nia. }
  rewrite (Hw a Ha), (Hw b Hb).
  assert (Hp : 0 <= a * b < 2 ^ 64 * 2 ^ 64) by nia.
  rewrite (wrap_small 128) by (change (2 ^ 128) with (2 ^ 64 * 2 ^ 64); exact Hp).
  rewrite Z.shiftr_div_pow2 by lia.
  apply wrap_small. split.
  - apply Z.div_pos; lia.
  - apply Z.div_lt_upper_bound; lia.
Qed.

(** ** Neg *)

Lemma sext_wrap (w x : Z) : 0 < w -> wrap w (sext w x) = wrap w x.
Proof.
  intros Hw. unfold sext. destruct (wrap w x <? 2 ^ (w - 1)).
  - apply wrap_wrap.
  - unfold wrap. rewrite <- (Z_mod_plus_full (x mod 2 ^ w - 2 ^ w) 1 (2 ^ w)).
    replace (x mod 2 ^ w - 2 ^ w + 1 * 2 ^ w) with (x mod 2 ^ w) by lia.
    apply Z.mod_mod_divide, Z.divide_refl.
Qed.

Lemma wrap_narrow (w w' x : Z) : 0 <= w <= w' -> wrap w (wrap w' x) = wrap w x.
Proof.
  intros Hw. unfold wrap. apply Z.mod_mod_divide.
  exists (2 ^ (w' - w)). rewrite <- Z.pow_add_r by lia. f_equal. lia.
Qed.

Lemma wrap_opp_cong (w x y : Z) : wrap w x = wrap w y -> wrap w (- x) = wrap w (- y).
Proof.
  unfold wrap. intros H.
  rewrite <- (Z.sub_0_l x), <- (Z.sub_0_l y).
  now rewrite (Zminus_mod 0 x), (Zminus_mod 0 y), H.
Qed.

Lemma sext_cong (w x y : Z) : wrap w x = wrap w y -> sext w x = sext w y.
Proof. unfold sext. now intros ->. Qed.

(** The operand of [Neg] at size 4, and the negation at [int32_t]. *)
Lemma Neg_size4_value (Op : IROp_Header) (D : SSAData) (n : Node) :
  Size Op = 4 ->
  Op_Neg Op D n
  = Some (GD_set D n (sext 32 (- GetSrc 32 D (Args Op 0%nat)))).
Proof.
  intros Hs. unfold Op_Neg. rewrite Hs. cbv beta iota zeta. do 2 f_equal.
  unfold GetSrcS, GetSrc.
  apply sext_cong, wrap_opp_cong.
  rewrite sext_wrap, wrap_wrap by lia.
  rewrite wrap_narrow by lia.
  rewrite <- (wrap_narrow 32 64 (sext 64 _)) by lia.
  rewrite sext_wrap by lia. apply wrap_narrow. lia.
Qed.

(** C2, as stated: the 64-bit value that [Neg] writes at size 4 would be the
    zero extension of the 32-bit negation.  It is not: for the operand 1 the
    handler writes [0xFFFFFFFFFFFFFFFF], not [0x00000000FFFFFFFF]. *)
Lemma Neg_size4_not_zero_extended :
  ~ (forall (Op : IROp_Header) (D : SSAData) (n : Node),
       Size Op = 4 ->
       exists D', Op_Neg Op D n = Some D' /\
                  GD_get D' n = wrap 32 (- GetSrc 32 D (Args Op 0%nat))).
Proof.
  intros H.
  destruct (H {| Size := 4; ElementSize := 0; Args := fun _ => 0%nat |}
              (fun _ => 1) 1%nat eq_refl) as (D' & HD' & Hget).
  injection HD' as <-. vm_compute in Hget. discriminate Hget.
Qed.

(** C2, amended.  At size 4, [Neg] writes the 64-bit sign extension of the
    32-bit two's-complement negation of its operand [a]: the low 32 bits of
    the written value are that negation, and the upper 32 bits are copies of
    its sign bit, so they are zero only when the negation is below [2^31]. *)
Theorem Neg_size4_sign_extended (Op : IROp_Header) (D : SSAData) (n : Node) :
  Size Op = 4 ->
  let a := GetSrc 32 D (Args Op 0%nat) in
  exists D', Op_Neg Op D n = Some D' /\
             GD_get D' n = wrap 64 (sext 32 (- a)) /\
             wrap 32 (GD_get D' n) = wrap 32 (- a) /\
             GD_get D' n / 2 ^ 32
             = if wrap 32 (- a) <? 2 ^ 31 then 0 else 2 ^ 32 - 1.
Proof.
  intros Hs a. rewrite (Neg_size4_value Op D n Hs). fold a.
  eexists. split; [reflexivity |]. rewrite GD_get_set.
  split; [reflexivity |].
  pose proof (wrap_range 32 (- a) ltac:(lia)) as Hr.
  unfold sext. change (32 - 1) with 31.
  destruct (Z.ltb_spec (wrap 32 (- a)) (2 ^ 31)) as [Hlt | Hge].
  - rewrite (wrap_small 64) by lia.
    split; [apply wrap_wrap |]. apply Z.div_small. lia.
  - assert (Hv : wrap 64 (wrap 32 (- a) - 2 ^ 32)
                 = wrap 32 (- a) + (2 ^ 32 - 1) * 2 ^ 32).
    { unfold wrap at 1.
      rewrite <- (Z_mod_plus_full _ 1 (2 ^ 64)).
      rewrite Z.mod_small by lia. lia. }
    rewrite Hv. split.
    + unfold wrap at 1. rewrite Z_mod_plus_full.
      apply Z.mod_mod_divide, Z.divide_refl.
    + rewrite Z.div_add by lia. rewrite Z.div_small by lia. lia.
Qed.

Lemma Neg_size4_sign_extended_witness :
  exists D',
    Op_Neg {| Size := 4; ElementSize := 0; Args := fun _ => 0%nat |}
           (fun _ => 1) 1%nat = Some D' /\
    GD_get D' 1%nat = 0xFFFFFFFFFFFFFFFF.
Proof.
  destruct (Neg_size4_sign_extended
              {| Size := 4; ElementSize := 0; Args := fun _ => 0%nat |}
              (fun _ => 1) 1%nat eq_refl) as (D' & HD' & Hget & _).
  exists D'. split; [exact HD' | exact Hget].
Defined.

(** ** LUDiv *)

(** C5.  At size 4 and for a divisor that is not zero, [LUDiv] writes the low
    32 bits, zero-extended, of the unsigned 64-bit quotient of
    [(high << 32) | low] by the divisor. *)
Theorem LUDiv_size4_quotient (Op : IROp_Header) (D : SSAData) (n : Node) :
  let low := GetSrc 32 D (Args Op 0%nat) in
  let high := GetSrc 32 D (Args Op 1%nat) in
  let divisor := GetSrc 32 D (Args Op 2%nat) in
  Size Op = 4 ->
  divisor <> 0 ->
  exists D', Op_LUDiv Op D n = Some D' /\
             GD_get D' n = wrap 32 (Z.lor (Z.shiftl high 32) low / divisor).
Proof.
  intros low high divisor Hs Hd. unfold Op_LUDiv. rewrite Hs.
  cbv beta iota zeta. fold low high divisor.
  destruct (Z.eqb_spec divisor 0) as [| _]; [contradiction |].
  cbn [mbind option_bind]. eexists. split; [reflexivity |].
  rewrite GD_get_set.
  pose proof (wrap_range 32 (D (Args Op 0%nat)) ltac:(lia)) as Hlow.
  pose proof (wrap_range 32 (D (Args Op 1%nat)) ltac:(lia)) as Hhigh.
  pose proof (wrap_range 32 (D (Args Op 2%nat)) ltac:(lia)) as Hdiv.
  fold (GetSrc 32 D (Args Op 0%nat)) in Hlow. fold low in Hlow.
  fold (GetSrc 32 D (Args Op 1%nat)) in Hhigh. fold high in Hhigh.
  fold (GetSrc 32 D (Args Op 2%nat)) in Hdiv. fold divisor in Hdiv.
  change (2 * 32) with 64.
  assert (H64 : 2 ^ 64 = 2 ^ 32 * 2 ^ 32) by reflexivity.
  rewrite (wrap_small 64 high) by lia.
  assert (Hsh : 0 <= Z.shiftl high 32 < 2 ^ 64).
  { rewrite Z.shiftl_mul_pow2 by lia. nia. }
  rewrite (wrap_small 64 (Z.shiftl high 32)) by exact Hsh.
  set (Source := Z.lor (Z.shiftl high 32) low).
  assert (HS : 0 <= Source < 2 ^ 64).
  { split; [apply Z.lor_nonneg; lia |].
    apply Z.log2_lt_cancel. rewrite Z.log2_pow2 by lia.
    destruct (Z.eq_dec Source 0) as [-> | Hne]; [cbn; lia |].
    assert (0 < Source) by (assert (0 <= Source) by (apply Z.lor_nonneg; lia); lia).
    unfold Source in *. rewrite Z.log2_lor by lia.
    apply Z.max_lub_lt.
    - destruct (Z.eq_dec (Z.shiftl high 32) 0) as [-> | ?]; [cbn; lia |].
      apply Z.log2_lt_pow2; lia.
    - destruct (Z.eq_dec low 0) as [-> | ?]; [cbn; lia |].
      apply Z.log2_lt_pow2; lia. }
  assert (HQ : 0 <= Source / divisor < 2 ^ 64).
  { split; [apply Z.div_pos; lia |].
    apply Z.div_lt_upper_bound; nia. }
  rewrite (wrap_small 64 (Source / divisor)) by exact HQ.
  apply wrap_widen. lia.
Qed.

(** The scenario of the specification: [low = 0], [high = 1] and the divisor
    2 give [0x80000000]. *)
Lemma LUDiv_size4_quotient_witness :
  let Op := {| Size := 4; ElementSize := 0; Args := fun i => i |} in
  let D : SSAData := fun k => match k with 1%nat => 1 | 2%nat => 2 | _ => 0 end in
  exists D', Op_LUDiv Op D 3%nat = Some D' /\ GD_get D' 3%nat = 0x80000000.
Proof.
  intros Op D.
  destruct (LUDiv_size4_quotient Op D 3%nat eq_refl) as (D' & HD' & Hget).
  - vm_compute. discriminate.
  - exists D'. split; [exact HD' | exact Hget].
Defined.

(** ** Add, Sub and UMul *)

(** C7.  At the width [w] of 32 or 64 bits, the [w]-bit result that [Add],
    [Sub] and [UMul] write is the sum, the difference and the product of the
    [w]-bit operands, modulo [2^w]; [UMul] writes it zero-extended to 64
    bits. *)
Theorem Add_Sub_UMul_modular (Op : IROp_Header) (D : SSAData) (n : Node) (w : Z) :
  let a := GetSrc w D (Args Op 0%nat) in
  let b := GetSrc w D (Args Op 1%nat) in
  w = 32 \/ w = 64 ->
  Size Op = w / 8 ->
  (exists D', Op_Add Op D n = Some D' /\ GetSrc w D' n = (a + b) mod 2 ^ w) /\
  (exists D', Op_Sub Op D n = Some D' /\ GetSrc w D' n = (a - b) mod 2 ^ w) /\
  (exists D', Op_UMul Op D n = Some D' /\ GD_get D' n = (a * b) mod 2 ^ w).
Proof.
  intros a b Hw Hs. unfold Op_Add, Op_Sub, Op_UMul.
  destruct Hw as [-> | ->]; rewrite Hs; cbv beta iota zeta;
    change (32 / 8) with 4; change (64 / 8) with 8; cbv iota.
  - repeat split; eexists; (split; [reflexivity |]).
    + apply GetSrc_DO_OP.
    + apply GetSrc_DO_OP.
    + rewrite GD_get_set. unfold GetSrc.
      rewrite !(wrap_narrow 32 64) by lia. apply wrap_widen. lia.
  - repeat split; eexists; (split; [reflexivity |]).
    + apply GetSrc_DO_OP.
    + apply GetSrc_DO_OP.
    + rewrite GD_get_set. unfold GetSrc. rewrite !wrap_wrap. reflexivity.
Qed.

Lemma Add_Sub_UMul_modular_witness :
  let Op := {| Size := 4; ElementSize := 0; Args := fun i => i |} in
  let D : SSAData := fun k => match k with 0%nat => 0xFFFFFFFF | _ => 1 end in
  (exists D', Op_Add Op D 2%nat = Some D' /\ GetSrc 32 D' 2%nat = 0) /\
  (exists D', Op_Sub Op D 2%nat = Some D' /\ GetSrc 32 D' 2%nat = 0xFFFFFFFE) /\
  (exists D', Op_UMul Op D 2%nat = Some D' /\ GD_get D' 2%nat = 0xFFFFFFFF).
Proof.
  intros Op D.
  exact (Add_Sub_UMul_modular Op D 2%nat 32 (or_introl eq_refl) eq_refl).
Defined.

(** ** Not *)

(** C8.  [Not] writes the complement of its 64-bit operand under the mask of
    its size: [0xFF], [0xFFFF], [0xFFFFFFFF] and all ones at the sizes 1, 2,
    4 and 8, and the mask 0, hence the result 0, at the sizes 3, 5, 6 and
    7. *)
Theorem Not_masked (Op : IROp_Header) (D : SSAData) (n : Node) :
  let a := GetSrc 64 D (Args Op 0%nat) in
  (forall s mask,
      In (s, mask) [(1, 0xFF); (2, 0xFFFF); (4, 0xFFFFFFFF);
                    (8, 0xFFFFFFFFFFFFFFFF)] ->
      Size Op = s ->
      exists D', Op_Not Op D n = Some D' /\
                 GD_get D' n = Z.land (Z.lnot a) mask) /\
  (forall s, In s [3; 5; 6; 7] -> Size Op = s ->
      exists D', Op_Not Op D n = Some D' /\ GD_get D' n = 0).
Proof.
  intros a.
  assert (Hmask : forall mask, 0 <= mask < 2 ^ 64 ->
            wrap 64 (Z.land (not_ 64 a) mask) = Z.land (Z.lnot a) mask).
  { intros mask Hm. unfold not_. apply Z.bits_inj'. intros i Hi.
    assert (Hmb : Z.testbit mask i = (i <? 64) && Z.testbit mask i).
    { rewrite <- wrap_testbit by lia. now rewrite wrap_small. }
    rewrite wrap_testbit, !Z.land_spec, wrap_testbit by lia.
    rewrite Hmb.
    destruct (i <? 64), (Z.testbit (Z.lnot a) i), (Z.testbit mask i);
      reflexivity. }
  split.
  - intros s mask Hin Hs. unfold Op_Not. rewrite Hs. fold a.
    cbn in Hin.
    destruct Hin as [H | [H | [H | [H | []]]]]; injection H as <- <-;
      cbn [mbind option_bind lookup list_lookup Z.to_nat Pos.to_nat Pos.iter_op Nat.add];
      (eexists; split; [reflexivity |]); rewrite GD_get_set;
      apply Hmask; lia.
  - intros s Hin Hs. unfold Op_Not. rewrite Hs. fold a.
    cbn in Hin.
    destruct Hin as [H | [H | [H | [H | []]]]]; subst s;
      cbn [mbind option_bind lookup list_lookup Z.to_nat Pos.to_nat Pos.iter_op Nat.add];
      (eexists; split; [reflexivity |]); rewrite GD_get_set;
      rewrite Z.land_0_r; reflexivity.
Qed.

Lemma Not_masked_witness :
  let Op s := {| Size := s; ElementSize := 0; Args := fun i => i |} in
  let D : SSAData := fun _ => 0x0123456789ABCDEF in
  (exists D', Op_Not (Op 2) D 1%nat = Some D' /\ GD_get D' 1%nat = 0x3210) /\
  (exists D', Op_Not (Op 3) D 1%nat = Some D' /\ GD_get D' 1%nat = 0).
Proof.
  intros Op D. split.
  - exact (proj1 (Not_masked (Op 2) D 1%nat) 2 0xFFFF
             (or_intror (or_introl eq_refl)) eq_refl).
  - exact (proj2 (Not_masked (Op 3) D 1%nat) 3 (or_introl eq_refl) eq_refl).
Defined.

(** ** Popcount *)

Lemma popcount64_range (x : Z) : 0 <= popcount64 x <= 64.
Proof.
  unfold popcount64.
  pose proof (length_filter (fun i => Is_true (Z.testbit x i)) (seqZ 0 64)) as H.
  rewrite length_seqZ in H. lia.
Qed.

(** C10.  [Popcount] reads its operand as 64 bits and writes the number of
    set bits among them, whatever the declared size of the operation; at the
    declared sizes 1, 2 and 4 there are buffers whose operand slots agree on
    the declared width and for which the results differ. *)
Theorem Popcount_reads_64_bits (Op : IROp_Header) (D : SSAData) (n : Node) :
  GD_get (Op_Popcount Op D n) n = popcount64 (GetSrc 64 D (Args Op 0%nat)) /\
  (forall s, In s [1; 2; 4] -> Size Op = s ->
     exists D1 D2 : SSAData,
       GetSrc (8 * s) D1 (Args Op 0%nat) = GetSrc (8 * s) D2 (Args Op 0%nat) /\
       GD_get (Op_Popcount Op D1 n) n <> GD_get (Op_Popcount Op D2 n) n).
Proof.
  split.
  - unfold Op_Popcount. rewrite GD_get_set. apply wrap_small.
    pose proof (popcount64_range (GetSrc 64 D (Args Op 0%nat))). lia.
  - intros s Hin _. exists (fun _ => 0), (fun _ => 2 ^ 32).
    unfold Op_Popcount. rewrite !GD_get_set. unfold GetSrc. split.
    + cbn in Hin. destruct Hin as [<- | [<- | [<- | []]]]; reflexivity.
    + vm_compute. discriminate.
Qed.

Lemma Popcount_reads_64_bits_witness :
  let Op := {| Size := 1; ElementSize := 0; Args := fun i => i |} in
  let D : SSAData := fun _ => 0xFF00 in
  GD_get (Op_Popcount Op D 1%nat) 1%nat = 8 /\
  exists D1 D2 : SSAData,
    GetSrc 8 D1 0%nat = GetSrc 8 D2 0%nat /\
    GD_get (Op_Popcount Op D1 1%nat) 1%nat <> GD_get (Op_Popcount Op D2 1%nat) 1%nat.
Proof.
  intros Op D. split.
  - exact (proj1 (Popcount_reads_64_bits Op D 1%nat)).
  - exact (proj2 (Popcount_reads_64_bits Op D 1%nat) 1 (or_introl eq_refl) eq_refl).
Defined.

(** ** Ror *)

Lemma land_pred_pow2 (x k : Z) : 0 <= k -> Z.land x (2 ^ k - 1) = x mod 2 ^ k.
Proof.
  intros Hk. rewrite <- Z.land_ones by assumption. f_equal.
  rewrite Z.ones_equiv. lia.
Qed.

Lemma shiftl_wrap_full (w x : Z) : 0 <= w -> wrap w (Z.shiftl x w) = 0.
Proof.
  intros Hw. unfold wrap. rewrite Z.shiftl_mul_pow2 by assumption.
  apply Z_mod_mult.
Qed.

(** The lambda at a width [w = 2^k]: the rotation of [a] by [r mod w]. *)
Lemma Ror_spec (m : OversizedShift) (k a r : Z) :
  let w := 2 ^ k in
  0 < k ->
  0 <= a < 2 ^ w ->
  0 <= r ->
  Ror m w a r
  = wrap w (Z.lor (Z.shiftr a (r mod w)) (Z.shiftl a (w - r mod w))) /\
  (r mod w = 0 -> Ror m w a r = a).
Proof.
  intros w Hk Ha Hr.
  assert (Hw : 1 < w) by (apply Z.pow_gt_1; lia).
  assert (Hrm : 0 <= r mod w < w) by (apply Z.mod_pos_bound; lia).
  assert (Hww : w < 2 ^ w) by (apply Z.pow_gt_lin_r; lia).
  assert (HR : wrap w (Z.land r (w - 1)) = r mod w).
  { unfold w at 2. rewrite land_pred_pow2 by lia. fold w.
    apply wrap_small. lia. }
  assert (Hsr : wrap w (Z.shiftr a (r mod w)) = Z.shiftr a (r mod w)).
  { apply wrap_small. rewrite Z.shiftr_div_pow2 by lia. split.
    - apply Z.div_pos; [lia |]. apply Z.pow_pos_nonneg; lia.
    - apply Z.div_lt_upper_bound; [apply Z.pow_pos_nonneg; lia |].
      assert (0 < 2 ^ (r mod w)) by (apply Z.pow_pos_nonneg; lia). nia. }
  assert (Heq : Ror m w a r
    = wrap w (Z.lor (Z.shiftr a (r mod w)) (Z.shiftl a (w - r mod w)))).
  { unfold Ror. cbv zeta. rewrite HR. unfold shr, shl.
    rewrite (wrap_small w a) by exact Ha.
    rewrite wrap_lor, Hsr by lia.
    destruct m; cbn [shamt].
    - reflexivity.
    - rewrite (Z.mod_small (r mod w) w) by lia.
      destruct (Z.eq_dec (r mod w) 0) as [H0 | H0].
      + rewrite H0, Z.sub_0_r, Z_mod_same_full, Z.shiftl_0_r.
        rewrite shiftl_wrap_full by lia.
        rewrite (wrap_small w a) by exact Ha.
        rewrite Z.shiftr_0_r, Z.lor_0_r. apply Z.lor_diag.
      + rewrite (Z.mod_small (w - r mod w) w) by lia. reflexivity. }
  split; [exact Heq |].
  intros H0. rewrite Heq, H0, Z.sub_0_r, Z.shiftr_0_r.
  rewrite wrap_lor, shiftl_wrap_full, Z.lor_0_r by lia.
  apply wrap_small, Ha.
Qed.

(** C6.  At the width [w] of 32 or 64 bits, [Ror] writes the rotation of its
    [w]-bit operand [a] to the right by [r mod w], for the amount [r] of its
    second operand; when [r mod w] is zero this is [a].  It holds under both
    readings of the shift by [w] that the handler then makes. *)
Theorem Ror_rotates (m : OversizedShift) (Op : IROp_Header) (D : SSAData)
    (n : Node) (w : Z) :
  let a := GetSrc w D (Args Op 0%nat) in
  let r := GetSrc 64 D (Args Op 1%nat) in
  w = 32 \/ w = 64 ->
  Size Op = w / 8 ->
  exists D', Op_Ror m Op D n = Some D' /\
             GD_get D' n
             = wrap w (Z.lor (Z.shiftr a (r mod w)) (Z.shiftl a (w - r mod w))) /\
             (r mod w = 0 -> GD_get D' n = a).
Proof.
  intros a r Hw Hs. unfold Op_Ror. rewrite Hs.
  assert (Hr : 0 <= r) by (apply (wrap_range 64); lia).
  destruct Hw as [-> | ->]; cbv beta iota zeta;
    change (32 / 8) with 4; change (64 / 8) with 8; cbv iota;
    (eexists; split; [reflexivity |]); rewrite GD_get_set.
  - assert (Ha : 0 <= a < 2 ^ 32) by (apply wrap_range; lia).
    assert (Hnar : wrap 32 (GetSrc 64 D (Args Op 0%nat)) = a).
    { unfold a, GetSrc. apply wrap_narrow. lia. }
    rewrite !Hnar. fold r.
    assert (Hr32 : 0 <= wrap 32 r) by (apply (wrap_range 32); lia).
    destruct (Ror_spec m 5 a (wrap 32 r) ltac:(lia) Ha Hr32) as [Heq H0].
    change (2 ^ 5) with 32 in Heq, H0.
    assert (Hmod : wrap 32 r mod 32 = r mod 32).
    { unfold wrap. apply Z.mod_mod_divide. exists (2 ^ 27). reflexivity. }
    rewrite Hmod in Heq, H0.
    assert (Hwr : wrap 64 (Ror m 32 a (wrap 32 r)) = Ror m 32 a (wrap 32 r)).
    { rewrite Heq. apply wrap_widen. lia. }
    rewrite Hwr. split; [exact Heq | exact H0].
  - assert (Ha : 0 <= a < 2 ^ 64) by (apply wrap_range; lia).
    assert (Hn : forall x, wrap 64 (GetSrc 64 D x) = GetSrc 64 D x)
      by (intros x; apply wrap_wrap).
    rewrite !Hn. fold a. fold r.
    destruct (Ror_spec m 6 a r ltac:(lia) Ha Hr) as [Heq H0].
    change (2 ^ 6) with 64 in Heq, H0.
    assert (Hwr : wrap 64 (Ror m 64 a r) = Ror m 64 a r).
    { rewrite Heq. apply wrap_wrap. }
    rewrite Hwr. split; [exact Heq | exact H0].
Qed.

Lemma Ror_rotates_witness :
  let Op := {| Size := 4; ElementSize := 0; Args := fun i => i |} in
  let D : SSAData := fun k => match k with 0%nat => 0x80000001 | _ => 32 end in
  exists D', Op_Ror ShiftCountWraps Op D 2%nat = Some D' /\
             GD_get D' 2%nat = 0x80000001.
Proof.
  intros Op D.
  destruct (Ror_rotates ShiftCountWraps Op D 2%nat 32 (or_introl eq_refl) eq_refl)
    as (D' & HD' & _ & H0).
  exists D'. split; [exact HD' | exact (H0 eq_refl)].
Defined.

(** ** Bfi and Bfe *)

Lemma testbit_ones_full (n j : Z) :
  0 <= n -> Z.testbit (Z.ones n) j = (0 <=? j) && (j <? n).
Proof.
  intros Hn. destruct (Z.leb_spec 0 j) as [Hj | Hj]; cbn.
  - now apply Z.testbit_ones_nonneg.
  - apply Z.testbit_neg_r, Hj.
Qed.

Lemma shamt_small (m : OversizedShift) (w n : Z) : 0 <= n < w -> shamt m w n = n.
Proof. intros Hn. destruct m; cbn; [reflexivity | now apply Z.mod_small]. Qed.

Lemma testbit_shl (m : OversizedShift) (w y n i : Z) :
  0 <= n < w -> 0 <= i ->
  Z.testbit (shl m w y n) i = (i <? w) && Z.testbit y (i - n).
Proof.
  intros Hn Hi. unfold shl. rewrite shamt_small by exact Hn.
  rewrite wrap_testbit by lia. now rewrite Z.shiftl_spec by exact Hi.
Qed.

Lemma testbit_shr (m : OversizedShift) (w y n i : Z) :
  0 <= n < w -> 0 <= i ->
  Z.testbit (shr m w y n) i = (i + n <? w) && Z.testbit y (i + n).
Proof.
  intros Hn Hi. unfold shr. rewrite shamt_small by exact Hn.
  rewrite Z.shiftr_spec by exact Hi. apply wrap_testbit. lia.
Qed.

Lemma testbit_not_ (w y i : Z) :
  0 <= w -> 0 <= i -> Z.testbit (not_ w y) i = (i <? w) && negb (Z.testbit y i).
Proof.
  intros Hw Hi. unfold not_. rewrite wrap_testbit by exact Hw.
  now rewrite Z.lnot_spec by exact Hi.
Qed.

(** The mask of a field of 1 to 64 bits. *)
Lemma SourceMask_ones (m : OversizedShift) (Width : Z) :
  1 <= Width <= 64 -> SourceMask m Width = Z.ones Width.
Proof.
  intros HW. unfold SourceMask.
  destruct (Z.eqb_spec Width 64) as [-> | Hne]; [reflexivity |].
  unfold shl. rewrite shamt_small by lia.
  rewrite Z.shiftl_1_l, Z.ones_equiv.
  assert (H2 : 0 < 2 ^ Width < 2 ^ 64).
  { split; [apply Z.pow_pos_nonneg; lia | apply Z.pow_lt_mono_r; lia]. }
  rewrite (wrap_small 64 (2 ^ Width)) by lia.
  rewrite <- Z.sub_1_r. apply wrap_small. lia.
Qed.

(** What [Bfi] computes from a value and the field that [Bfe] extracted from
    it at the same place. *)
Lemma Bfi_Bfe_value (m : OversizedShift) (x width lsb : Z) :
  let M := SourceMask m width in
  let field := wrap 64 (shr m 64 (Z.land x (shl m 64 M lsb)) lsb) in
  0 <= x < 2 ^ 64 -> 1 <= width -> 0 <= lsb -> lsb + width <= 64 ->
  wrap 64 (Z.lor (Z.land x (not_ 64 (shl m 64 M lsb)))
                 (shl m 64 (Z.land field M) lsb)) = x.
Proof.
  intros M field Hx Hw Hl Hlw. subst field M.
  rewrite SourceMask_ones by lia.
  apply Z.bits_inj'. intros i Hi.
  assert (Hxb : 64 <= i -> Z.testbit x i = false).
  { intros H64. rewrite <- (wrap_small 64 x Hx), wrap_testbit by lia.
    destruct (Z.ltb_spec i 64); [lia | reflexivity]. }
  rewrite wrap_testbit, Z.lor_spec, Z.land_spec by lia.
  rewrite testbit_not_, !testbit_shl by lia.
  rewrite Z.land_spec, wrap_testbit by lia.
  destruct (Z.ltb_spec i lsb) as [Hil | Hil].
  - rewrite (Z.testbit_neg_r (Z.ones width) (i - lsb)) by lia.
    rewrite (Z.testbit_neg_r _ (i - lsb)) by lia.
    destruct (Z.ltb_spec i 64); [| lia].
    destruct (i - lsb <? 64), (Z.testbit x i); reflexivity.
  - rewrite testbit_shr by lia.
    rewrite Z.land_spec, testbit_shl by lia.
    replace (i - lsb + lsb) with i by lia.
    rewrite !testbit_ones_full by lia.
    destruct (Z.ltb_spec i 64) as [H64 | H64].
    + destruct (Z.leb_spec 0 (i - lsb)); [| lia].
      destruct (Z.ltb_spec (i - lsb) 64); [| lia].
      destruct (i - lsb <? width), (Z.testbit x i); reflexivity.
    + rewrite (Hxb H64). reflexivity.
Qed.

(** C3.  A field of [width >= 1] bits at [lsb], with [lsb + width <= 64],
    that [Bfe] extracts from the value [x] of a node [s] into a node [d1],
    and that [Bfi] then inserts into [x] at the same place, gives [x] back:
    the bits outside the field are kept and the field is reproduced.  The
    node [d1] is not [s], as in any SSA program. *)
Theorem Bfi_Bfe_roundtrip (m : OversizedShift) (D : SSAData) (s d1 d2 : Node)
    (size size' esize esize' width lsb : Z) :
  let Bfe := {| Bfe_Header := {| Size := size; ElementSize := esize;
                                 Args := fun _ => s |};
                Bfe_Width := width; Bfe_lsb := lsb |} in
  let Bfi := {| Bfi_Header := {| Size := size'; ElementSize := esize';
                                 Args := fun i => match i with
                                                  | O => s
                                                  | _ => d1
                                                  end |};
                Bfi_Width := width; Bfi_lsb := lsb |} in
  size <= 8 -> 1 <= width -> 0 <= lsb -> lsb + width <= 64 -> d1 <> s ->
  exists D1, Op_Bfe m Bfe D d1 = Some D1 /\
             GD_get (Op_Bfi m Bfi D1 d2) d2 = GetSrc 64 D s.
Proof.
  intros Bfe Bfi Hsz Hw Hl Hlw Hne. unfold Op_Bfe.
  cbn [Bfe Bfe_Header Bfe_Width Bfe_lsb Size Args].
  destruct (Z.ltb_spec 8 size) as [Hgt | _]; [lia |].
  eexists. split; [reflexivity |].
  unfold Op_Bfi. cbn [Bfi Bfi_Header Bfi_Width Bfi_lsb Size Args].
  rewrite GD_get_set.
  rewrite (GetSrc_GD_set_ne 64 D d1 s) by exact Hne.
  fold (GD_get (GD_set D d1
          (shr m 64 (Z.land (GetSrc 64 D s) (shl m 64 (SourceMask m width) lsb)) lsb))
          d1).
  rewrite GD_get_set.
  apply Bfi_Bfe_value; try assumption.
  apply wrap_range. lia.
Qed.

Lemma Bfi_Bfe_roundtrip_witness :
  let D : SSAData := fun _ => 0xDEADBEEF in
  let Bfe := {| Bfe_Header := {| Size := 8; ElementSize := 0;
                                 Args := fun _ => 0%nat |};
                Bfe_Width := 8; Bfe_lsb := 16 |} in
  let Bfi := {| Bfi_Header := {| Size := 8; ElementSize := 0;
                                 Args := fun i => match i with
                                                  | O => 0%nat
                                                  | _ => 1%nat
                                                  end |};
                Bfi_Width := 8; Bfi_lsb := 16 |} in
  exists D1, Op_Bfe ShiftDrops Bfe D 1%nat = Some D1 /\
             GD_get D1 1%nat = 0xAD /\
             GD_get (Op_Bfi ShiftDrops Bfi D1 2%nat) 2%nat = 0xDEADBEEF.
Proof.
  intros D Bfe Bfi.
  destruct (Bfi_Bfe_roundtrip ShiftDrops D 0%nat 1%nat 2%nat 8 8 0 0 8 16)
    as (D1 & HD1 & Hget); try lia.
  exists D1. split; [exact HD1 |]. split; [| exact Hget].
  injection HD1 as <-. reflexivity.
Defined.

(** ** FCmp *)

Lemma testbit_one (j : Z) : Z.testbit 1 j = (j =? 0).
Proof. destruct j as [| [p | p |] | p]; reflexivity. Qed.

Lemma testbit_set_flag (r k f : Z) :
  0 <= k -> 0 <= f < 32 ->
  Z.testbit (wrap 32 (Z.lor r (Z.shiftl 1 k))) f = Z.testbit r f || (f =? k).
Proof.
  intros Hk Hf. rewrite wrap_testbit, Z.lor_spec, Z.shiftl_spec by lia.
  rewrite testbit_one.
  destruct (Z.ltb_spec f 32); [| lia]. cbn. f_equal.
  destruct (Z.eqb_spec (f - k) 0), (Z.eqb_spec f k); (reflexivity || lia).
Qed.

Section FCmp_flags.

Context (LT UNORDERED EQ : Z).
Context (HLT : 0 <= LT < 32) (HUN : 0 <= UNORDERED < 32) (HEQ : 0 <= EQ < 32).

(** The bits of the flags that the body of [FCmp] computes. *)
Lemma FCmp_flags_testbit (Flags : Z) (Src1 Src2 : spec_float) (f : Z) :
  0 <= f < 32 ->
  let Unordered := isnan Src1 || isnan Src2 in
  Z.testbit (FCmp_flags LT UNORDERED EQ Flags Src1 Src2) f
  = requested Flags LT && (Unordered || SFltb Src1 Src2) && (f =? LT)
    || requested Flags UNORDERED && Unordered && (f =? UNORDERED)
    || requested Flags EQ && (Unordered || SFeqb Src1 Src2) && (f =? EQ).
Proof using HLT HUN HEQ.
  intros Hf Unordered. unfold FCmp_flags. fold Unordered.
  destruct (requested Flags LT), (requested Flags UNORDERED),
    (requested Flags EQ), Unordered, (SFltb Src1 Src2), (SFeqb Src1 Src2);
    cbn [orb andb];
    rewrite ?testbit_set_flag by lia; rewrite Z.bits_0;
    destruct (f =? LT), (f =? UNORDERED), (f =? EQ); reflexivity.
Qed.

Lemma Op_FCmp_flags (Op : IROp_FCmp) (D : SSAData) (n : Node) :
  Op_FCmp LT UNORDERED EQ Op D n
  = GD_set D n (FCmp_flags LT UNORDERED EQ (FCmp_Flags Op)
                  (FCmp_Src Op D 0%nat) (FCmp_Src Op D 1%nat)).
Proof using Type.
  unfold Op_FCmp, FCmp_Src. now destruct (FCmp_ElementSize Op =? 4).
Qed.

(** C4.  When an operand of [FCmp] is a NaN, every flag among LT, EQ and
    UNORDERED that the mask of the operation requests is set in the result;
    and for all operands the UNORDERED bit, when requested, is set exactly
    when an operand is a NaN.  The bit numbers of the three flags are
    distinct and below 32. *)
Theorem FCmp_unordered_flags (Op : IROp_FCmp) (D : SSAData) (n : Node) :
  let Src1 := FCmp_Src Op D 0%nat in
  let Src2 := FCmp_Src Op D 1%nat in
  let Result := GD_get (Op_FCmp LT UNORDERED EQ Op D n) n in
  UNORDERED <> LT -> UNORDERED <> EQ ->
  (isnan Src1 || isnan Src2 = true ->
   forall flag, In flag [LT; EQ; UNORDERED] ->
     requested (FCmp_Flags Op) flag = true ->
     Z.testbit Result flag = true) /\
  (requested (FCmp_Flags Op) UNORDERED = true ->
   (Z.testbit Result UNORDERED = true <-> isnan Src1 || isnan Src2 = true)).
Proof using HLT HUN HEQ.
  intros Src1 Src2 Result Hne1 Hne2.
  assert (HR : forall f, 0 <= f < 32 ->
            Z.testbit Result f
            = Z.testbit (FCmp_flags LT UNORDERED EQ (FCmp_Flags Op) Src1 Src2) f).
  { intros f Hf. unfold Result. rewrite Op_FCmp_flags, GD_get_set.
    fold Src1 Src2. rewrite wrap_testbit by lia.
    destruct (Z.ltb_spec f 64); [reflexivity | lia]. }
  split.
  - intros Hnan flag Hin Hreq.
    assert (Hf : 0 <= flag < 32).
    { cbn in Hin. destruct Hin as [<- | [<- | [<- | []]]]; assumption. }
    rewrite (HR flag Hf), FCmp_flags_testbit by exact Hf.
    rewrite Hnan. cbn [orb andb].
    cbn in Hin. destruct Hin as [<- | [<- | [<- | []]]]; rewrite Hreq;
      rewrite Z.eqb_refl; cbn [orb andb];
      repeat match goal with
             | |- context [requested ?a ?b] => destruct (requested a b)
             | |- context [?a =? ?b] => destruct (a =? b)
             end; reflexivity.
  - intros Hreq. rewrite (HR UNORDERED HUN), FCmp_flags_testbit by exact HUN.
    rewrite Hreq, Z.eqb_refl.
    destruct (Z.eqb_spec UNORDERED LT) as [? | _]; [contradiction |].
    destruct (Z.eqb_spec UNORDERED EQ) as [? | _]; [contradiction |].
    rewrite !andb_false_r, andb_true_r. cbn [orb andb].
    rewrite orb_false_r. reflexivity.
Qed.

End FCmp_flags.

(** The scenario of the specification: a NaN against 1.0 at element size 4
    with the three flags requested, for the bit numbers 1, 2 and 0. *)
Lemma FCmp_unordered_flags_witness :
  let Op := {| FCmp_Header := {| Size := 4; ElementSize := 4; Args := fun i => i |};
               FCmp_ElementSize := 4; FCmp_Flags := 7 |} in
  let D : SSAData := fun k => match k with 0%nat => 0x7FC00000 | _ => 0x3F800000 end in
  let Result := GD_get (Op_FCmp 1 2 0 Op D 2%nat) 2%nat in
  Z.testbit Result 1 = true /\ Z.testbit Result 0 = true /\
  (Z.testbit Result 2 = true <-> true = true).
Proof.
  intros Op D Result.
  destruct (FCmp_unordered_flags 1 2 0 ltac:(lia) ltac:(lia) ltac:(lia) Op D 2%nat
              ltac:(lia) ltac:(lia)) as [Hall Hun].
  split; [| split].
  - apply (Hall eq_refl 1); [left; reflexivity | reflexivity].
  - apply (Hall eq_refl 0); [right; left; reflexivity | reflexivity].
  - exact (Hun eq_refl).
Defined.

(** * Properties of the bucket list *)

Import BucketList.

Section BucketList_spec.

Context (Size : nat) (poison : Z) (HSize : (0 < Size)%nat).

Local Open Scope nat_scope.

Local Abbreviation sized := (Forall (fun Items : list Z => length Items = Size)).

(** ** The slots of a chain, read in order *)

Lemma join_cons (Items : list Z) (c : Chain) : mjoin (Items :: c) = Items ++ mjoin c.
Proof using All. reflexivity. Qed.

Lemma sized_length_join (c : Chain) : sized c -> length (mjoin c) = Size * length c.
Proof using All.
  induction 1 as [| Items c HItems _ IH]; [cbn; lia |].
  rewrite join_cons, length_app, IH, HItems. cbn [length]. lia.
Qed.

Lemma Item_join (c : Chain) (Bucket i : nat) :
  sized c -> i < Size -> Item c Bucket i = mjoin c !! (Bucket * Size + i).
Proof using All.
  intros Hc Hi. revert Bucket.
  induction Hc as [| Items c HItems _ IH]; intros Bucket; [reflexivity |].
  rewrite join_cons. destruct Bucket as [| Bucket].
  - rewrite lookup_app_l by lia. reflexivity.
  - rewrite lookup_app_r by lia.
    replace (S Bucket * Size + i - length Items) with (Bucket * Size + i) by lia.
    apply IH.
Qed.

Lemma set_Item_sized (c : Chain) (Bucket i : nat) (v : Z) :
  sized c -> sized (set_Item c Bucket i v).
Proof using All.
  intros Hc. unfold set_Item. apply Forall_alter; [exact Hc |].
  intros Items _ HItems. now rewrite length_insert.
Qed.

Lemma set_Item_join (c : Chain) (Bucket i : nat) (v : Z) :
  sized c -> i < Size ->
  mjoin (set_Item c Bucket i v) = <[Bucket * Size + i := v]> (mjoin c).
Proof using All.
  intros Hc Hi. revert Bucket.
  induction Hc as [| Items c HItems _ IH]; intros Bucket; [reflexivity |].
  destruct Bucket as [| Bucket].
  - unfold set_Item. cbn [alter list_alter]. rewrite !join_cons.
    rewrite insert_app_l by lia. reflexivity.
  - unfold set_Item. cbn [alter list_alter]. rewrite !join_cons.
    rewrite insert_app_r_alt by lia.
    replace (S Bucket * Size + i - length Items) with (Bucket * Size + i) by lia.
    f_equal. apply IH.
Qed.

Lemma set_Item_length (c : Chain) (Bucket i : nat) (v : Z) :
  length (set_Item c Bucket i v) = length c.
Proof using All. apply length_alter. Qed.

Lemma take_join (c : Chain) (k : nat) :
  sized c -> mjoin (take k c) = take (k * Size) (mjoin c).
Proof using All.
  intros Hc. revert k.
  induction Hc as [| Items c HItems _ IH]; intros k.
  - rewrite take_nil. change (mjoin (@nil (list Z))) with (@nil Z).
    now rewrite take_nil.
  - destruct k as [| k]; [reflexivity |].
    cbn [take]. rewrite !join_cons.
    rewrite take_app_ge by lia. rewrite IH. do 2 f_equal. lia.
Qed.

Lemma Clear_length : length (Clear Size poison) = Size.
Proof using All. unfold Clear. cbn [length]. rewrite length_replicate. lia. Qed.

(** A position in the chain and the same position among all slots. *)
Lemma Bucket_in_chain (c : Chain) (Bucket i p : nat) :
  sized c -> Bucket * Size + i = p -> p < length (mjoin c) -> Bucket < length c.
Proof using All.
  intros Hc Hp Hlt. rewrite sized_length_join in Hlt by exact Hc. nia.
Qed.

Lemma insert_last (l : list Z) (x : Z) :
  0 < length l -> <[length l - 1 := x]> l = take (length l - 1) l ++ [x].
Proof using All.
  intros Hl. rewrite insert_take_drop by lia.
  f_equal. f_equal. apply drop_ge. lia.
Qed.

(** ** The loops over a chain that holds [l] *)

Section holding.

Context (c : Chain) (l unused : list Z).
Context (Hsized : sized c).
Context (Hjoin : mjoin c = l ++ 0%Z :: unused).
Context (Hnonzero : Forall (fun x => x <> 0%Z) l).

Lemma slot_stored (p : nat) (x : Z) : l !! p = Some x -> mjoin c !! p = Some x.
Proof using All. intros Hp. rewrite Hjoin. now apply lookup_app_l_Some. Qed.

Lemma slot_terminator : mjoin c !! length l = Some 0%Z.
Proof using All. rewrite Hjoin. apply list_lookup_middle. reflexivity. Qed.

Lemma stored_below_slots : length l < Size * length c.
Proof using All.
  rewrite <- sized_length_join by exact Hsized.
  rewrite Hjoin, length_app. cbn [length]. lia.
Qed.

(** The bucket after a full one is there as long as the terminator has not
    been reached. *)
Lemma has_Next_below (Bucket i : nat) :
  S i = Size -> Bucket * Size + i < length l -> has_Next c Bucket = true.
Proof using All.
  intros Hi Hp. unfold has_Next. apply bool_decide_eq_true_2.
  pose proof stored_below_slots. nia.
Qed.

Lemma Iterate_loop_holds (n fuel Bucket i : nat) :
  i < Size -> Bucket * Size + i + n = length l -> n < fuel ->
  Iterate_loop Size fuel c Bucket i = Some (drop (Bucket * Size + i) l).
Proof using All.
  revert fuel Bucket i.
  induction n as [| n IH]; intros fuel Bucket i Hi Hp Hfuel;
    (destruct fuel as [| fuel]; [lia |]); cbn [Iterate_loop];
    rewrite Item_join by assumption.
  - replace (Bucket * Size + i) with (length l) by lia.
    rewrite slot_terminator. cbn [mbind option_bind]. rewrite Z.eqb_refl.
    now rewrite drop_all.
  - destruct (lookup_lt_is_Some_2 l (Bucket * Size + i)) as [x Hx]; [lia |].
    rewrite (slot_stored _ _ Hx). cbn [mbind option_bind].
    pose proof (Forall_lookup_1 _ _ _ _ Hnonzero Hx) as Hx0. cbn beta in Hx0.
    destruct (Z.eqb_spec x 0%Z) as [| _]; [contradiction |].
    rewrite (drop_S _ _ _ Hx).
    destruct (Nat.eqb_spec (S i) Size) as [HS | HS].
    + rewrite (has_Next_below Bucket i) by (assumption || lia).
      rewrite (IH fuel (S Bucket) 0) by lia.
      cbn [mbind option_bind]. do 3 f_equal. lia.
    + rewrite (IH fuel Bucket (S i)) by lia.
      cbn [mbind option_bind]. do 3 f_equal. lia.
Qed.

Lemma Find_loop_holds (Enumerator : Z -> bool) (n fuel Bucket i : nat) :
  i < Size -> Bucket * Size + i + n = length l -> n < fuel ->
  Find_loop Size fuel Enumerator c Bucket i
  = Some (existsb Enumerator (drop (Bucket * Size + i) l)).
Proof using All.
  revert fuel Bucket i.
  induction n as [| n IH]; intros fuel Bucket i Hi Hp Hfuel;
    (destruct fuel as [| fuel]; [lia |]); cbn [Find_loop];
    rewrite Item_join by assumption.
  - replace (Bucket * Size + i) with (length l) by lia.
    rewrite slot_terminator. cbn [mbind option_bind]. rewrite Z.eqb_refl.
    now rewrite drop_all.
  - destruct (lookup_lt_is_Some_2 l (Bucket * Size + i)) as [x Hx]; [lia |].
    rewrite (slot_stored _ _ Hx). cbn [mbind option_bind].
    pose proof (Forall_lookup_1 _ _ _ _ Hnonzero Hx) as Hx0. cbn beta in Hx0.
    destruct (Z.eqb_spec x 0%Z) as [| _]; [contradiction |].
    rewrite (drop_S _ _ _ Hx). cbn [existsb].
    destruct (Enumerator x); [reflexivity |]. cbn [orb].
    destruct (Nat.eqb_spec (S i) Size) as [HS | HS].
    + rewrite (has_Next_below Bucket i) by (assumption || lia).
      rewrite (IH fuel (S Bucket) 0) by lia. do 3 f_equal. lia.
    + rewrite (IH fuel Bucket (S i)) by lia. do 3 f_equal. lia.
Qed.

(** The first loop of [Erase] stops at the first slot that holds [Val]. *)
Lemma Erase_find_holds (Val : Z) (l1 l2 : list Z) (n fuel that i : nat) :
  l = l1 ++ Val :: l2 -> Val ∉ l1 ->
  i < Size -> that * Size + i + n = length l1 -> n < fuel ->
  exists that' i',
    Erase_find Size fuel Val c that i = Some (that', i') /\
    i' < Size /\ that' * Size + i' = length l1.
Proof using All.
  intros Hl Hnotin. revert fuel that i.
  assert (Hlen : length l = length l1 + S (length l2)).
  { rewrite Hl, length_app. reflexivity. }
  induction n as [| n IH]; intros fuel that i Hi Hp Hfuel;
    (destruct fuel as [| fuel]; [lia |]); cbn [Erase_find];
    rewrite Item_join by assumption.
  - assert (Hx : l !! (that * Size + i) = Some Val).
    { rewrite Hl. replace (that * Size + i) with (length l1) by lia.
      apply list_lookup_middle. reflexivity. }
    rewrite (slot_stored _ _ Hx). cbn [mbind option_bind].
    rewrite Z.eqb_refl. exists that, i. repeat split; [assumption | lia].
  - destruct (lookup_lt_is_Some_2 l1 (that * Size + i)) as [x Hx]; [lia |].
    assert (Hxl : l !! (that * Size + i) = Some x).
    { rewrite Hl. now apply lookup_app_l_Some. }
    rewrite (slot_stored _ _ Hxl). cbn [mbind option_bind].
    destruct (Z.eqb_spec x Val) as [-> | _].
    { exfalso. apply Hnotin. eapply list_elem_of_lookup_2, Hx. }
    destruct (Nat.eqb_spec (S i) Size) as [HS | HS].
    + rewrite (has_Next_below that i) by (assumption || lia).
      apply IH; lia.
    + apply IH; lia.
Qed.

End holding.

(** ** The second loop of [Erase] *)

Section moving.

Context (c : Chain) (l unused : list Z).
Context (Hsized : sized c).
Context (Hjoin : mjoin c = l ++ 0%Z :: unused).
Context (Hnonzero : Forall (fun x => x <> 0%Z) l).
Context (Hlast : Size * (length c - 1) <= length l).

(** The slot found, as a bucket and an index and as a position among the
    slots, and the last item stored. *)
Context (foundThat foundI found : nat) (z : Z).
Context (HfoundI : foundI < Size).
Context (Hfound : foundThat * Size + foundI = found).
Context (Hstored : found < length l).
Context (Hz : l !! (length l - 1) = Some z).

Local Abbreviation moved := (take (length l - 1) (<[found := z]> l)).

Lemma moved_nonzero : Forall (fun x => x <> 0%Z) moved.
Proof using All.
  apply Forall_take, Forall_insert; [exact Hnonzero |].
  exact (Forall_lookup_1 _ _ _ _ Hnonzero Hz).
Qed.

Lemma moved_length : length moved = length l - 1.
Proof using All. rewrite length_take_le; [reflexivity |]. rewrite length_insert. lia. Qed.

(** The terminator is written over the last item, in the last bucket. *)
Lemma moved_in_place (that j : nat) :
  S j < Size -> that * Size + S j = length l ->
  holds Size (set_Item (set_Item c foundThat foundI z) that j 0%Z) moved.
Proof using All.
  intros Hj Hp.
  pose proof (stored_below_slots c l unused Hsized Hjoin Hnonzero) as Hbelow.
  assert (Hthat : that = length c - 1).
  { assert (that < length c) by nia.
    assert (length c - 1 <= that) by nia. lia. }
  split; [| split; [| split]].
  - split.
    + intros Hnil. apply (f_equal length) in Hnil.
      rewrite !set_Item_length in Hnil. cbn in Hnil. lia.
    + now do 2 apply set_Item_sized.
  - exists (0%Z :: unused).
    rewrite set_Item_join by (try apply set_Item_sized; (assumption || lia)).
    rewrite set_Item_join by (assumption || lia).
    rewrite Hfound, Hjoin.
    rewrite insert_app_l by lia.
    rewrite insert_app_l by (rewrite length_insert; lia).
    replace (that * Size + j) with (length (<[found := z]> l) - 1)
      by (rewrite length_insert; lia).
    rewrite insert_last by (rewrite length_insert; lia).
    rewrite length_insert, <- app_assoc. reflexivity.
  - exact moved_nonzero.
  - rewrite moved_length, !set_Item_length. nia.
Qed.

(** The last item fills its bucket and the bucket after it, which is empty,
    is released. *)
Lemma moved_released (that : nat) :
  that * Size + Size = length l ->
  holds Size
    (set_Item (set_Item (take (S that) c) foundThat foundI z) that (Size - 1) 0%Z)
    moved.
Proof using All.
  intros Hp.
  pose proof (stored_below_slots c l unused Hsized Hjoin Hnonzero) as Hbelow.
  assert (Hthat : S that < length c) by nia.
  assert (Htake : sized (take (S that) c)) by now apply Forall_take.
  assert (Hjoin' : mjoin (take (S that) c) = l).
  { rewrite take_join by exact Hsized. rewrite Hjoin.
    apply take_app_length'. lia. }
  split; [| split; [| split]].
  - split.
    + intros Hnil. apply (f_equal length) in Hnil.
      rewrite !set_Item_length, length_take_le in Hnil by lia.
      cbn in Hnil. lia.
    + now do 2 apply set_Item_sized.
  - exists [].
    rewrite set_Item_join by (try apply set_Item_sized; (assumption || lia)).
    rewrite set_Item_join by (assumption || lia).
    rewrite Hfound, Hjoin'.
    replace (that * Size + (Size - 1)) with (length (<[found := z]> l) - 1)
      by (rewrite length_insert; lia).
    rewrite insert_last by (rewrite length_insert; lia).
    rewrite length_insert. reflexivity.
  - exact moved_nonzero.
  - rewrite moved_length, !set_Item_length, length_take_le by lia. nia.
Qed.

Lemma Erase_move_holds (n fuel that i : nat) :
  i < Size -> that * Size + i + n = length l -> (n = 0 -> 0 < i) -> n < fuel ->
  exists c', Erase_move Size fuel c foundThat foundI that i = Some c' /\
             holds Size c' moved.
Proof using All.
  revert fuel that i.
  induction n as [| n IH]; intros fuel that i Hi Hp Hi0 Hfuel;
    (destruct fuel as [| fuel]; [lia |]); cbn [Erase_move];
    rewrite (Item_join c that i) by assumption.
  - replace (that * Size + i) with (length l) by lia.
    rewrite (slot_terminator c l unused Hsized Hjoin Hnonzero). cbn [mbind option_bind].
    rewrite Z.eqb_refl.
    destruct i as [| j]; [lia |].
    rewrite (Item_join c that j) by (assumption || lia).
    replace (that * Size + j) with (length l - 1) by lia.
    rewrite (slot_stored c l unused Hsized Hjoin Hnonzero _ _ Hz). cbn [mbind option_bind].
    eexists. split; [reflexivity |]. apply moved_in_place; lia.
  - destruct (lookup_lt_is_Some_2 l (that * Size + i)) as [x Hx]; [lia |].
    rewrite (slot_stored c l unused Hsized Hjoin Hnonzero _ _ Hx). cbn [mbind option_bind].
    pose proof (Forall_lookup_1 _ _ _ _ Hnonzero Hx) as Hx0. cbn beta in Hx0.
    destruct (Z.eqb_spec x 0%Z) as [| _]; [contradiction |].
    destruct (Nat.eqb_spec (S i) Size) as [HS | HS].
    + rewrite (Item_join c (S that) 0) by (assumption || lia).
      destruct n as [| n].
      * replace (S that * Size + 0) with (length l) by lia.
        rewrite (slot_terminator c l unused Hsized Hjoin Hnonzero). cbn [mbind option_bind].
        rewrite Z.eqb_refl. cbv zeta.
        pose proof (stored_below_slots c l unused Hsized Hjoin Hnonzero) as Hbelow.
        rewrite (Item_join (take (S that) c) that (Size - 1))
          by (try apply Forall_take; (assumption || lia)).
        rewrite take_join by exact Hsized. rewrite Hjoin.
        rewrite take_app_length' by lia.
        replace (that * Size + (Size - 1)) with (length l - 1) by lia.
        rewrite Hz. cbn [mbind option_bind].
        eexists. split; [reflexivity |]. apply moved_released. lia.
      * destruct (lookup_lt_is_Some_2 l (S that * Size + 0)) as [y Hy]; [lia |].
        rewrite (slot_stored c l unused Hsized Hjoin Hnonzero _ _ Hy). cbn [mbind option_bind].
        pose proof (Forall_lookup_1 _ _ _ _ Hnonzero Hy) as Hy0. cbn beta in Hy0.
        destruct (Z.eqb_spec y 0%Z) as [| _]; [contradiction |].
        apply IH; lia.
    + apply IH; lia.
Qed.

End moving.

(** ** The operations on a chain that holds [l] *)

Lemma holds_new : holds Size (new Size poison) [].
Proof using All.
  unfold new. split; [| split; [| split]].
  - split; [discriminate |]. repeat constructor. apply Clear_length.
  - exists (replicate (Size - 1) poison).
    unfold Clear. rewrite join_cons. cbn. now rewrite app_nil_r.
  - constructor.
  - cbn. lia.
Qed.

Lemma Iterate_holds (c : Chain) (l : list Z) :
  holds Size c l -> Iterate Size c = Some l.
Proof using All.
  intros ((_ & Hsized) & (unused & Hjoin) & Hnonzero & _).
  pose proof (stored_below_slots c l unused Hsized Hjoin Hnonzero) as Hbelow.
  unfold Iterate, slots.
  rewrite (Iterate_loop_holds c l unused Hsized Hjoin Hnonzero (length l)) by lia.
  reflexivity.
Qed.

Lemma Find_holds (Enumerator : Z -> bool) (c : Chain) (l : list Z) :
  holds Size c l -> Find Size Enumerator c = Some (existsb Enumerator l).
Proof using All.
  intros ((_ & Hsized) & (unused & Hjoin) & Hnonzero & _).
  pose proof (stored_below_slots c l unused Hsized Hjoin Hnonzero) as Hbelow.
  unfold Find, slots.
  rewrite (Find_loop_holds c l unused Hsized Hjoin Hnonzero _ (length l)) by lia.
  reflexivity.
Qed.

Lemma existsb_is_item (v : Z) (l : list Z) :
  existsb (is_item v) l = true <-> v ∈ l.
Proof using All.
  rewrite existsb_exists, list_elem_of_In. unfold is_item. split.
  - intros (x & Hin & Hx). apply Z.eqb_eq in Hx. now subst x.
  - intros Hin. exists v. split; [exact Hin | apply Z.eqb_refl].
Qed.

Lemma Find_is_item (v : Z) (c : Chain) (l : list Z) (b : bool) :
  holds Size c l -> Find Size (is_item v) c = Some b -> (b = true <-> v ∈ l).
Proof using All.
  intros Hc HF. rewrite (Find_holds _ c l Hc) in HF. injection HF as <-.
  apply existsb_is_item.
Qed.

(** The [for] loop of [Append] stops at the first slot that holds [0]. *)
Lemma Append_for_first (Items : list Z) (k n i : nat) :
  (forall j, i <= j < k -> exists x, Items !! j = Some x /\ x <> 0%Z) ->
  Items !! k = Some 0%Z -> i <= k -> k < i + n ->
  Append_for n Items i = k.
Proof using All.
  revert i. induction n as [| n IH]; intros i Hbefore Hk Hik Hn; [lia |].
  cbn [Append_for]. destruct (decide (i = k)) as [-> | Hne].
  - now rewrite Hk.
  - destruct (Hbefore i) as (x & Hx & Hx0); [lia |]. rewrite Hx.
    assert (Hrec : Append_for n Items (S i) = k).
    { apply IH; [| assumption | lia | lia]. intros j Hj. apply Hbefore. lia. }
    destruct x; [contradiction | exact Hrec | exact Hrec].
Qed.

Lemma Append_holds (v : Z) (c : Chain) (l : list Z) :
  v <> 0%Z -> holds Size c l -> holds Size (Append Size poison v c) (l ++ [v]).
Proof using All.
  intros Hv ((Hne & Hsized) & (unused & Hjoin) & Hnonzero & Hlast).
  pose proof (stored_below_slots c l unused Hsized Hjoin Hnonzero) as Hbelow.
  pose proof (sized_length_join c Hsized) as Hslots.
  rewrite Hjoin, length_app in Hslots. cbn [length] in Hslots.
  set (that := length c - 1) in *.
  assert (Hc : length c = S that).
  { subst that. destruct c; [congruence | cbn [length]; lia]. }
  assert (Hthat : that * Size <= length l < that * Size + Size) by nia.
  set (k := length l - that * Size).
  assert (Hk : k < Size /\ that * Size + k = length l) by (subst k; lia).
  destruct (lookup_lt_is_Some_2 c that) as [Items HItems]; [lia |].
  assert (Hslot : forall j, j < Size -> Items !! j = mjoin c !! (that * Size + j)).
  { intros j Hj. rewrite <- Item_join by assumption.
    unfold Item. now rewrite HItems. }
  assert (Hfor : Append_for Size Items 0 = k).
  { apply Append_for_first; [| | lia | lia].
    - intros j Hj.
      destruct (lookup_lt_is_Some_2 l (that * Size + j)) as [x Hx]; [lia |].
      exists x. split.
      + rewrite Hslot by lia.
        exact (slot_stored c l unused Hsized Hjoin Hnonzero _ _ Hx).
      + exact (Forall_lookup_1 _ _ _ _ Hnonzero Hx).
    - rewrite Hslot by lia. replace (that * Size + k) with (length l) by lia.
      exact (slot_terminator c l unused Hsized Hjoin Hnonzero). }
  unfold Append. cbv zeta. fold that. rewrite HItems.
  change (default [] (Some Items)) with Items. rewrite Hfor.
  destruct (Nat.ltb_spec k Size) as [_ | ?]; [| lia].
  assert (Hsized1 : sized (set_Item c that k v)) by now apply set_Item_sized.
  assert (Hjoin1 : mjoin (set_Item c that k v) = l ++ v :: unused).
  { rewrite set_Item_join, Hjoin by (assumption || lia).
    rewrite insert_app_r_alt by lia.
    replace (that * Size + k - length l) with 0 by lia. reflexivity. }
  destruct (Nat.ltb_spec k (Size - 1)) as [Hlt | Hge].
  - destruct unused as [| u unused]; [cbn [length] in Hslots; nia |].
    split; [| split; [| split]].
    + split; [| now apply set_Item_sized].
      intros Hnil. apply (f_equal length) in Hnil.
      rewrite !set_Item_length in Hnil. cbn in Hnil. lia.
    + exists unused.
      rewrite set_Item_join, Hjoin1 by (assumption || lia).
      rewrite insert_app_r_alt by lia.
      replace (that * Size + S k - length l) with 1 by lia.
      rewrite <- app_assoc. reflexivity.
    + apply Forall_app_2; [assumption | now repeat constructor].
    + rewrite length_app, !set_Item_length. cbn [length]. fold that. nia.
  - destruct unused as [| u unused]; [| cbn [length] in Hslots; nia].
    split; [| split; [| split]].
    + split; [intros Hnil; now apply app_eq_nil in Hnil |].
      apply Forall_app_2; [assumption |].
      repeat constructor. apply Clear_length.
    + exists (replicate (Size - 1) poison).
      rewrite join_app, Hjoin1. unfold Clear. rewrite join_cons.
      cbn. rewrite app_nil_r, <- app_assoc. reflexivity.
    + apply Forall_app_2; [assumption | now repeat constructor].
    + rewrite !length_app, set_Item_length. cbn [length]. nia.
Qed.

(** The items left when the last item takes the place of [v]. *)
Lemma moved_Permutation (l1 l2 : list Z) (v z : Z) :
  (l1 ++ v :: l2) !! (length (l1 ++ v :: l2) - 1) = Some z ->
  l1 ++ v :: l2
  ≡ₚ v :: take (length (l1 ++ v :: l2) - 1) (<[length l1 := z]> (l1 ++ v :: l2)).
Proof using All.
  intros Hz. rewrite insert_app_r_alt by lia.
  replace (length l1 - length l1) with 0 by lia. cbn [insert list_insert].
  rewrite length_app in *. cbn [length] in *.
  rewrite take_app_ge by lia.
  replace (length l1 + S (length l2) - 1 - length l1) with (length l2) by lia.
  rewrite <- Permutation_middle. constructor. apply Permutation_app_head.
  destruct l2 as [| y l2 _] using rev_ind.
  - reflexivity.
  - rewrite lookup_app_r in Hz by lia.
    replace (length l1 + S (length (l2 ++ [y])) - 1 - length l1)
      with (S (length l2)) in Hz by (rewrite length_app; cbn; lia).
    change ((v :: l2 ++ [y]) !! S (length l2)) with ((l2 ++ [y]) !! length l2) in Hz.
    rewrite list_lookup_middle in Hz by reflexivity. injection Hz as <-.
    rewrite length_app. cbn [length take].
    replace (length l2 + 1) with (S (length l2)) by lia. cbn [take].
    rewrite take_app_length.
    rewrite <- Permutation_cons_append. reflexivity.
Qed.

Lemma Erase_holds (v : Z) (c : Chain) (l : list Z) :
  holds Size c l -> v ∈ l ->
  exists c' l', Erase Size v c = Some c' /\ holds Size c' l' /\ l ≡ₚ v :: l'.
Proof using All.
  intros Hc Hin.
  destruct (list_elem_of_split_l l v Hin) as (l1 & l2 & Hl & Hnotin).
  destruct Hc as ((Hne & Hsized) & (unused & Hjoin) & Hnonzero & Hlast).
  pose proof (stored_below_slots c l unused Hsized Hjoin Hnonzero) as Hbelow.
  assert (Hlen : length l = length l1 + S (length l2)).
  { rewrite Hl, length_app. reflexivity. }
  destruct (Erase_find_holds c l unused Hsized Hjoin Hnonzero v l1 l2
              (length l1) (slots Size c) 0 0 Hl Hnotin)
    as (that & i & Hfind & Hi & Hp); [lia | lia | unfold slots; lia |].
  destruct (lookup_lt_is_Some_2 l (length l - 1)) as [z Hz]; [lia |].
  destruct (Erase_move_holds c l unused Hsized Hjoin Hnonzero Hlast
              that i (length l1) z Hi Hp ltac:(lia) Hz
              (S (length l2)) (slots Size c) that i)
    as (c' & Hmove & Hc'); [lia | lia | lia | unfold slots; lia |].
  exists c', (take (length l - 1) (<[length l1 := z]> l)).
  split; [| split].
  - unfold Erase. rewrite Hfind. cbn [mbind option_bind]. exact Hmove.
  - exact Hc'.
  - subst l. now apply moved_Permutation.
Qed.

(** ** Chains built by appends and erases *)

Lemma built_holds (c : Chain) :
  built Size poison c -> exists l, holds Size c l /\ NoDup l.
Proof using All.
  induction 1 as [| c v _ (l & Hc & Hnd) Hv Hfind
                  | c v c' _ (l & Hc & Hnd) Hfind Herase].
  - exists []. split; [apply holds_new | constructor].
  - exists (l ++ [v]). split; [now apply Append_holds |].
    apply NoDup_app. split; [exact Hnd |]. split; [| apply NoDup_singleton].
    intros x Hx Hxv. apply list_elem_of_singleton in Hxv. subst x.
    apply (Find_is_item v c l false Hc Hfind) in Hx. discriminate Hx.
  - assert (Hin : v ∈ l) by now apply (Find_is_item v c l true Hc Hfind).
    destruct (Erase_holds v c l Hc Hin) as (c'' & l' & Herase' & Hc' & Hperm).
    rewrite Herase in Herase'. injection Herase' as <-.
    exists l'. split; [exact Hc' |].
    rewrite Hperm in Hnd. now apply NoDup_cons in Hnd.
Qed.

(** C9.  For a chain built by appends and erases of distinct ids that are
    not zero: after [Append] of an id that is not zero and not stored, [Find]
    finds it, and the items are those of before with the id; when an id is
    stored, [Erase] of it succeeds, [Find] no longer finds it, and the items
    are those of before without the id; so [Append] followed by [Erase] of
    the same id leaves the multiset of the items as it was. *)
Theorem Append_Erase_Find (c : Chain) (v : Z) :
  built Size poison c ->
  (v <> 0%Z -> Find Size (is_item v) c = Some false ->
   Find Size (is_item v) (Append Size poison v c) = Some true /\
   exists l l1 c' l',
     Iterate Size c = Some l /\
     Iterate Size (Append Size poison v c) = Some l1 /\ l1 ≡ₚ v :: l /\
     Erase Size v (Append Size poison v c) = Some c' /\
     Find Size (is_item v) c' = Some false /\
     Iterate Size c' = Some l' /\ l' ≡ₚ l) /\
  (Find Size (is_item v) c = Some true ->
   exists l c' l',
     Iterate Size c = Some l /\
     Erase Size v c = Some c' /\
     Find Size (is_item v) c' = Some false /\
     Iterate Size c' = Some l' /\ l ≡ₚ v :: l').
Proof using All.
  intros Hbuilt.
  assert (Herased : forall c0 l0,
            holds Size c0 l0 -> NoDup l0 -> v ∈ l0 ->
            exists c' l',
              Erase Size v c0 = Some c' /\
              Find Size (is_item v) c' = Some false /\
              Iterate Size c' = Some l' /\ l0 ≡ₚ v :: l').
  { intros c0 l0 Hc0 Hnd0 Hin0.
    destruct (Erase_holds v c0 l0 Hc0 Hin0) as (c' & l' & Herase & Hc' & Hperm).
    exists c', l'. split; [exact Herase |]. split; [| split].
    - rewrite (Find_holds _ c' l' Hc').
      destruct (existsb (is_item v) l') eqn:Hex; [| reflexivity].
      apply existsb_is_item in Hex. rewrite Hperm in Hnd0.
      apply NoDup_cons in Hnd0. tauto.
    - now apply Iterate_holds.
    - exact Hperm. }
  destruct (built_holds c Hbuilt) as (l & Hc & Hnd).
  split.
  - intros Hv Hfind.
    assert (Hnotin : v ∉ l).
    { intros Hin. apply (Find_is_item v c l false Hc Hfind) in Hin.
      discriminate Hin. }
    pose proof (Append_holds v c l Hv Hc) as Hc1.
    assert (Hin1 : v ∈ l ++ [v]).
    { apply elem_of_app. right. now apply list_elem_of_singleton. }
    assert (Hnd1 : NoDup (l ++ [v])).
    { apply NoDup_app. split; [exact Hnd |]. split; [| apply NoDup_singleton].
      intros x Hx Hxv. apply list_elem_of_singleton in Hxv. now subst x. }
    split.
    + rewrite (Find_holds _ _ _ Hc1).
      f_equal. now apply existsb_is_item.
    + destruct (Herased _ _ Hc1 Hnd1 Hin1) as (c' & l' & He & Hf & Hi & Hp).
      exists l, (l ++ [v]), c', l'.
      split; [now apply Iterate_holds |].
      split; [now apply Iterate_holds |].
      split; [now rewrite <- Permutation_cons_append |].
      split; [exact He |]. split; [exact Hf |]. split; [exact Hi |].
      rewrite <- Permutation_cons_append in Hp.
      symmetry. now apply Permutation_cons_inv in Hp.
  - intros Hfind.
    assert (Hin : v ∈ l) by now apply (Find_is_item v c l true Hc Hfind).
    destruct (Herased _ _ Hc Hnd Hin) as (c' & l' & He & Hf & Hi & Hp).
    exists l, c', l'. split; [now apply Iterate_holds |]. tauto.
Qed.

End BucketList_spec.

(** Buckets of 4 slots: the ids 1 to 5 are appended, which fills the head
    and opens a second bucket; then 6 is appended and erased, and 2 is
    erased. *)
Lemma Append_Erase_Find_witness :
  let p := 0xDEADBEEF%Z in
  let c := [[1; 2; 3; 4]; [5; 0; p; p]]%Z in
  (Find 4 (is_item 6) (Append 4 p 6 c) = Some true /\
   exists l l1 c' l',
     Iterate 4 c = Some l /\
     Iterate 4 (Append 4 p 6 c) = Some l1 /\ l1 ≡ₚ 6%Z :: l /\
     Erase 4 6 (Append 4 p 6 c) = Some c' /\
     Find 4 (is_item 6) c' = Some false /\
     Iterate 4 c' = Some l' /\ l' ≡ₚ l) /\
  (exists l c' l',
     Iterate 4 c = Some l /\
     Erase 4 2 c = Some c' /\
     Find 4 (is_item 2) c' = Some false /\
     Iterate 4 c' = Some l' /\ l ≡ₚ 2%Z :: l').
Proof.
  intros p c.
  assert (Hbuilt : built 4 p c).
  { change c with
      (Append 4 p 5 (Append 4 p 4 (Append 4 p 3 (Append 4 p 2
         (Append 4 p 1 (new 4 p)))))).
    repeat (apply built_Append; [| discriminate | reflexivity]).
    apply built_new. }
  split.
  - apply (proj1 (Append_Erase_Find 4 p ltac:(lia) c 6 Hbuilt));
      [discriminate | reflexivity].
  - apply (proj2 (Append_Erase_Find 4 p ltac:(lia) c 2 Hbuilt)). reflexivity.
Defined.

(** * Further properties of the bucket list *)

Section BucketList_order.

Context (Size : nat) (poison : Z) (HSize : (0 < Size)%nat).

Local Open Scope nat_scope.

Local Abbreviation sized := (Forall (fun Items : list Z => length Items = Size)).
Local Abbreviation tidy := (Forall (fun x : Z => x = 0%Z \/ x = poison)).

(** ** The slots after [Append] *)

(** [Append] of any value, zero or not, writes it over the terminator and
    writes a new terminator after it, in the next slot or in a new
    bucket. *)
Lemma Append_slots (v : Z) (c : Chain) (l unused : list Z) :
  holds Size c l -> mjoin c = l ++ 0%Z :: unused ->
  sized (Append Size poison v c) /\
  mjoin (Append Size poison v c)
  = l ++ v :: 0%Z :: match unused with
                     | [] => replicate (Size - 1) poison
                     | _ :: unused => unused
                     end.
Proof using All.
  intros ((Hne & Hsized) & _ & Hnonzero & Hlast) Hjoin.
  pose proof (stored_below_slots Size poison HSize c l unused Hsized Hjoin Hnonzero)
    as Hbelow.
  pose proof (sized_length_join Size poison HSize c Hsized) as Hslots.
  rewrite Hjoin, length_app in Hslots. cbn [length] in Hslots.
  set (that := length c - 1) in *.
  assert (Hc : length c = S that).
  { subst that. destruct c; [congruence | cbn [length]; lia]. }
  assert (Hthat : that * Size <= length l < that * Size + Size) by nia.
  set (k := length l - that * Size).
  assert (Hk : k < Size /\ that * Size + k = length l) by (subst k; lia).
  destruct (lookup_lt_is_Some_2 c that) as [Items HItems]; [lia |].
  assert (Hslot : forall j, j < Size -> Items !! j = mjoin c !! (that * Size + j)).
  { intros j Hj. rewrite <- (Item_join Size poison HSize) by assumption.
    unfold Item. now rewrite HItems. }
  assert (Hfor : Append_for Size Items 0 = k).
  { apply (Append_for_first Size poison HSize); [| | lia | lia].
    - intros j Hj.
      destruct (lookup_lt_is_Some_2 l (that * Size + j)) as [x Hx]; [lia |].
      exists x. split.
      + rewrite Hslot by lia.
        exact (slot_stored Size poison HSize c l unused Hsized Hjoin Hnonzero _ _ Hx).
      + exact (Forall_lookup_1 _ _ _ _ Hnonzero Hx).
    - rewrite Hslot by lia. replace (that * Size + k) with (length l) by lia.
      exact (slot_terminator Size poison HSize c l unused Hsized Hjoin Hnonzero). }
  unfold Append. cbv zeta. fold that. rewrite HItems.
  change (default [] (Some Items)) with Items. rewrite Hfor.
  destruct (Nat.ltb_spec k Size) as [_ | ?]; [| lia].
  assert (Hsized1 : sized (set_Item c that k v))
    by now apply (set_Item_sized Size poison HSize).
  assert (Hjoin1 : mjoin (set_Item c that k v) = l ++ v :: unused).
  { rewrite (set_Item_join Size poison HSize), Hjoin by (assumption || lia).
    rewrite insert_app_r_alt by lia.
    replace (that * Size + k - length l) with 0 by lia. reflexivity. }
  destruct (Nat.ltb_spec k (Size - 1)) as [Hlt | Hge].
  - destruct unused as [| u unused]; [cbn [length] in Hslots; nia |].
    split; [now apply (set_Item_sized Size poison HSize) |].
    rewrite (set_Item_join Size poison HSize), Hjoin1 by (assumption || lia).
    rewrite insert_app_r_alt by lia.
    replace (that * Size + S k - length l) with 1 by lia. reflexivity.
  - destruct unused as [| u unused]; [| cbn [length] in Hslots; nia].
    split.
    + apply Forall_app_2; [assumption |].
      repeat constructor. apply (Clear_length Size poison HSize).
    + rewrite join_app, Hjoin1. unfold Clear.
      rewrite (join_cons Size poison HSize). cbn.
      rewrite app_nil_r, <- app_assoc. reflexivity.
Qed.

(** ** The shape of what [Erase] returns *)

(** Whatever the second loop returns is the chain, or the chain without the
    buckets after one of them, with two slots written: the slot found, and
    a slot that receives the terminator. *)
Lemma Erase_move_written (fuel : nat) (c c' : Chain) (foundThat foundI that i : nat) :
  i < Size ->
  Erase_move Size fuel c foundThat foundI that i = Some c' ->
  exists (z : Z) (t j : nat) (c0 : Chain),
    j < Size /\ (c0 = c \/ c0 = take (S t) c) /\
    c' = set_Item (set_Item c0 foundThat foundI z) t j 0%Z.
Proof using All.
  revert that i. induction fuel as [| fuel IH]; intros that i Hi Hmove;
    [discriminate |].
  cbn [Erase_move] in Hmove.
  destruct (Item c that i) as [x |]; [| discriminate].
  cbn [mbind option_bind] in Hmove.
  destruct (x =? 0)%Z.
  - destruct i as [| j]; [discriminate |].
    destruct (Item c that j) as [z |]; [| discriminate].
    cbn [mbind option_bind] in Hmove. injection Hmove as <-.
    exists z, that, j, c. split; [lia |]. split; [now left | reflexivity].
  - destruct (Nat.eqb_spec (S i) Size) as [HS | HS].
    + destruct (Item c (S that) 0) as [y |]; [| discriminate].
      cbn [mbind option_bind] in Hmove.
      destruct (y =? 0)%Z.
      * cbv zeta in Hmove.
        destruct (Item (take (S that) c) that (Size - 1)) as [z |]; [| discriminate].
        cbn [mbind option_bind] in Hmove. injection Hmove as <-.
        exists z, that, (Size - 1), (take (S that) c).
        split; [lia |]. split; [now right | reflexivity].
      * apply (IH (S that) 0); [lia | exact Hmove].
    + apply (IH that (S i)); [lia | exact Hmove].
Qed.

(** ** The slots of a built chain *)

(** After the terminator, a built chain holds only zeros and the poison of
    [Clear]: no erased id is left in a slot. *)
Lemma built_slots (c : Chain) :
  built Size poison c ->
  exists l unused,
    holds Size c l /\ NoDup l /\ mjoin c = l ++ 0%Z :: unused /\ tidy unused.
Proof using All.
  induction 1 as [| c v _ (l & unused & Hc & Hnd & Hjoin & Htidy) Hv Hfind
                  | c v c' _ (l & unused & Hc & Hnd & Hjoin & Htidy) Hfind Herase].
  - exists [], (replicate (Size - 1) poison).
    split; [apply (holds_new Size poison HSize) |]. split; [constructor |].
    split.
    + unfold new, Clear. rewrite (join_cons Size poison HSize). cbn.
      now rewrite app_nil_r.
    + apply Forall_replicate. now right.
  - destruct (Append_slots v c l unused Hc Hjoin) as [_ Hjoin'].
    eexists (l ++ [v]), _.
    split; [now apply (Append_holds Size poison HSize) |]. split; [| split].
    + apply NoDup_app. split; [exact Hnd |]. split; [| apply NoDup_singleton].
      intros x Hx Hxv. apply list_elem_of_singleton in Hxv. subst x.
      apply (Find_is_item Size poison HSize v c l false Hc Hfind) in Hx.
      discriminate Hx.
    + rewrite Hjoin', <- app_assoc. reflexivity.
    + destruct unused as [| u unused].
      * apply Forall_replicate. now right.
      * now apply Forall_cons in Htidy.
  - assert (Hin : v ∈ l)
      by now apply (Find_is_item Size poison HSize v c l true Hc Hfind).
    destruct (Erase_holds Size poison HSize v c l Hc Hin)
      as (c'' & l' & Herase' & Hc' & Hperm).
    rewrite Herase in Herase'. injection Herase' as <-.
    destruct Hc' as (Hshape' & (unused' & Hjoin') & Hrest').
    exists l', unused'.
    split; [exact (conj Hshape' (conj (ex_intro _ unused' Hjoin') Hrest')) |].
    split; [rewrite Hperm in Hnd; now apply NoDup_cons in Hnd |].
    split; [exact Hjoin' |].
    (* where the two writes of [Erase] fall *)
    destruct Hc as ((Hne & Hsized) & _ & Hnonzero & Hlast).
    destruct (list_elem_of_split_l l v Hin) as (l1 & l2 & Hl & Hnotin).
    assert (Hlen : length l = length l1 + S (length l2)).
    { rewrite Hl, length_app. reflexivity. }
    assert (Hlen' : length l = S (length l')).
    { apply Permutation_length in Hperm. exact Hperm. }
    pose proof (stored_below_slots Size poison HSize c l unused Hsized Hjoin
                  Hnonzero) as Hbelow.
    destruct (Erase_find_holds Size poison HSize c l unused Hsized Hjoin Hnonzero
                v l1 l2 (length l1) (slots Size c) 0 0 Hl Hnotin)
      as (that & i & Hfind' & Hi & Hp); [lia | lia | unfold slots; lia |].
    unfold Erase in Herase. rewrite Hfind' in Herase.
    cbn [mbind option_bind] in Herase.
    destruct (Erase_move_written _ _ _ _ _ _ _ Hi Herase)
      as (z & t & j & c0 & Hj & Hc0 & Hc').
    assert (Hsized0 : sized c0).
    { destruct Hc0 as [-> | ->]; [assumption | now apply Forall_take]. }
    assert (Hjoin0 : forall q x, mjoin c0 !! q = Some x -> mjoin c !! q = Some x).
    { intros q x Hq. destruct Hc0 as [-> | ->]; [exact Hq |].
      rewrite (take_join Size poison HSize) in Hq by exact Hsized.
      apply lookup_take_Some in Hq. tauto. }
    apply Forall_lookup. intros q x Hq.
    assert (Hq' : mjoin c' !! (length l + q) = Some x).
    { rewrite Hjoin', Hlen'. rewrite lookup_app_r by lia.
      replace (S (length l') + q - length l') with (S q) by lia. exact Hq. }
    rewrite Hc' in Hq'.
    rewrite (set_Item_join Size poison HSize) in Hq'
      by (try apply (set_Item_sized Size poison HSize); (assumption || lia)).
    rewrite (set_Item_join Size poison HSize) in Hq' by (assumption || lia).
    rewrite list_lookup_insert in Hq'. case_decide as Hcase.
    { injection Hq' as <-. now left. }
    rewrite list_lookup_insert in Hq'. case_decide as Hcase'; [lia |].
    apply Hjoin0 in Hq'. rewrite Hjoin in Hq'.
    rewrite lookup_app_r in Hq' by lia.
    replace (length l + q - length l) with q in Hq' by lia.
    destruct q as [| q]; [injection Hq' as <-; now left |].
    exact (Forall_lookup_1 _ _ _ _ Htidy Hq').
Qed.

(** ** Iteration, search and order *)

(** X1.  On a built chain [Iterate] visits a list of items, and [Find]
    answers, for any predicate, whether one of these items satisfies it. *)
Theorem Find_as_Iterate (c : Chain) :
  built Size poison c ->
  exists l, Iterate Size c = Some l /\
            forall Enumerator, Find Size Enumerator c = Some (existsb Enumerator l).
Proof using All.
  intros Hbuilt.
  destruct (built_holds Size poison HSize c Hbuilt) as (l & Hc & _).
  exists l. split; [now apply (Iterate_holds Size poison HSize) |].
  intros Enumerator. now apply (Find_holds Size poison HSize).
Qed.

(** X2.  [Append] of an id that is not zero puts it at the end of the order
    in which [Iterate] visits the items; the items already stored keep their
    places. *)
Theorem Append_at_end (c : Chain) (v : Z) (l : list Z) :
  built Size poison c -> v <> 0%Z ->
  Iterate Size c = Some l ->
  Iterate Size (Append Size poison v c) = Some (l ++ [v]).
Proof using All.
  intros Hbuilt Hv Hl.
  destruct (built_holds Size poison HSize c Hbuilt) as (l0 & Hc & _).
  rewrite (Iterate_holds Size poison HSize c l0 Hc) in Hl. injection Hl as <-.
  apply (Iterate_holds Size poison HSize).
  now apply (Append_holds Size poison HSize).
Qed.

Lemma moved_exact (l1 l2 : list Z) (v z : Z) :
  take (length (l1 ++ v :: l2) - 1) (<[length l1 := z]> (l1 ++ v :: l2))
  = l1 ++ take (length l2) (z :: l2).
Proof using All.
  rewrite insert_app_r_alt by lia.
  replace (length l1 - length l1) with 0 by lia. cbn [insert list_insert].
  rewrite length_app. cbn [length].
  rewrite take_app_ge by lia. f_equal. f_equal. lia.
Qed.

(** X3.  [Erase] of a stored id moves the item visited last into the place
    of the erased one: the items before that place and between it and the
    last keep their order, and when the erased id is itself the last, the
    others are untouched. *)
Theorem Erase_moves_last (c : Chain) (v : Z) (l1 l2 : list Z) :
  built Size poison c ->
  Iterate Size c = Some (l1 ++ v :: l2) ->
  exists c', Erase Size v c = Some c' /\
             (l2 = [] -> Iterate Size c' = Some l1) /\
             (forall l2' z, l2 = l2' ++ [z] ->
                Iterate Size c' = Some (l1 ++ z :: l2')).
Proof using All.
  intros Hbuilt Hl.
  destruct (built_holds Size poison HSize c Hbuilt) as (l & Hc & Hnd).
  rewrite (Iterate_holds Size poison HSize c l Hc) in Hl. injection Hl as Hl.
  assert (Hnotin : v ∉ l1).
  { rewrite Hl in Hnd. apply NoDup_app in Hnd as (_ & Hdisj & _).
    intros Hin. apply (Hdisj v Hin). now left. }
  destruct Hc as ((Hne & Hsized) & (unused & Hjoin) & Hnonzero & Hlast).
  pose proof (stored_below_slots Size poison HSize c l unused Hsized Hjoin Hnonzero)
    as Hbelow.
  assert (Hlen : length l = length l1 + S (length l2)).
  { rewrite Hl, length_app. reflexivity. }
  destruct (Erase_find_holds Size poison HSize c l unused Hsized Hjoin Hnonzero
              v l1 l2 (length l1) (slots Size c) 0 0 Hl Hnotin)
    as (that & i & Hfind & Hi & Hp); [lia | lia | unfold slots; lia |].
  destruct (lookup_lt_is_Some_2 l (length l - 1)) as [z Hz]; [lia |].
  destruct (Erase_move_holds Size poison HSize c l unused Hsized Hjoin Hnonzero
              Hlast that i (length l1) z Hi Hp ltac:(lia) Hz
              (S (length l2)) (slots Size c) that i)
    as (c' & Hmove & Hc'); [lia | lia | lia | unfold slots; lia |].
  apply (Iterate_holds Size poison HSize) in Hc'.
  exists c'. split.
  { unfold Erase. rewrite Hfind. cbn [mbind option_bind]. exact Hmove. }
  rewrite Hc'. subst l. rewrite moved_exact. split.
  - intros ->. cbn [length take]. now rewrite app_nil_r.
  - intros l2' z' ->.
    assert (Hidx : length (l1 ++ v :: l2' ++ [z']) - 1 = length (l1 ++ v :: l2')).
    { rewrite !length_app. cbn [length]. rewrite length_app. cbn [length]. lia. }
    rewrite Hidx in Hz.
    replace (l1 ++ v :: l2' ++ [z']) with ((l1 ++ v :: l2') ++ [z']) in Hz
      by (rewrite <- app_assoc; reflexivity).
    rewrite list_lookup_middle in Hz by reflexivity. injection Hz as <-.
    rewrite length_app. cbn [length].
    replace (length l2' + 1) with (S (length l2')) by lia. cbn [take].
    now rewrite take_app_length.
Qed.

(** X4.  A built chain keeps its shape: every bucket has [Size] slots, the
    items are distinct and none is zero, and for [n] items the chain has
    [n / Size + 1] buckets, so that no overflow bucket exists while fewer
    than [Size] items are stored. *)
Theorem built_buckets (c : Chain) :
  built Size poison c ->
  exists l, Iterate Size c = Some l /\
            NoDup l /\ (0%Z ∉ l) /\
            Forall (fun Items => length Items = Size) c /\
            length c = length l / Size + 1.
Proof using All.
  intros Hbuilt.
  destruct (built_holds Size poison HSize c Hbuilt) as (l & Hc & Hnd).
  exists l. split; [now apply (Iterate_holds Size poison HSize) |].
  split; [exact Hnd |].
  destruct Hc as ((Hne & Hsized) & (unused & Hjoin) & Hnonzero & Hlast).
  pose proof (stored_below_slots Size poison HSize c l unused Hsized Hjoin Hnonzero)
    as Hbelow.
  split; [| split; [exact Hsized |]].
  - intros Hin. apply list_elem_of_lookup_1 in Hin as [i Hi].
    now apply (Forall_lookup_1 _ _ _ _ Hnonzero Hi).
  - assert (Hdiv : length l / Size = length c - 1).
    { symmetry. apply (Nat.div_unique _ _ _ (length l - Size * (length c - 1))); nia. }
    rewrite Hdiv. nia.
Qed.

(** ** Ids that are not stored *)

Lemma Item_in_join (c : Chain) (Bucket i : nat) (x : Z) :
  Item c Bucket i = Some x -> x ∈ mjoin c.
Proof using All.
  unfold Item. intros HItem.
  destruct (c !! Bucket) as [Items |] eqn:HItems; [| discriminate].
  cbn [mbind option_bind] in HItem.
  apply list_elem_of_join. exists Items. split.
  - eapply list_elem_of_lookup_2, HItem.
  - eapply list_elem_of_lookup_2, HItems.
Qed.

Lemma Erase_find_absent (Val : Z) (c : Chain) (fuel that i : nat) :
  Val ∉ mjoin c -> Erase_find Size fuel Val c that i = None.
Proof using All.
  intros Habsent. revert that i.
  induction fuel as [| fuel IH]; intros that i; [reflexivity |].
  cbn [Erase_find].
  destruct (Item c that i) as [x |] eqn:HItem; [| reflexivity].
  cbn [mbind option_bind].
  destruct (Z.eqb_spec x Val) as [-> | _].
  { exfalso. apply Habsent. eapply Item_in_join, HItem. }
  destruct (S i =? Size); [destruct (has_Next c that); [apply IH | reflexivity] |].
  apply IH.
Qed.

(** X5.  On a built chain, [Erase] of an id that is not stored (and is
    neither zero nor the poison of [Clear]) returns no chain: its first
    loop finds the id in no slot, however long it is let to run, and ends
    on the assertion at the last bucket. *)
Theorem Erase_absent (c : Chain) (v : Z) :
  built Size poison c -> v <> 0%Z -> v <> poison ->
  Find Size (is_item v) c = Some false ->
  Erase Size v c = None /\
  forall fuel, Erase_find Size fuel v c 0 0 = None.
Proof using All.
  intros Hbuilt Hv Hp Hfind.
  destruct (built_slots c Hbuilt) as (l & unused & Hc & _ & Hjoin & Htidy).
  assert (Habsent : v ∉ mjoin c).
  { rewrite Hjoin. intros Hin. apply elem_of_app in Hin as [Hin | Hin].
    - apply (Find_is_item Size poison HSize v c l false Hc Hfind) in Hin.
      discriminate Hin.
    - apply elem_of_cons in Hin as [-> | Hin]; [now apply Hv |].
      apply list_elem_of_lookup_1 in Hin as [i Hi].
      destruct (Forall_lookup_1 _ _ _ _ Htidy Hi); contradiction. }
  split.
  - unfold Erase. now rewrite Erase_find_absent.
  - intros fuel. now apply Erase_find_absent.
Qed.

(** X6.  [Append] of zero stores nothing: [Iterate] and [Find] see the
    built chain as it was. *)
Theorem Append_zero (c : Chain) :
  built Size poison c ->
  Iterate Size (Append Size poison 0 c) = Iterate Size c /\
  forall Enumerator,
    Find Size Enumerator (Append Size poison 0 c) = Find Size Enumerator c.
Proof using All.
  intros Hbuilt.
  destruct (built_slots c Hbuilt) as (l & unused & Hc & _ & Hjoin & _).
  destruct (Append_slots 0%Z c l unused Hc Hjoin) as [Hsized' Hjoin'].
  pose proof Hc as ((_ & Hsized) & _ & Hnonzero & _).
  pose proof (stored_below_slots Size poison HSize c l unused Hsized Hjoin Hnonzero)
    as Hbelow.
  assert (Hfuel : length l < S (Size * length (Append Size poison 0 c))).
  { pose proof (sized_length_join Size poison HSize _ Hsized') as H1.
    rewrite Hjoin', length_app in H1. cbn [length] in H1. lia. }
  split.
  - rewrite (Iterate_holds Size poison HSize c l Hc).
    unfold Iterate, slots.
    rewrite (Iterate_loop_holds Size poison HSize _ l _ Hsized' Hjoin' Hnonzero
               (length l)) by (assumption || lia).
    reflexivity.
  - intros Enumerator. rewrite (Find_holds Size poison HSize _ c l Hc).
    unfold Find, slots.
    rewrite (Find_loop_holds Size poison HSize _ l _ Hsized' Hjoin' Hnonzero
               Enumerator (length l)) by (assumption || lia).
    reflexivity.
Qed.

(** X7.  [Clear] empties a built chain, in a debug and in a release build:
    nothing is left to visit or to find, and the chain can be filled again
    from the start. *)
Theorem Clear_this_empties (c : Chain) (NDEBUG : bool) :
  built Size poison c ->
  Iterate Size (Clear_this Size poison NDEBUG c) = Some [] /\
  (forall Enumerator,
      Find Size Enumerator (Clear_this Size poison NDEBUG c) = Some false) /\
  (forall v, v <> 0%Z ->
      Iterate Size (Append Size poison v (Clear_this Size poison NDEBUG c))
      = Some [v]).
Proof using All.
  intros Hbuilt.
  destruct (built_holds Size poison HSize c Hbuilt)
    as (l & ((Hne & Hsized) & _) & _).
  assert (Hc : holds Size (Clear_this Size poison NDEBUG c) []).
  { destruct c as [| Items c]; [congruence |].
    apply Forall_cons in Hsized as [HItems _].
    unfold Clear_this. cbn [lookup list_lookup default from_option id].
    destruct Items as [| x Items]; [cbn in HItems; lia |].
    cbn [insert list_insert].
    split; [| split; [| split]].
    - split; [discriminate |]. repeat constructor.
      destruct NDEBUG; [exact HItems |].
      change (take 1 (0%Z :: Items)) with [0%Z].
      cbn [app length]. rewrite length_replicate. lia.
    - destruct NDEBUG.
      + exists Items. rewrite (join_cons Size poison HSize). cbn.
        now rewrite app_nil_r.
      + exists (replicate (Size - 1) poison).
        rewrite (join_cons Size poison HSize). cbn. now rewrite app_nil_r.
    - constructor.
    - cbn. lia. }
  split; [now apply (Iterate_holds Size poison HSize) |].
  split.
  - intros Enumerator. now rewrite (Find_holds Size poison HSize _ _ [] Hc).
  - intros v Hv. apply (Iterate_holds Size poison HSize).
    now apply (Append_holds Size poison HSize v _ [] Hv).
Qed.

End BucketList_order.

Lemma built_five :
  built 4 0xDEADBEEF [[1; 2; 3; 4]; [5; 0; 0xDEADBEEF; 0xDEADBEEF]]%Z.
Proof.
  change [[1; 2; 3; 4]; [5; 0; 0xDEADBEEF; 0xDEADBEEF]]%Z with
    (Append 4 0xDEADBEEF 5 (Append 4 0xDEADBEEF 4 (Append 4 0xDEADBEEF 3
       (Append 4 0xDEADBEEF 2 (Append 4 0xDEADBEEF 1 (new 4 0xDEADBEEF)))))).
  repeat (apply built_Append; [| discriminate | reflexivity]).
  apply built_new.
Qed.

Lemma Find_as_Iterate_witness :
  exists l,
    Iterate 4 [[1; 2; 3; 4]; [5; 0; 0xDEADBEEF; 0xDEADBEEF]]%Z = Some l /\
    forall Enumerator,
      Find 4 Enumerator [[1; 2; 3; 4]; [5; 0; 0xDEADBEEF; 0xDEADBEEF]]%Z
      = Some (existsb Enumerator l).
Proof.
  exact (Find_as_Iterate 4 0xDEADBEEF ltac:(lia) _ built_five).
Defined.

Lemma Append_at_end_witness :
  Iterate 4 (Append 4 0xDEADBEEF 6
               [[1; 2; 3; 4]; [5; 0; 0xDEADBEEF; 0xDEADBEEF]]%Z)
  = Some ([1; 2; 3; 4; 5] ++ [6])%Z.
Proof.
  apply (Append_at_end 4 0xDEADBEEF ltac:(lia) _ 6 _ built_five);
    [discriminate | reflexivity].
Defined.

Lemma Erase_moves_last_witness :
  exists c',
    Erase 4 2 [[1; 2; 3; 4]; [5; 0; 0xDEADBEEF; 0xDEADBEEF]]%Z = Some c' /\
    Iterate 4 c' = Some [1; 5; 3; 4]%Z.
Proof.
  destruct (Erase_moves_last 4 0xDEADBEEF ltac:(lia) _ 2 [1]%Z [3; 4; 5]%Z
              built_five eq_refl) as (c' & Herase & _ & Hlast).
  exists c'. split; [exact Herase |].
  exact (Hlast [3; 4]%Z 5%Z eq_refl).
Defined.

Lemma built_buckets_witness :
  exists l,
    Iterate 4 [[1; 2; 3; 4]; [5; 0; 0xDEADBEEF; 0xDEADBEEF]]%Z = Some l /\
    NoDup l /\ (0%Z ∉ l) /\
    Forall (fun Items => length Items = 4%nat)
      [[1; 2; 3; 4]; [5; 0; 0xDEADBEEF; 0xDEADBEEF]]%Z /\
    length [[1; 2; 3; 4]; [5; 0; 0xDEADBEEF; 0xDEADBEEF]]%Z
    = (length l / 4 + 1)%nat.
Proof.
  exact (built_buckets 4 0xDEADBEEF ltac:(lia) _ built_five).
Defined.

Lemma Erase_absent_witness :
  Erase 4 9 [[1; 2; 3; 4]; [5; 0; 0xDEADBEEF; 0xDEADBEEF]]%Z = None /\
  forall fuel,
    Erase_find 4 fuel 9 [[1; 2; 3; 4]; [5; 0; 0xDEADBEEF; 0xDEADBEEF]]%Z 0 0
    = None.
Proof.
  apply (Erase_absent 4 0xDEADBEEF ltac:(lia) _ 9 built_five);
    [discriminate | discriminate | reflexivity].
Defined.

Lemma Append_zero_witness :
  Iterate 4 (Append 4 0xDEADBEEF 0
               [[1; 2; 3; 4]; [5; 0; 0xDEADBEEF; 0xDEADBEEF]]%Z)
  = Iterate 4 [[1; 2; 3; 4]; [5; 0; 0xDEADBEEF; 0xDEADBEEF]]%Z /\
  forall Enumerator,
    Find 4 Enumerator (Append 4 0xDEADBEEF 0
                         [[1; 2; 3; 4]; [5; 0; 0xDEADBEEF; 0xDEADBEEF]]%Z)
    = Find 4 Enumerator [[1; 2; 3; 4]; [5; 0; 0xDEADBEEF; 0xDEADBEEF]]%Z.
Proof.
  exact (Append_zero 4 0xDEADBEEF ltac:(lia) _ built_five).
Defined.

Lemma Clear_this_empties_witness :
  Iterate 4 (Clear_this 4 0xDEADBEEF true
               [[1; 2; 3; 4]; [5; 0; 0xDEADBEEF; 0xDEADBEEF]]%Z) = Some [] /\
  (forall Enumerator,
      Find 4 Enumerator
        (Clear_this 4 0xDEADBEEF true
           [[1; 2; 3; 4]; [5; 0; 0xDEADBEEF; 0xDEADBEEF]]%Z) = Some false) /\
  (forall v, v <> 0%Z ->
      Iterate 4 (Append 4 0xDEADBEEF v
                   (Clear_this 4 0xDEADBEEF true
                      [[1; 2; 3; 4]; [5; 0; 0xDEADBEEF; 0xDEADBEEF]]%Z))
      = Some [v]).
Proof.
  exact (Clear_this_empties 4 0xDEADBEEF ltac:(lia) _ true built_five).
Defined.

(** * Further properties of the ALU handlers *)

(** ** Signed and unsigned readings *)

Lemma sext_range (w x : Z) : 0 < w -> - 2 ^ (w - 1) <= sext w x < 2 ^ (w - 1).
Proof.
  intros Hw. unfold sext.
  pose proof (wrap_range w x ltac:(lia)) as Hr.
  assert (H2 : 2 ^ w = 2 * 2 ^ (w - 1)).
  { rewrite <- Z.pow_succ_r by lia. f_equal. lia. }
  destruct (Z.ltb_spec (wrap w x) (2 ^ (w - 1))); lia.
Qed.

Lemma sext_small (w x : Z) :
  0 < w -> - 2 ^ (w - 1) <= x < 2 ^ (w - 1) -> sext w x = x.
Proof.
  intros Hw Hx. unfold sext, wrap.
  assert (H2 : 2 ^ w = 2 * 2 ^ (w - 1)).
  { rewrite <- Z.pow_succ_r by lia. f_equal. lia. }
  destruct (Z.neg_nonneg_cases x) as [Hneg | Hpos].
  - assert (Hm : x mod 2 ^ w = x + 2 ^ w).
    { rewrite <- (Z_mod_plus_full x 1 (2 ^ w)). rewrite Z.mod_small; lia. }
    rewrite Hm. destruct (Z.ltb_spec (x + 2 ^ w) (2 ^ (w - 1))); lia.
  - rewrite Z.mod_small by lia.
    destruct (Z.ltb_spec x (2 ^ (w - 1))); lia.
Qed.

Lemma sext_widen (w w' x : Z) : 0 < w <= w' -> sext w' (sext w x) = sext w x.
Proof.
  intros Hw. apply sext_small; [lia |].
  pose proof (sext_range w x ltac:(lia)) as Hr.
  assert (2 ^ (w - 1) <= 2 ^ (w' - 1)) by (apply Z.pow_le_mono_r; lia). lia.
Qed.

Lemma sext_narrow (w w' x : Z) : 0 < w <= w' -> sext w (wrap w' x) = sext w x.
Proof. intros Hw. apply sext_cong, wrap_narrow. lia. Qed.

Lemma sext_of_wrap (w x : Z) : sext w (wrap w x) = sext w x.
Proof. apply sext_cong, wrap_wrap. Qed.

Lemma wrap_mul_cong (w x y x' y' : Z) :
  wrap w x = wrap w x' -> wrap w y = wrap w y' -> wrap w (x * y) = wrap w (x' * y').
Proof.
  unfold wrap. intros Hx Hy.
  now rewrite (Zmult_mod x y), (Zmult_mod x' y'), Hx, Hy.
Qed.

Lemma wrap_sext_wide (w w' x : Z) : 0 < w <= w' -> wrap w (sext w' x) = wrap w x.
Proof.
  intros Hw. rewrite <- (wrap_narrow w w' (sext w' x)) by lia.
  rewrite sext_wrap by lia. apply wrap_narrow. lia.
Qed.

Lemma GetSrc_GDP_memcpy (bytes : Z) (D : SSAData) (n : Node) (Tmp : Z) :
  GetSrc (8 * bytes) (GDP_memcpy D n Tmp bytes) n = wrap (8 * bytes) Tmp.
Proof.
  unfold GDP_memcpy, GetSrc. rewrite fn_lookup_insert. apply wrap_store.
Qed.

(** ** Multiplication *)

(** The signed operands of [Mul] and [MulH], and their product, which the
    wide type holds. *)
Lemma signed_product_range (w x y : Z) :
  0 < w ->
  - 2 ^ (2 * w - 1) <= sext w x * sext w y < 2 ^ (2 * w - 1).
Proof.
  intros Hw.
  pose proof (sext_range w x Hw) as Hx. pose proof (sext_range w y Hw) as Hy.
  assert (H2 : 2 ^ (2 * w - 1) = 2 * (2 ^ (w - 1) * 2 ^ (w - 1))).
  { rewrite <- Z.pow_add_r, <- Z.pow_succ_r by lia. f_equal. lia. }
  assert (0 < 2 ^ (w - 1)) by (apply Z.pow_pos_nonneg; lia).
  nia.
Qed.

(** X8.  At the sizes 4 and 8 [Mul] and [UMul] agree on the low [w] bits of
    what they write, and at size 8 they write the same value; at size 4
    [Mul] writes the whole signed 64-bit product of the 32-bit operands. *)
Theorem Mul_UMul_low_bits (Op : IROp_Header) (D : SSAData) (n : Node) (w : Z) :
  let a := GetSrc w D (Args Op 0%nat) in
  let b := GetSrc w D (Args Op 1%nat) in
  w = 32 \/ w = 64 ->
  Size Op = w / 8 ->
  exists Ds Du,
    Op_Mul Op D n = Some Ds /\ Op_UMul Op D n = Some Du /\
    wrap w (GD_get Ds n) = GD_get Du n /\
    GD_get Du n = wrap w (a * b) /\
    GD_get Ds n = wrap 64 (sext w a * sext w b).
Proof.
  intros a b Hw Hs. unfold Op_Mul, Op_UMul. rewrite Hs.
  destruct Hw as [-> | ->]; cbv beta iota zeta;
    change (32 / 8) with 4; change (64 / 8) with 8; cbv iota;
    do 2 eexists; (split; [reflexivity |]); (split; [reflexivity |]);
    rewrite !GD_get_set; unfold GetSrc.
  - rewrite !(wrap_narrow 32 64), !(sext_narrow 32 64) by lia.
    rewrite !(sext_widen 32 64) by lia.
    fold (GetSrc 32 D (Args Op 0%nat)) (GetSrc 32 D (Args Op 1%nat)).
    fold a b.
    assert (Hsa : sext 32 a = sext 32 (D (Args Op 0%nat)))
      by (unfold a, GetSrc; apply sext_of_wrap).
    assert (Hsb : sext 32 b = sext 32 (D (Args Op 1%nat)))
      by (unfold b, GetSrc; apply sext_of_wrap).
    rewrite <- Hsa, <- Hsb.
    assert (Hprod : sext 64 (sext 32 a * sext 32 b) = sext 32 a * sext 32 b).
    { apply sext_small; [lia |].
      pose proof (signed_product_range 32 a b ltac:(lia)) as Hr.
      change (2 * 32 - 1) with 63 in Hr. change (64 - 1) with 63. exact Hr. }
    rewrite Hprod.
    assert (Hlow : wrap 32 (sext 32 a * sext 32 b) = wrap 32 (a * b)).
    { apply wrap_mul_cong; apply sext_wrap; lia. }
    split; [| split].
    + rewrite Hlow. symmetry. apply wrap_widen. lia.
    + apply wrap_widen. lia.
    + reflexivity.
  - rewrite !wrap_wrap.
    fold (GetSrc 64 D (Args Op 0%nat)) (GetSrc 64 D (Args Op 1%nat)).
    fold a b. rewrite sext_wrap by lia.
    assert (Hlow : wrap 64 (sext 64 a * sext 64 b) = wrap 64 (a * b)).
    { apply wrap_mul_cong; apply sext_wrap; lia. }
    rewrite Hlow. repeat split; reflexivity.
Qed.

Lemma Mul_UMul_low_bits_witness :
  let Op := {| Size := 4; ElementSize := 0; Args := fun i => i |} in
  let D : SSAData := fun k => match k with 0%nat => 0x80000000 | _ => 0xFFFFFFFF end in
  exists Ds Du,
    Op_Mul Op D 2%nat = Some Ds /\ Op_UMul Op D 2%nat = Some Du /\
    wrap 32 (GD_get Ds 2%nat) = GD_get Du 2%nat /\
    GD_get Du 2%nat = 0x80000000 /\
    GD_get Ds 2%nat = 0x0000000080000000.
Proof.
  intros Op D.
  exact (Mul_UMul_low_bits Op D 2%nat 32 (or_introl eq_refl) eq_refl).
Defined.

(** X9.  The 128-bit product that [UMul] writes at size 16 is made of what
    [UMulH] and [UMul] write at size 8: the high and the low 64 bits. *)
Theorem UMul_size16_halves (ES : Z) (A : nat -> Node) (D : SSAData) (n : Node) :
  let Op s := {| Size := s; ElementSize := ES; Args := A |} in
  exists D16 DH DL,
    Op_UMul (Op 16) D n = Some D16 /\
    Op_UMulH (Op 8) D n = Some DH /\
    Op_UMul (Op 8) D n = Some DL /\
    GetSrc 128 D16 n = GD_get DH n * 2 ^ 64 + GD_get DL n.
Proof.
  intros Op. do 3 eexists. do 3 (split; [reflexivity |]).
  change 128 with (8 * 16) at 1. rewrite GetSrc_GDP_memcpy, !GD_get_set.
  cbn [Args Op]. change (8 * 16) with 128.
  set (a := GetSrc 64 D (A 0%nat)). set (b := GetSrc 64 D (A 1%nat)).
  assert (Ha : 0 <= a < 2 ^ 64) by (apply wrap_range; lia).
  assert (Hb : 0 <= b < 2 ^ 64) by (apply wrap_range; lia).
  assert (H128 : 2 ^ 128 = 2 ^ 64 * 2 ^ 64) by reflexivity.
  assert (Hlt : 2 ^ 64 < 2 ^ 128) by reflexivity.
  assert (Ha' : wrap 128 a = a) by (apply wrap_small; lia).
  assert (Hb' : wrap 128 b = b) by (apply wrap_small; lia).
  assert (Ha64 : wrap 64 a = a) by (apply wrap_small; lia).
  assert (Hb64 : wrap 64 b = b) by (apply wrap_small; lia).
  rewrite ?Ha64, ?Hb64, ?Ha', ?Hb'.
  assert (Hp : 0 <= a * b < 2 ^ 128) by nia.
  rewrite !(wrap_small 128 (a * b)) by exact Hp.
  rewrite wrap_wrap, Z.shiftr_div_pow2 by lia.
  rewrite (wrap_small 64 (a * b / 2 ^ 64)).
  - unfold wrap. pose proof (Z.div_mod (a * b) (2 ^ 64) ltac:(lia)). lia.
  - split; [apply Z.div_pos; lia | apply Z.div_lt_upper_bound; lia].
Qed.

(** X10.  The signed 128-bit product that [Mul] writes at size 16 is made
    of what [MulH] and [Mul] write at size 8. *)
Theorem Mul_size16_halves (ES : Z) (A : nat -> Node) (D : SSAData) (n : Node) :
  let Op s := {| Size := s; ElementSize := ES; Args := A |} in
  exists D16 DH DL,
    Op_Mul (Op 16) D n = Some D16 /\
    Op_MulH (Op 8) D n = Some DH /\
    Op_Mul (Op 8) D n = Some DL /\
    GetSrc 128 D16 n = GD_get DH n * 2 ^ 64 + GD_get DL n.
Proof.
  intros Op. do 3 eexists. do 3 (split; [reflexivity |]).
  change 128 with (8 * 16) at 1. rewrite GetSrc_GDP_memcpy, !GD_get_set.
  cbn [Args Op]. change (8 * 16) with 128.
  set (a := GetSrc 64 D (A 0%nat)). set (b := GetSrc 64 D (A 1%nat)).
  rewrite !(sext_widen 64 128) by lia.
  pose proof (signed_product_range 64 a b ltac:(lia)) as Hr.
  change (2 * 64 - 1) with 127 in Hr.
  set (P := sext 64 a * sext 64 b) in *.
  rewrite (sext_small 128 P) by (change (128 - 1) with 127; lia).
  rewrite sext_wrap by lia.
  rewrite Z.shiftr_div_pow2 by lia.
  unfold wrap. change (2 ^ 128) with (2 ^ 64 * 2 ^ 64).
  rewrite Z.rem_mul_r by lia. lia.
Qed.



(** ** Division *)

Lemma operand_unsigned (w : Z) (D : SSAData) (x : Node) :
  0 <= w <= 64 -> wrap 64 (wrap w (GetSrc 64 D x)) = GetSrc w D x.
Proof.
  intros Hw. unfold GetSrc. rewrite (wrap_narrow w 64) by lia.
  apply wrap_widen. lia.
Qed.

Lemma operand_signed (w : Z) (D : SSAData) (x : Node) :
  0 < w <= 64 -> sext 64 (sext w (GetSrc 64 D x)) = GetSrcS w D x.
Proof.
  intros Hw. unfold GetSrc, GetSrcS. rewrite sext_widen by lia.
  apply sext_narrow. lia.
Qed.

(** X12.  [UDiv] and [URem] at the sizes 1, 2, 4 and 8 write the quotient
    and the remainder of the unsigned division of the operands: the
    quotient times the divisor plus the remainder is the dividend, and the
    remainder is below the divisor.  For the divisor zero neither has a
    result. *)
Theorem UDiv_URem_division (Op : IROp_Header) (D : SSAData) (n : Node) (s : Z) :
  let a := GetSrc (8 * s) D (Args Op 0%nat) in
  let b := GetSrc (8 * s) D (Args Op 1%nat) in
  In s [1; 2; 4; 8] -> Size Op = s ->
  (b = 0 -> Op_UDiv Op D n = None /\ Op_URem Op D n = None) /\
  (b <> 0 ->
   exists Dq Dr,
     Op_UDiv Op D n = Some Dq /\ Op_URem Op D n = Some Dr /\
     GD_get Dq n * b + GD_get Dr n = a /\ 0 <= GD_get Dr n < b).
Proof.
  intros a b Hin Hs.
  assert (Hops :
    Op_UDiv Op D n = (Res ← udiv a b; Some (GD_set D n Res)) /\
    Op_URem Op D n = (Res ← urem a b; Some (GD_set D n Res))).
  { unfold Op_UDiv, Op_URem. rewrite Hs. subst a b. cbn in Hin.
    destruct Hin as [<- | [<- | [<- | [<- | []]]]]; cbv beta iota zeta;
      rewrite ?operand_unsigned by lia;
      unfold GetSrc; rewrite ?wrap_wrap; split; reflexivity. }
  destruct Hops as [-> ->].
  assert (Ha : 0 <= a < 2 ^ 64 /\ 0 <= b < 2 ^ 64).
  { assert (Hw : 0 <= 8 * s <= 64).
    { cbn in Hin. destruct Hin as [<- | [<- | [<- | [<- | []]]]]; lia. }
    pose proof (wrap_range (8 * s) (D (Args Op 0%nat)) (proj1 Hw)) as H1.
    pose proof (wrap_range (8 * s) (D (Args Op 1%nat)) (proj1 Hw)) as H2.
    assert (2 ^ (8 * s) <= 2 ^ 64) by (apply Z.pow_le_mono_r; lia).
    unfold a, b, GetSrc. lia. }
  unfold udiv, urem. split.
  - intros ->. split; reflexivity.
  - intros Hb. destruct (Z.eqb_spec b 0) as [| _]; [contradiction |].
    cbn [mbind option_bind]. do 2 eexists.
    split; [reflexivity |]. split; [reflexivity |].
    rewrite !GD_get_set.
    pose proof (Z.div_mod a b Hb) as Hdm.
    pose proof (Z.mod_pos_bound a b ltac:(lia)) as Hr.
    assert (Hq : 0 <= a / b <= a).
    { split; [apply Z.div_pos; lia |].
      apply Z.div_le_upper_bound; [lia | nia]. }
    rewrite (wrap_small 64 (a / b)), (wrap_small 64 (a mod b)) by lia.
    lia.
Qed.

Lemma UDiv_URem_division_witness :
  let Op := {| Size := 1; ElementSize := 0; Args := fun i => i |} in
  let D : SSAData := fun k => match k with 0%nat => 0x1C8 | _ => 0x307 end in
  exists Dq Dr,
    Op_UDiv Op D 2%nat = Some Dq /\ Op_URem Op D 2%nat = Some Dr /\
    GD_get Dq 2%nat = 28 /\ GD_get Dr 2%nat = 4.
Proof.
  intros Op D.
  destruct (proj2 (UDiv_URem_division Op D 2%nat 1 (or_introl eq_refl) eq_refl))
    as (Dq & Dr & Hq & Hr & _); [vm_compute; discriminate |].
  exists Dq, Dr. split; [exact Hq |]. split; [exact Hr |].
  injection Hq as <-. injection Hr as <-. split; reflexivity.
Defined.

(** The signed division that has a result, at [int64_t]. *)
Lemma sdiv_srem_spec (a b : Z) :
  - 2 ^ 63 <= a < 2 ^ 63 -> - 2 ^ 63 <= b < 2 ^ 63 ->
  b <> 0 -> ~ (a = - 2 ^ 63 /\ b = -1) ->
  sdiv 64 a b = Some (Z.quot a b) /\ srem 64 a b = Some (Z.rem a b) /\
  sext 64 (wrap 64 (Z.quot a b)) = Z.quot a b /\
  sext 64 (wrap 64 (Z.rem a b)) = Z.rem a b.
Proof.
  intros Ha Hb Hb0 Hover.
  assert (Hcond : (a =? - 2 ^ (64 - 1)) && (b =? -1) = false).
  { change (64 - 1) with 63.
    destruct (Z.eqb_spec a (- 2 ^ 63)), (Z.eqb_spec b (-1)); try reflexivity.
    exfalso. now apply Hover. }
  unfold sdiv, srem. rewrite Hcond.
  destruct (Z.eqb_spec b 0) as [| _]; [contradiction |].
  split; [reflexivity |]. split; [reflexivity |].
  rewrite !sext_of_wrap. change (2 ^ 63) with 9223372036854775808 in *.
  split; apply sext_small; try lia; change (2 ^ (64 - 1)) with 9223372036854775808.
  - (* the quotient *)
    pose proof (Z.quot_abs a b Hb0) as Habs.
    destruct (Z.eq_dec b 1) as [-> | H1]; [rewrite Z.quot_1_r; lia |].
    destruct (Z.eq_dec b (-1)) as [-> | Hm1].
    { change (-1) with (- (1)). rewrite Z.quot_opp_r, Z.quot_1_r by lia. lia. }
    assert (Hle : Z.quot (Z.abs a) (Z.abs b) <= 4611686018427387904).
    { apply Z.quot_le_upper_bound; lia. }
    pose proof (Z.quot_pos (Z.abs a) (Z.abs b) ltac:(lia) ltac:(lia)). lia.
  - (* the remainder *)
    pose proof (Z.rem_bound_abs a b Hb0). lia.
Qed.

(** X13.  [Div] and [Rem] at the sizes 1, 2, 4 and 8 divide the signed
    operands with rounding towards zero: read as signed 64-bit values, the
    quotient times the divisor plus the remainder is the dividend, the
    remainder is smaller than the divisor in absolute value and has the
    sign of the dividend.  There is no result for the divisor zero, nor at
    size 8 for the least value divided by [-1]. *)
Theorem Div_Rem_division (Op : IROp_Header) (D : SSAData) (n : Node) (s : Z) :
  let a := GetSrcS (8 * s) D (Args Op 0%nat) in
  let b := GetSrcS (8 * s) D (Args Op 1%nat) in
  In s [1; 2; 4; 8] -> Size Op = s ->
  (b = 0 \/ (a = - 2 ^ 63 /\ b = -1) ->
   Op_Div Op D n = None /\ Op_Rem Op D n = None) /\
  (b <> 0 -> ~ (a = - 2 ^ 63 /\ b = -1) ->
   exists Dq Dr,
     Op_Div Op D n = Some Dq /\ Op_Rem Op D n = Some Dr /\
     let q := sext 64 (GD_get Dq n) in
     let r := sext 64 (GD_get Dr n) in
     q * b + r = a /\ Z.abs r < Z.abs b /\ 0 <= r * a).
Proof.
  intros a b Hin Hs.
  assert (Hops :
    Op_Div Op D n = (Res ← sdiv 64 a b; Some (GD_set D n Res)) /\
    Op_Rem Op D n = (Res ← srem 64 a b; Some (GD_set D n Res))).
  { unfold Op_Div, Op_Rem. rewrite Hs. subst a b. cbn in Hin.
    destruct Hin as [<- | [<- | [<- | [<- | []]]]]; cbv beta iota zeta;
      rewrite ?operand_signed by lia;
      unfold GetSrc, GetSrcS; rewrite ?sext_of_wrap; split; reflexivity. }
  destruct Hops as [-> ->].
  assert (Hr : - 2 ^ 63 <= a < 2 ^ 63 /\ - 2 ^ 63 <= b < 2 ^ 63).
  { assert (Hw : 0 < 8 * s <= 64).
    { cbn in Hin. destruct Hin as [<- | [<- | [<- | [<- | []]]]]; lia. }
    pose proof (sext_range (8 * s) (D (Args Op 0%nat)) ltac:(lia)) as H1.
    pose proof (sext_range (8 * s) (D (Args Op 1%nat)) ltac:(lia)) as H2.
    assert (2 ^ (8 * s - 1) <= 2 ^ 63) by (apply Z.pow_le_mono_r; lia).
    unfold a, b, GetSrcS. lia. }
  split.
  - intros [-> | [-> ->]]; split; reflexivity.
  - intros Hb Hover.
    destruct (sdiv_srem_spec a b (proj1 Hr) (proj2 Hr) Hb Hover)
      as (-> & -> & Hq & Hrem).
    cbn [mbind option_bind]. do 2 eexists.
    split; [reflexivity |]. split; [reflexivity |].
    cbv zeta. rewrite !GD_get_set, Hq, Hrem.
    pose proof (Z.quot_rem' a b). pose proof (Z.rem_bound_abs a b Hb).
    pose proof (Z.rem_sign_mul a b Hb). lia.
Qed.

Lemma Div_Rem_division_witness :
  let Op := {| Size := 1; ElementSize := 0; Args := fun i => i |} in
  let D : SSAData := fun k => match k with 0%nat => 0xF9 | _ => 0x02 end in
  exists Dq Dr,
    Op_Div Op D 2%nat = Some Dq /\ Op_Rem Op D 2%nat = Some Dr /\
    GD_get Dq 2%nat = 0xFFFFFFFFFFFFFFFD /\ GD_get Dr 2%nat = 0xFFFFFFFFFFFFFFFF.
Proof.
  intros Op D.
  destruct (proj2 (Div_Rem_division Op D 2%nat 1 (or_introl eq_refl) eq_refl))
    as (Dq & Dr & Hq & Hr & _).
  - vm_compute. discriminate.
  - vm_compute. intros [H _]. discriminate H.
  - exists Dq, Dr. split; [exact Hq |]. split; [exact Hr |].
    injection Hq as <-. injection Hr as <-. split; reflexivity.
Defined.

(** ** Long division *)

Lemma lor_shiftl_add (high low w : Z) :
  0 <= w -> 0 <= low < 2 ^ w ->
  Z.lor (Z.shiftl high w) low = high * 2 ^ w + low.
Proof.
  intros Hw Hlow. rewrite <- Z.shiftl_mul_pow2 by exact Hw.
  assert (Hdisj : Z.land (Z.shiftl high w) low = 0).
  { apply Z.bits_inj'. intros i Hi. rewrite Z.land_spec, Z.bits_0.
    destruct (Z.lt_ge_cases i w) as [Hlt | Hge].
    - rewrite Z.shiftl_spec_low by exact Hlt. reflexivity.
    - rewrite <- (wrap_small w low Hlow), wrap_testbit by exact Hw.
      destruct (Z.ltb_spec i w); [lia |]. cbn. apply andb_false_r. }
  rewrite <- Z.lxor_lor by exact Hdisj.
  symmetry. apply Z.add_nocarry_lxor, Hdisj.
Qed.

Lemma GetSrc_GD_set (w : Z) (D : SSAData) (n : Node) (v : Z) :
  0 <= w <= 64 -> GetSrc w (GD_set D n v) n = wrap w v.
Proof.
  intros Hw. unfold GetSrc.
  rewrite <- (wrap_narrow w 64 (GD_set D n v n)) by lia.
  fold (GetSrc 64 (GD_set D n v) n). fold (GD_get (GD_set D n v) n).
  rewrite GD_get_set. apply wrap_narrow. lia.
Qed.

(** X14.  When the high part of the dividend is below the divisor, [LUDiv]
    and [LURem] at the sizes 2, 4 and 8 write the whole quotient and the
    remainder of the division of [(high << w) | low] by the divisor. *)
Theorem LUDiv_LURem_division (Op : IROp_Header) (D : SSAData) (n : Node) (s : Z) :
  let w := 8 * s in
  let low := GetSrc w D (Args Op 0%nat) in
  let high := GetSrc w D (Args Op 1%nat) in
  let divisor := GetSrc w D (Args Op 2%nat) in
  In s [2; 4; 8] -> Size Op = s ->
  high < divisor ->
  exists Dq Dr,
    Op_LUDiv Op D n = Some Dq /\ Op_LURem Op D n = Some Dr /\
    GetSrc w Dq n * divisor + GetSrc w Dr n = high * 2 ^ w + low /\
    0 <= GetSrc w Dr n < divisor.
Proof.
  intros w low high divisor Hin Hs Hhigh.
  assert (Hw : 0 < w <= 64).
  { subst w. cbn in Hin. destruct Hin as [<- | [<- | [<- | []]]]; lia. }
  assert (Hlow : 0 <= low < 2 ^ w) by (apply wrap_range; lia).
  assert (Hhi : 0 <= high < 2 ^ w) by (apply wrap_range; lia).
  assert (Hdiv : 0 <= divisor < 2 ^ w) by (apply wrap_range; lia).
  assert (H2w : 2 ^ (2 * w) = 2 ^ w * 2 ^ w).
  { rewrite <- Z.pow_add_r by lia. f_equal. lia. }
  set (Source := Z.lor (wrap (2 * w) (Z.shiftl (wrap (2 * w) high) w)) low).
  assert (HSource : Source = high * 2 ^ w + low).
  { unfold Source. rewrite (wrap_small (2 * w) high) by nia.
    rewrite (wrap_small (2 * w) (Z.shiftl high w))
      by (rewrite Z.shiftl_mul_pow2 by lia; nia).
    apply lor_shiftl_add; lia. }
  pose proof (Z.div_mod Source divisor ltac:(lia)) as Hdm.
  pose proof (Z.mod_pos_bound Source divisor ltac:(lia)) as Hr.
  assert (Hq : 0 <= Source / divisor < 2 ^ w).
  { split; [apply Z.div_pos; nia |]. apply Z.div_lt_upper_bound; nia. }
  assert (Hresq : wrap w (wrap (2 * w) (Source / divisor)) = Source / divisor).
  { rewrite (wrap_small (2 * w)) by nia. apply wrap_small. lia. }
  assert (Hresr : wrap w (wrap (2 * w) (Source mod divisor)) = Source mod divisor).
  { rewrite (wrap_small (2 * w)) by nia. apply wrap_small. lia. }
  assert (Hops :
    exists Dq Dr,
      Op_LUDiv Op D n = Some Dq /\ Op_LURem Op D n = Some Dr /\
      GetSrc w Dq n = wrap w (wrap (2 * w) (Source / divisor)) /\
      GetSrc w Dr n = wrap w (wrap (2 * w) (Source mod divisor))).
  { assert (Hdiv0 : divisor <> 0) by lia.
    unfold Op_LUDiv, Op_LURem. rewrite Hs. cbv zeta.
    subst Source low high divisor w. cbn in Hin.
    destruct Hin as [<- | [<- | [<- | []]]]; cbv beta iota;
      match goal with
      | |- context [?x =? 0] =>
          destruct (Z.eqb_spec x 0) as [H0 | _];
          [exfalso; apply Hdiv0; exact H0 |]
      end;
      cbn [mbind option_bind]; do 2 eexists;
      (split; [reflexivity |]); (split; [reflexivity |]).
    - rewrite !GetSrc_GD_set by lia. rewrite !wrap_wrap. split; reflexivity.
    - rewrite !GetSrc_GD_set by lia. rewrite !wrap_wrap. split; reflexivity.
    - rewrite !GetSrc_GDP_memcpy. split; reflexivity. }
  destruct Hops as (Dq & Dr & HDq & HDr & Hgq & Hgr).
  exists Dq, Dr. split; [exact HDq |]. split; [exact HDr |].
  rewrite Hgq, Hgr, Hresq, Hresr, <- HSource. lia.
Qed.

Lemma LUDiv_LURem_division_witness :
  let Op := {| Size := 4; ElementSize := 0; Args := fun i => i |} in
  let D : SSAData := fun k => match k with 0%nat => 7 | 1%nat => 1 | _ => 2 end in
  exists Dq Dr,
    Op_LUDiv Op D 3%nat = Some Dq /\ Op_LURem Op D 3%nat = Some Dr /\
    GetSrc 32 Dq 3%nat * 2 + GetSrc 32 Dr 3%nat = 1 * 2 ^ 32 + 7 /\
    0 <= GetSrc 32 Dr 3%nat < 2.
Proof.
  intros Op D.
  apply (LUDiv_LURem_division Op D 3%nat 4); [right; left |..]; reflexivity.
Defined.

(** ** Shifts *)

(** X15.  [Lshl], [Lshr] and [Ashr] at the width [w] of 32 or 64 bits shift
    by the amount modulo [w]: they write [a * 2^k] modulo [2^w], the
    quotient of [a] by [2^k], and the quotient of the signed [a] by [2^k]
    rounded down, for [k] the amount modulo [w]; all three results are
    zero-extended to 64 bits. *)
Theorem Shifts_modulo_width (Op : IROp_Header) (D : SSAData) (n : Node) (w : Z) :
  let a := GetSrc w D (Args Op 0%nat) in
  let k := GetSrc 64 D (Args Op 1%nat) mod w in
  w = 32 \/ w = 64 ->
  Size Op = w / 8 ->
  (exists D', Op_Lshl Op D n = Some D' /\ GD_get D' n = (a * 2 ^ k) mod 2 ^ w) /\
  (exists D', Op_Lshr Op D n = Some D' /\ GD_get D' n = a / 2 ^ k) /\
  (exists D', Op_Ashr Op D n = Some D' /\
              GD_get D' n = (sext w a / 2 ^ k) mod 2 ^ w).
Proof.
  intros a k Hw Hs.
  assert (Hk : 0 <= k < w) by (apply Z.mod_pos_bound; lia).
  assert (Ha : 0 <= a < 2 ^ w) by (apply wrap_range; lia).
  assert (Hmask : Z.land (GetSrc 64 D (Args Op 1%nat)) (wrap 8 (w / 8 * 8 - 1)) = k).
  { destruct Hw as [-> | ->].
    - change (wrap 8 (32 / 8 * 8 - 1)) with (2 ^ 5 - 1). now rewrite land_pred_pow2.
    - change (wrap 8 (64 / 8 * 8 - 1)) with (2 ^ 6 - 1). now rewrite land_pred_pow2. }
  assert (Hsrc : wrap w (GetSrc 64 D (Args Op 0%nat)) = a).
  { unfold a, GetSrc. apply wrap_narrow. lia. }
  assert (Hext : forall x, wrap 64 (wrap w x) = wrap w x).
  { intros x. apply wrap_widen. lia. }
  assert (Hshr : 0 <= a / 2 ^ k < 2 ^ w).
  { assert (0 < 2 ^ k) by (apply Z.pow_pos_nonneg; lia).
    split; [apply Z.div_pos; lia | apply Z.div_lt_upper_bound; nia]. }
  assert (Hsext : sext w (GetSrc 64 D (Args Op 0%nat)) = sext w a).
  { apply sext_cong. rewrite Hsrc. symmetry. apply wrap_small, Ha. }
  unfold Op_Lshl, Op_Lshr, Op_Ashr. rewrite Hs. cbv zeta. rewrite Hmask.
  destruct Hw as [-> | ->];
    change (32 / 8) with 4; change (64 / 8) with 8; cbv iota;
    rewrite ?Hsrc, ?Hsext;
    (split; [| split]); (eexists; split; [reflexivity |]);
    rewrite GD_get_set, ?Hext.
  - unfold wrap. now rewrite Z.shiftl_mul_pow2 by lia.
  - rewrite Z.shiftr_div_pow2 by lia. apply wrap_small.
    change (2 ^ 64) with (2 ^ 32 * 2 ^ 32). nia.
  - unfold wrap. now rewrite Z.shiftr_div_pow2 by lia.
  - unfold wrap. now rewrite Z.shiftl_mul_pow2 by lia.
  - rewrite Z.shiftr_div_pow2 by lia. apply wrap_small. lia.
  - unfold wrap. now rewrite Z.shiftr_div_pow2 by lia.
Qed.

Lemma Shifts_modulo_width_witness :
  let Op := {| Size := 4; ElementSize := 0; Args := fun i => i |} in
  let D : SSAData := fun k => match k with 0%nat => 0x80000000 | _ => 35 end in
  (exists D', Op_Lshl Op D 2%nat = Some D' /\ GD_get D' 2%nat = 0) /\
  (exists D', Op_Lshr Op D 2%nat = Some D' /\ GD_get D' 2%nat = 0x10000000) /\
  (exists D', Op_Ashr Op D 2%nat = Some D' /\ GD_get D' 2%nat = 0xF0000000).
Proof.
  intros Op D.
  exact (Shifts_modulo_width Op D 2%nat 32 (or_introl eq_refl) eq_refl).
Defined.

(** The lambda [Extr] at the widths 32 and 64, for a shift below the width
    of [__uint128_t]: the concatenation of the two sources, shifted down
    and truncated. *)
Lemma Extr_value (m : OversizedShift) (w a b lsb : Z) :
  w = 32 \/ w = 64 -> 0 <= a < 2 ^ w -> 0 <= b < 2 ^ w -> 0 <= lsb < 128 ->
  Extr m w a b lsb = wrap w ((a * 2 ^ w + b) / 2 ^ lsb).
Proof.
  intros Hw Ha Hb Hlsb. unfold Extr, shl, shr.
  assert (Hww : 0 < w <= 64) by lia.
  assert (Hpw : 2 ^ w * 2 ^ w <= 2 ^ 128).
  { destruct Hw as [-> | ->]; cbv; discriminate. }
  assert (H2w : 0 < 2 ^ w) by (apply Z.pow_pos_nonneg; lia).
  rewrite !shamt_small by lia.
  rewrite (wrap_small 128 a) by nia.
  rewrite Z.shiftl_mul_pow2 by lia.
  rewrite (wrap_small 128 (a * 2 ^ w)) by nia.
  rewrite (wrap_small 128 b) by nia.
  rewrite <- (Z.shiftl_mul_pow2 a w) by lia.
  rewrite lor_shiftl_add by lia.
  assert (Hcat : 0 <= a * 2 ^ w + b < 2 ^ 128).
  { assert ((a + 1) * 2 ^ w <= 2 ^ w * 2 ^ w) by (apply Z.mul_le_mono_nonneg_r; lia).
    nia. }
  rewrite (wrap_small 128 (a * 2 ^ w + b)) by exact Hcat.
  now rewrite Z.shiftr_div_pow2, Z.shiftl_mul_pow2 by lia.
Qed.

(** X16.  [Extr] at the sizes 4 and 8, with [LSB] below 128, writes the
    bits [LSB .. LSB + w - 1] of the concatenation of its two sources, the
    first one above the second one. *)
Theorem Extr_concatenation (m : OversizedShift) (Op : IROp_Extr)
    (D : SSAData) (n : Node) (w : Z) :
  let high := GetSrc w D (Args (Extr_Header Op) 0%nat) in
  let low := GetSrc w D (Args (Extr_Header Op) 1%nat) in
  w = 32 \/ w = 64 -> Size (Extr_Header Op) = w / 8 ->
  0 <= Extr_LSB Op < 128 ->
  exists D', Op_Extr m Op D n = Some D' /\
    GD_get D' n = ((high * 2 ^ w + low) / 2 ^ Extr_LSB Op) mod 2 ^ w.
Proof.
  intros high low Hw Hs Hlsb.
  assert (Hh : 0 <= high < 2 ^ w) by (apply wrap_range; lia).
  assert (Hl : 0 <= low < 2 ^ w) by (apply wrap_range; lia).
  assert (Hh' : wrap w (GetSrc 64 D (Args (Extr_Header Op) 0%nat)) = high).
  { unfold high, GetSrc. apply wrap_narrow. lia. }
  assert (Hl' : wrap w (GetSrc 64 D (Args (Extr_Header Op) 1%nat)) = low).
  { unfold low, GetSrc. apply wrap_narrow. lia. }
  pose proof (Extr_value m w high low (Extr_LSB Op) Hw Hh Hl Hlsb) as Hv.
  unfold Op_Extr. rewrite Hs. cbv zeta.
  destruct Hw as [-> | ->];
    change (32 / 8) with 4; change (64 / 8) with 8; cbv iota;
    rewrite Hh', Hl', Hv; (eexists; split; [reflexivity |]);
    rewrite GD_get_set; apply wrap_widen; lia.
Qed.

Lemma Extr_concatenation_witness :
  let Op := {| Extr_Header := {| Size := 4; ElementSize := 0; Args := fun i => i |};
               Extr_LSB := 8 |} in
  let D : SSAData := fun k => match k with 0%nat => 0x11223344 | _ => 0xAABBCCDD end in
  exists D', Op_Extr ShiftDrops Op D 2%nat = Some D' /\
    GD_get D' 2%nat = 0x44AABBCC.
Proof.
  intros Op D.
  exact (Extr_concatenation ShiftDrops Op D 2%nat 32 (or_introl eq_refl) eq_refl
           ltac:(cbn; lia)).
Defined.

(** The two lambdas agree when [Extr] concatenates a value with itself: the
    bits that leave at the bottom come back at the top. *)
Lemma Extr_same_Ror (m m' : OversizedShift) (k a r : Z) :
  let w := 2 ^ k in
  k = 5 \/ k = 6 -> 0 <= a < 2 ^ w -> 0 <= r ->
  Extr m w a a (r mod w) = Ror m' w a r.
Proof.
  intros w Hk Ha Hr.
  assert (Hw : w = 32 \/ w = 64) by (unfold w; destruct Hk as [-> | ->]; auto).
  assert (Hrm : 0 <= r mod w < w) by (apply Z.mod_pos_bound; lia).
  destruct (Ror_spec m' k a r ltac:(lia) Ha Hr) as [HRor _].
  fold w in HRor. rewrite HRor.
  rewrite Extr_value by (try assumption; lia).
  rewrite <- lor_shiftl_add, <- Z.shiftr_div_pow2 by lia.
  apply Z.bits_inj'. intros i Hi.
  rewrite !wrap_testbit by lia.
  destruct (Z.ltb_spec i w) as [Hiw | Hiw]; [| reflexivity]. cbn [andb].
  rewrite Z.lor_spec, !Z.shiftr_spec, !Z.shiftl_spec, Z.lor_spec by lia.
  rewrite Z.shiftl_spec by lia.
  replace (i - (w - r mod w)) with (i + r mod w - w) by lia.
  apply orb_comm.
Qed.

(** X17.  [Extr] of a source with itself is a rotation: with both sources
    the node that [Ror] rotates and [LSB] the rotate amount modulo the
    width, the two handlers leave the same buffer. *)
Theorem Extr_same_source_is_Ror (m m' : OversizedShift) (OpE : IROp_Extr)
    (OpR : IROp_Header) (D : SSAData) (n : Node) (w : Z) :
  w = 32 \/ w = 64 ->
  Size (Extr_Header OpE) = w / 8 -> Size OpR = w / 8 ->
  Args (Extr_Header OpE) 0%nat = Args OpR 0%nat ->
  Args (Extr_Header OpE) 1%nat = Args OpR 0%nat ->
  Extr_LSB OpE = GetSrc 64 D (Args OpR 1%nat) mod w ->
  exists D', Op_Extr m OpE D n = Some D' /\ Op_Ror m' OpR D n = Some D'.
Proof.
  intros Hw HsE HsR H0 H1 Hlsb.
  set (r := GetSrc 64 D (Args OpR 1%nat)) in *.
  assert (Hr : 0 <= r) by (apply (wrap_range 64); lia).
  unfold Op_Extr, Op_Ror. rewrite HsE, HsR, H0, H1, Hlsb. cbv zeta. fold r.
  destruct Hw as [-> | ->];
    change (32 / 8) with 4; change (64 / 8) with 8; cbv iota;
    (eexists; split; [| reflexivity]); do 2 f_equal.
  - set (a := wrap 32 (GetSrc 64 D (Args OpR 0%nat))).
    assert (Ha : 0 <= a < 2 ^ 32) by (apply wrap_range; lia).
    assert (Hmod : r mod 32 = wrap 32 r mod 32).
    { unfold wrap. symmetry. apply Z.mod_mod_divide. exists (2 ^ 27). reflexivity. }
    rewrite Hmod.
    apply (Extr_same_Ror m m' 5 a (wrap 32 r) (or_introl eq_refl) Ha).
    apply (wrap_range 32). lia.
  - set (a := wrap 64 (GetSrc 64 D (Args OpR 0%nat))).
    assert (Ha : 0 <= a < 2 ^ 64) by (apply wrap_range; lia).
    assert (Hr64 : wrap 64 r = r) by apply wrap_wrap.
    rewrite Hr64.
    exact (Extr_same_Ror m m' 6 a r (or_intror eq_refl) Ha Hr).
Qed.

Lemma Extr_same_source_is_Ror_witness :
  let OpR := {| Size := 4; ElementSize := 0; Args := fun i => i |} in
  let OpE := {| Extr_Header := {| Size := 4; ElementSize := 0; Args := fun _ => 0%nat |};
                Extr_LSB := 4 |} in
  let D : SSAData := fun k => match k with 0%nat => 0x12345678 | _ => 36 end in
  exists D', Op_Extr ShiftDrops OpE D 2%nat = Some D' /\
             Op_Ror ShiftCountWraps OpR D 2%nat = Some D'.
Proof.
  intros OpR OpE D.
  exact (Extr_same_source_is_Ror ShiftDrops ShiftCountWraps OpE OpR D 2%nat 32
           (or_introl eq_refl) eq_refl eq_refl eq_refl eq_refl eq_refl).
Defined.

(** The bits of a sign extension: the bit [w - 1] is repeated above. *)
Lemma sext_testbit (w y j : Z) :
  0 < w -> 0 <= j -> Z.testbit (sext w y) j = Z.testbit y (Z.min j (w - 1)).
Proof.
  intros Hw Hj. unfold sext.
  pose proof (wrap_range w y ltac:(lia)) as Hu.
  assert (H2 : 2 ^ w = 2 * 2 ^ (w - 1)).
  { rewrite <- Z.pow_succ_r by lia. f_equal. lia. }
  assert (Hp : 0 < 2 ^ (w - 1)) by (apply Z.pow_pos_nonneg; lia).
  assert (Htop : Z.testbit y (w - 1) = Z.testbit (wrap w y) (w - 1)).
  { rewrite wrap_testbit by lia.
    destruct (Z.ltb_spec (w - 1) w); [reflexivity | lia]. }
  destruct (Z.ltb_spec (wrap w y) (2 ^ (w - 1))) as [Hlt | Hge].
  - rewrite wrap_testbit by lia.
    destruct (Z.ltb_spec j w) as [Hjw | Hjw]; cbn [andb].
    + now rewrite Z.min_l by lia.
    + rewrite Z.min_r, Htop by lia. symmetry.
      apply Z.testbit_false; [lia |].
      now rewrite Z.div_small by lia.
  - replace (wrap w y - 2 ^ w) with ((-1) * 2 ^ w + wrap w y) by lia.
    rewrite <- lor_shiftl_add by lia.
    rewrite Z.lor_spec, Z.shiftl_spec, wrap_testbit by lia.
    destruct (Z.ltb_spec j w) as [Hjw | Hjw]; cbn [andb].
    + rewrite Z.testbit_neg_r by lia. now rewrite Z.min_l by lia.
    + rewrite Z.bits_m1 by lia. rewrite Z.min_r, Htop by lia. symmetry.
      apply Z.testbit_true; [lia |].
      replace (wrap w y / 2 ^ (w - 1)) with 1; [reflexivity |].
      apply Z.div_unique with (r := wrap w y - 2 ^ (w - 1)); lia.
Qed.

(** What [Bfe] leaves of its source: the field, moved to the bottom. *)
Lemma Bfe_value (m : OversizedShift) (x width lsb : Z) :
  1 <= width -> 0 <= lsb -> lsb + width <= 64 ->
  shr m 64 (Z.land x (shl m 64 (SourceMask m width) lsb)) lsb
  = wrap width (Z.shiftr x lsb).
Proof.
  intros HW Hl Hsum. apply Z.bits_inj'. intros i Hi.
  rewrite testbit_shr, Z.land_spec, testbit_shl by lia.
  rewrite SourceMask_ones, testbit_ones_full by lia.
  rewrite wrap_testbit, Z.shiftr_spec by lia.
  replace (i + lsb - lsb) with i by lia.
  destruct (Z.ltb_spec (i + lsb) 64), (Z.ltb_spec i width),
    (Z.leb_spec 0 i); cbn; try lia;
    rewrite ?andb_true_r, ?andb_false_r; reflexivity.
Qed.

(** The two shifts of [Sbfe]: the field is moved to the top of the 64 bits
    and brought down again with its sign. *)
Lemma Sbfe_value (m : OversizedShift) (d width lsb : Z) :
  let ShiftLeftAmount := wrap 64 (64 - (width + lsb)) in
  let ShiftRightAmount := wrap 64 (ShiftLeftAmount + lsb) in
  1 <= width -> 0 <= lsb -> lsb + width <= 64 ->
  Z.shiftr (sext 64 (Z.shiftl (sext 64 d) (shamt m 64 ShiftLeftAmount)))
           (shamt m 64 ShiftRightAmount)
  = sext width (Z.shiftr (wrap 64 d) lsb).
Proof.
  intros L R HW Hl Hsum.
  assert (HL : L = 64 - (width + lsb)) by (apply wrap_small; lia).
  assert (HR : R = 64 - width).
  { unfold R. rewrite HL. replace (64 - (width + lsb) + lsb) with (64 - width) by lia.
    apply wrap_small. lia. }
  rewrite !shamt_small by lia. rewrite HL, HR.
  apply Z.bits_inj'. intros i Hi.
  rewrite Z.shiftr_spec, sext_testbit, Z.shiftl_spec, sext_testbit by lia.
  rewrite sext_testbit, Z.shiftr_spec, wrap_testbit by lia.
  replace (Z.min (Z.min (i + (64 - width)) (64 - 1) - (64 - (width + lsb))) (64 - 1))
    with (Z.min i (width - 1) + lsb) by lia.
  destruct (Z.ltb_spec (Z.min i (width - 1) + lsb) 64); [reflexivity | lia].
Qed.

(** X18.  [Sbfe] writes the sign extension of the field that [Bfe] writes
    for the same header, width and position: [Bfe] leaves the [Width] bits
    from [lsb] on at the bottom of the destination, [Sbfe] repeats the top
    bit of the field above them. *)
Theorem Sbfe_sign_extends_Bfe (m : OversizedShift) (H : IROp_Header)
    (Width lsb : Z) (D : SSAData) (n : Node) :
  let OpS := {| Sbfe_Header := H; Sbfe_Width := Width; Sbfe_lsb := lsb |} in
  let OpB := {| Bfe_Header := H; Bfe_Width := Width; Bfe_lsb := lsb |} in
  let x := GetSrc 64 D (Args H 0%nat) in
  Size H <= 8 -> 1 <= Width -> 0 <= lsb -> lsb + Width <= 64 ->
  exists Ds Db,
    Op_Sbfe m OpS D n = Some Ds /\ Op_Bfe m OpB D n = Some Db /\
    GD_get Db n = (x / 2 ^ lsb) mod 2 ^ Width /\
    GD_get Ds n = wrap 64 (sext Width (GD_get Db n)).
Proof.
  intros OpS OpB x Hs HW Hl Hsum.
  unfold Op_Sbfe, Op_Bfe. cbn [Sbfe_Header Sbfe_Width Sbfe_lsb OpS
    Bfe_Header Bfe_Width Bfe_lsb OpB]. cbv zeta.
  destruct (Z.ltb_spec 8 (Size H)) as [Hbig | _]; [lia |].
  do 2 eexists. do 2 (split; [reflexivity |]).
  rewrite !GD_get_set. fold x.
  rewrite Bfe_value by lia.
  unfold GetSrcS. rewrite Sbfe_value by lia.
  fold (GetSrc 64 D (Args H 0%nat)). fold x.
  rewrite (wrap_widen Width 64) by lia.
  split.
  - unfold wrap. now rewrite Z.shiftr_div_pow2 by lia.
  - now rewrite sext_of_wrap.
Qed.

Lemma Sbfe_sign_extends_Bfe_witness :
  let H := {| Size := 8; ElementSize := 0; Args := fun i => i |} in
  let OpS := {| Sbfe_Header := H; Sbfe_Width := 8; Sbfe_lsb := 4 |} in
  let OpB := {| Bfe_Header := H; Bfe_Width := 8; Bfe_lsb := 4 |} in
  let D : SSAData := fun _ => 0xF85 in
  exists Ds Db,
    Op_Sbfe ShiftCountWraps OpS D 1%nat = Some Ds /\
    Op_Bfe ShiftCountWraps OpB D 1%nat = Some Db /\
    GD_get Db 1%nat = 0xF8 /\
    GD_get Ds 1%nat = 0xFFFFFFFFFFFFFFF8.
Proof.
  intros H OpS OpB D.
  destruct (Sbfe_sign_extends_Bfe ShiftCountWraps H 8 4 D 1%nat
              ltac:(cbn; lia) ltac:(lia) ltac:(lia) ltac:(lia))
    as (Ds & Db & HS & HB & Hb & Hs).
  exists Ds, Db. repeat split; [exact HS | exact HB | exact Hb |].
  rewrite Hs, Hb. reflexivity.
Defined.

(** [TruncElementPair] packs the low halves of the two 64-bit lanes. *)
Lemma shiftl_lane_high (y : Z) :
  wrap 64 (Z.shiftl y 32) = Z.shiftl (wrap 32 y) 32.
Proof.
  unfold wrap. rewrite !Z.shiftl_mul_pow2 by lia.
  change (2 ^ 64) with (2 ^ 32 * 2 ^ 32).
  apply Z.mul_mod_distr_r; lia.
Qed.

(** X19.  [TruncElementPair] at size 4 writes the bits 0..31 of its
    128-bit source followed by the bits 64..95: the low halves of the two
    64-bit lanes, the second above the first. *)
Theorem TruncElementPair_packs (Op : IROp_Header) (D : SSAData) (n : Node) :
  let v := D (Args Op 0%nat) in
  Size Op = 4 ->
  exists D', Op_TruncElementPair Op D n = Some D' /\
    GD_get D' n = (v / 2 ^ 64) mod 2 ^ 32 * 2 ^ 32 + v mod 2 ^ 32.
Proof.
  intros v Hs. unfold Op_TruncElementPair. rewrite Hs. cbv iota zeta.
  eexists. split; [reflexivity |]. rewrite GD_get_set.
  unfold GetSrc_lane. fold v. change (64 * 0) with 0. change (64 * 1) with 64.
  rewrite Z.shiftr_0_r, Z.shiftr_div_pow2 by lia.
  change (not_ 32 0) with (Z.ones 32).
  rewrite <- (wrap_land_ones 32), (wrap_narrow 32 64) by lia.
  rewrite shiftl_lane_high, (wrap_narrow 32 64) by lia.
  rewrite Z.lor_comm, lor_shiftl_add by (try apply wrap_range; lia).
  unfold wrap at 2 3. apply wrap_small.
  pose proof (Z.mod_pos_bound (v / 2 ^ 64) (2 ^ 32) ltac:(lia)).
  pose proof (Z.mod_pos_bound v (2 ^ 32) ltac:(lia)).
  set (high := (v / 2 ^ 64) mod 2 ^ 32) in *.
  set (low := v mod 2 ^ 32) in *. lia.
Qed.

Lemma TruncElementPair_packs_witness :
  let Op := {| Size := 4; ElementSize := 0; Args := fun i => i |} in
  let D : SSAData := fun _ => 0x11111111222222223333333344444444 in
  exists D', Op_TruncElementPair Op D 1%nat = Some D' /\
    GD_get D' 1%nat = 0x2222222244444444.
Proof.
  intros Op D. exact (TruncElementPair_packs Op D 1%nat eq_refl).
Defined.

Section FCmp_ordered.

Context (LT UNORDERED EQ : Z).
Context (HLT : 0 <= LT < 32) (HUN : 0 <= UNORDERED < 32) (HEQ : 0 <= EQ < 32).

Lemma testbit_above (w x f : Z) :
  0 <= w -> 0 <= x < 2 ^ w -> w <= f -> Z.testbit x f = false.
Proof using Type.
  intros Hw Hx Hf. rewrite <- (wrap_small w x Hx), wrap_testbit by exact Hw.
  destruct (Z.ltb_spec f w); [lia | reflexivity].
Qed.

Lemma FCmp_flags_range (Flags : Z) (Src1 Src2 : spec_float) :
  0 <= FCmp_flags LT UNORDERED EQ Flags Src1 Src2 < 2 ^ 32.
Proof using Type.
  unfold FCmp_flags.
  destruct (requested Flags LT), (requested Flags UNORDERED),
    (requested Flags EQ), (isnan Src1 || isnan Src2),
    (SFltb Src1 Src2), (SFeqb Src1 Src2); cbn [orb];
    try (apply wrap_range; lia); lia.
Qed.

Lemma SFltb_SFeqb_exclusive (x y : spec_float) : SFltb x y && SFeqb x y = false.
Proof using Type.
  unfold SFltb, SFeqb. now destruct (SFcompare x y) as [[] |].
Qed.

(** X20.  [FCmp] sets no bit but those of the three flags, and none that
    the mask does not request; when neither operand is a NaN the UNORDERED
    bit stays clear, the LT bit is the comparison [Src1 < Src2] and the EQ
    bit the comparison [Src1 == Src2], of which at most one is set.  The
    bit numbers of the three flags are distinct and below 32. *)
Theorem FCmp_ordered_flags (Op : IROp_FCmp) (D : SSAData) (n : Node) :
  let Src1 := FCmp_Src Op D 0%nat in
  let Src2 := FCmp_Src Op D 1%nat in
  let Result := GD_get (Op_FCmp LT UNORDERED EQ Op D n) n in
  LT <> UNORDERED -> LT <> EQ -> UNORDERED <> EQ ->
  (forall f, 0 <= f -> Z.testbit Result f = true ->
     In f [LT; UNORDERED; EQ] /\ requested (FCmp_Flags Op) f = true) /\
  (isnan Src1 || isnan Src2 = false ->
   Z.testbit Result UNORDERED = false /\
   Z.testbit Result LT = requested (FCmp_Flags Op) LT && SFltb Src1 Src2 /\
   Z.testbit Result EQ = requested (FCmp_Flags Op) EQ && SFeqb Src1 Src2 /\
   Z.testbit Result LT && Z.testbit Result EQ = false).
Proof using HLT HUN HEQ.
  intros Src1 Src2 Result Hne1 Hne2 Hne3.
  assert (HRes : Result = FCmp_flags LT UNORDERED EQ (FCmp_Flags Op) Src1 Src2).
  { unfold Result. rewrite Op_FCmp_flags, GD_get_set. fold Src1 Src2.
    apply wrap_small.
    pose proof (FCmp_flags_range (FCmp_Flags Op) Src1 Src2). lia. }
  assert (HR : forall f, 0 <= f < 32 ->
            Z.testbit Result f
            = requested (FCmp_Flags Op) LT
                && (isnan Src1 || isnan Src2 || SFltb Src1 Src2) && (f =? LT)
              || requested (FCmp_Flags Op) UNORDERED
                && (isnan Src1 || isnan Src2) && (f =? UNORDERED)
              || requested (FCmp_Flags Op) EQ
                && (isnan Src1 || isnan Src2 || SFeqb Src1 Src2) && (f =? EQ)).
  { intros f Hf. rewrite HRes.
    exact (FCmp_flags_testbit LT UNORDERED EQ HLT HUN HEQ _ _ _ f Hf). }
  split.
  - intros f Hf Hbit.
    destruct (Z.lt_ge_cases f 32) as [Hlt | Hge].
    + rewrite HR in Hbit by lia.
      destruct (Z.eqb_spec f LT) as [-> | _].
      { destruct (requested (FCmp_Flags Op) LT) eqn:Hreq.
        - split; [left; reflexivity | reflexivity].
        - exfalso. revert Hbit.
          destruct (Z.eqb_spec LT UNORDERED); [contradiction |].
          destruct (Z.eqb_spec LT EQ); [contradiction |].
          rewrite !andb_false_r. discriminate. }
      destruct (Z.eqb_spec f UNORDERED) as [-> | _].
      { destruct (requested (FCmp_Flags Op) UNORDERED) eqn:Hreq.
        - split; [right; left; reflexivity | reflexivity].
        - exfalso. revert Hbit.
          destruct (Z.eqb_spec UNORDERED EQ); [contradiction |].
          rewrite !andb_false_r. discriminate. }
      destruct (Z.eqb_spec f EQ) as [-> | _].
      { destruct (requested (FCmp_Flags Op) EQ) eqn:Hreq.
        - split; [right; right; left; reflexivity | reflexivity].
        - exfalso. revert Hbit. rewrite !andb_false_r. discriminate. }
      exfalso. revert Hbit. rewrite !andb_false_r. discriminate.
    + exfalso. rewrite HRes in Hbit.
      rewrite (testbit_above 32) in Hbit;
        [discriminate | lia | apply FCmp_flags_range | exact Hge].
  - intros Hord. rewrite !HR, Hord by assumption. cbn [orb].
    rewrite !Z.eqb_refl.
    destruct (Z.eqb_spec UNORDERED LT) as [? | _]; [congruence |].
    destruct (Z.eqb_spec UNORDERED EQ) as [? | _]; [congruence |].
    destruct (Z.eqb_spec LT UNORDERED) as [? | _]; [congruence |].
    destruct (Z.eqb_spec LT EQ) as [? | _]; [congruence |].
    destruct (Z.eqb_spec EQ LT) as [? | _]; [congruence |].
    destruct (Z.eqb_spec EQ UNORDERED) as [? | _]; [congruence |].
    rewrite !andb_false_r, !andb_true_r. cbn [orb].
    rewrite !orb_false_r.
    repeat split.
    pose proof (SFltb_SFeqb_exclusive Src1 Src2) as Hex.
    destruct (requested (FCmp_Flags Op) LT), (requested (FCmp_Flags Op) EQ),
      (SFltb Src1 Src2), (SFeqb Src1 Src2); cbn in *; congruence.
Qed.

End FCmp_ordered.

(** 1.0 against 2.0 at element size 4 with the three flags requested, for
    the bit numbers 1, 2 and 0: only LT is set. *)
Lemma FCmp_ordered_flags_witness :
  let Op := {| FCmp_Header := {| Size := 4; ElementSize := 4; Args := fun i => i |};
               FCmp_ElementSize := 4; FCmp_Flags := 7 |} in
  let D : SSAData := fun k => match k with 0%nat => 0x3F800000 | _ => 0x40000000 end in
  let Result := GD_get (Op_FCmp 1 2 0 Op D 2%nat) 2%nat in
  Z.testbit Result 2 = false /\ Z.testbit Result 1 = true /\
  Z.testbit Result 0 = false.
Proof.
  intros Op D Result.
  destruct (FCmp_ordered_flags 1 2 0 ltac:(lia) ltac:(lia) ltac:(lia) Op D 2%nat
              ltac:(lia) ltac:(lia) ltac:(lia)) as [_ Hord].
  destruct (Hord eq_refl) as (Hu & Hl & He & _).
  split; [exact Hu | split; [exact Hl | exact He]].
Defined.

(** ** Counting zero bits *)

Lemma testbit_top (k x : Z) :
  0 <= k -> 2 ^ k <= x < 2 ^ (k + 1) -> Z.testbit x k = true.
Proof.
  intros Hk Hx. apply Z.testbit_true; [exact Hk |].
  assert (H2 : 2 ^ (k + 1) = 2 * 2 ^ k).
  { rewrite <- Z.pow_succ_r by lia. f_equal. }
  replace (x / 2 ^ k) with 1; [reflexivity |].
  apply Z.div_unique with (r := x - 2 ^ k); lia.
Qed.

Lemma countl_zero_below_spec (k : nat) (x : Z) :
  0 <= x < 2 ^ Z.of_nat k ->
  countl_zero_below k x
  = if x =? 0 then Z.of_nat k else Z.of_nat k - 1 - Z.log2 x.
Proof.
  induction k as [| k IH]; intros Hx.
  - change (2 ^ Z.of_nat 0) with 1 in Hx. assert (x = 0) as -> by lia. reflexivity.
  - cbn [countl_zero_below].
    assert (H2 : 2 ^ Z.of_nat (S k) = 2 * 2 ^ Z.of_nat k).
    { rewrite Nat2Z.inj_succ, Z.pow_succ_r by lia. reflexivity. }
    destruct (Z.lt_ge_cases x (2 ^ Z.of_nat k)) as [Hlt | Hge].
    + rewrite (testbit_above (Z.of_nat k)) by lia.
      rewrite IH by lia. destruct (x =? 0); lia.
    + rewrite testbit_top by (rewrite <- ?Nat2Z.inj_succ; lia).
      assert (Hp : 0 < 2 ^ Z.of_nat k) by (apply Z.pow_pos_nonneg; lia).
      destruct (Z.eqb_spec x 0) as [H0 | _]; [lia |].
      rewrite (Z.log2_unique x (Z.of_nat k)); lia.
Qed.

Lemma countr_zero_from_spec (fuel : nat) (i x : Z) :
  0 <= i ->
  let r := countr_zero_from fuel i x in
  0 <= r <= Z.of_nat fuel /\
  (forall j, i <= j < i + r -> Z.testbit x j = false) /\
  (r < Z.of_nat fuel -> Z.testbit x (i + r) = true).
Proof.
  revert i. induction fuel as [| fuel IH]; intros i Hi.
  - cbn. repeat split; lia.
  - cbn [countr_zero_from]. destruct (Z.testbit x i) eqn:Hbit.
    + cbv zeta. repeat split; try lia. intros _. now rewrite Z.add_0_r.
    + destruct (IH (i + 1) ltac:(lia)) as (Hr & Hlow & Hhigh). cbv zeta.
      repeat split; try lia.
      * intros j Hj. destruct (Z.eq_dec j i) as [-> | Hne]; [exact Hbit |].
        apply Hlow. lia.
      * intros Hlt.
        replace (i + (1 + countr_zero_from fuel (i + 1) x))
          with (i + 1 + countr_zero_from fuel (i + 1) x) by lia.
        apply Hhigh. lia.
Qed.

(** The operand zero gives the width, every other operand the position of
    its lowest set bit. *)
Lemma countr_zero_spec (w x : Z) :
  0 <= w -> 0 <= x < 2 ^ w ->
  let r := countr_zero w x in
  (x = 0 -> r = w) /\
  (x <> 0 -> 0 <= r < w /\ Z.testbit x r = true /\ x mod 2 ^ r = 0).
Proof.
  intros Hw Hx r.
  destruct (countr_zero_from_spec (Z.to_nat w) 0 x ltac:(lia))
    as (Hr & Hlow & Hhigh).
  fold (countr_zero w x) in Hr, Hlow, Hhigh. fold r in Hr, Hlow, Hhigh.
  rewrite Z2Nat.id in Hr, Hhigh by exact Hw. cbn [Z.add] in Hlow, Hhigh.
  split.
  - intros ->. destruct (Z.eq_dec r w) as [? | Hne]; [assumption |].
    specialize (Hhigh ltac:(lia)). now rewrite Z.bits_0 in Hhigh.
  - intros Hx0.
    assert (Hrw : r < w).
    { destruct (Z.eq_dec r w) as [Heq | Hne]; [| lia].
      exfalso. apply Hx0. apply Z.bits_inj'. intros j Hj. rewrite Z.bits_0.
      destruct (Z.lt_ge_cases j w).
      - apply Hlow. lia.
      - now apply (testbit_above w). }
    repeat split; try lia; [now apply Hhigh |].
    apply Z.bits_inj'. intros j Hj. rewrite Z.bits_0.
    fold (wrap r x). rewrite wrap_testbit by lia.
    destruct (Z.ltb_spec j r); [| reflexivity]. apply Hlow. lia.
Qed.

Lemma countl_zero_spec (w x : Z) :
  0 <= w -> 0 <= x < 2 ^ w ->
  countl_zero w x = if x =? 0 then w else w - 1 - Z.log2 x.
Proof.
  intros Hw Hx. unfold countl_zero.
  rewrite countl_zero_below_spec; rewrite Z2Nat.id by exact Hw; trivial.
Qed.

(** X21.  [FindMSB] writes the position of the highest set bit of its
    operand and [CountLeadingZeroes] the number of zero bits above it; for
    the operand zero [CountLeadingZeroes] writes the width and [FindMSB]
    writes [-1] as 64 bits, all of them set. *)
Theorem FindMSB_CountLeadingZeroes (Op : IROp_Header) (D : SSAData)
    (n : Node) (s : Z) :
  let w := 8 * s in
  let a := GetSrc w D (Args Op 0%nat) in
  In s [1; 2; 4; 8] -> Size Op = s ->
  exists Dm Dc,
    Op_FindMSB Op D n = Some Dm /\ Op_CountLeadingZeroes Op D n = Some Dc /\
    (a <> 0 -> GD_get Dm n = Z.log2 a /\ GD_get Dc n = w - 1 - Z.log2 a) /\
    (a = 0 -> GD_get Dm n = 2 ^ 64 - 1 /\ GD_get Dc n = w).
Proof.
  intros w a Hin Hs.
  assert (Hw : 0 < w <= 64).
  { subst w. cbn in Hin. destruct Hin as [<- | [<- | [<- | [<- | []]]]]; lia. }
  assert (Ha : 0 <= a < 2 ^ w) by (apply wrap_range; lia).
  assert (Hops :
    Op_FindMSB Op D n = Some (GD_set D n (w - countl_zero w a - 1)) /\
    Op_CountLeadingZeroes Op D n = Some (GD_set D n (countl_zero w a))).
  { unfold Op_FindMSB, Op_CountLeadingZeroes. rewrite Hs. subst a w.
    cbn in Hin. destruct Hin as [<- | [<- | [<- | [<- | []]]]];
      split; reflexivity. }
  destruct Hops as [Hm Hc]. do 2 eexists.
  split; [exact Hm |]. split; [exact Hc |].
  rewrite !GD_get_set, countl_zero_spec by lia.
  assert (H264 : 2 ^ w <= 2 ^ 64) by (apply Z.pow_le_mono_r; lia).
  split.
  - intros Ha0. destruct (Z.eqb_spec a 0) as [? | _]; [contradiction |].
    assert (Hlog : 0 <= Z.log2 a < w).
    { split; [apply Z.log2_nonneg |]. apply Z.log2_lt_pow2; lia. }
    replace (w - (w - 1 - Z.log2 a) - 1) with (Z.log2 a) by lia.
    split; apply wrap_small; lia.
  - intros Ha0. rewrite Ha0. cbn [Z.eqb]. split.
    + replace (w - w - 1) with (-1) by lia. reflexivity.
    + apply wrap_small. lia.
Qed.

Lemma FindMSB_CountLeadingZeroes_witness :
  let Op := {| Size := 2; ElementSize := 0; Args := fun i => i |} in
  let D : SSAData := fun _ => 0x1234500A0 in
  exists Dm Dc,
    Op_FindMSB Op D 1%nat = Some Dm /\ Op_CountLeadingZeroes Op D 1%nat = Some Dc /\
    GD_get Dm 1%nat = 7 /\ GD_get Dc 1%nat = 8.
Proof.
  intros Op D.
  destruct (FindMSB_CountLeadingZeroes Op D 1%nat 2
              ltac:(right; left; reflexivity) eq_refl)
    as (Dm & Dc & Hm & Hc & Hpos & _).
  exists Dm, Dc. split; [exact Hm |]. split; [exact Hc |].
  exact (Hpos ltac:(discriminate)).
Defined.

(** X22.  [FindTrailingZeros] writes the position of the lowest set bit of
    its operand, below which the operand has no bit set; for the operand
    zero it writes the width. *)
Theorem FindTrailingZeros_lowest_bit (Op : IROp_Header) (D : SSAData)
    (n : Node) (s : Z) :
  let w := 8 * s in
  let a := GetSrc w D (Args Op 0%nat) in
  In s [1; 2; 4; 8] -> Size Op = s ->
  exists D', Op_FindTrailingZeros Op D n = Some D' /\
    let r := GD_get D' n in
    (a = 0 -> r = w) /\
    (a <> 0 -> 0 <= r < w /\ Z.testbit a r = true /\ a mod 2 ^ r = 0).
Proof.
  intros w a Hin Hs.
  assert (Hw : 0 < w <= 64).
  { subst w. cbn in Hin. destruct Hin as [<- | [<- | [<- | [<- | []]]]]; lia. }
  assert (Ha : 0 <= a < 2 ^ w) by (apply wrap_range; lia).
  assert (Hop : Op_FindTrailingZeros Op D n = Some (GD_set D n (countr_zero w a))).
  { unfold Op_FindTrailingZeros. rewrite Hs. subst a w.
    cbn in Hin. destruct Hin as [<- | [<- | [<- | [<- | []]]]]; reflexivity. }
  eexists. split; [exact Hop |]. cbv zeta. rewrite GD_get_set.
  destruct (countr_zero_spec w a ltac:(lia) Ha) as [Hzero Hpos].
  assert (Hsmall : wrap 64 (countr_zero w a) = countr_zero w a).
  { apply wrap_small. destruct (Z.eq_dec a 0) as [H0 | H0].
    - rewrite (Hzero H0). lia.
    - destruct (Hpos H0) as (Hr & _). lia. }
  rewrite Hsmall. split; assumption.
Qed.

Lemma FindTrailingZeros_lowest_bit_witness :
  let Op := {| Size := 4; ElementSize := 0; Args := fun i => i |} in
  let D : SSAData := fun _ => 0x50 in
  exists D', Op_FindTrailingZeros Op D 1%nat = Some D' /\
    let r := GD_get D' 1%nat in
    0 <= r < 32 /\ Z.testbit 0x50 r = true /\ 0x50 mod 2 ^ r = 0.
Proof.
  intros Op D.
  destruct (FindTrailingZeros_lowest_bit Op D 1%nat 4
              ltac:(right; right; left; reflexivity) eq_refl)
    as (D' & H' & _ & Hpos).
  exists D'. split; [exact H' |].
  exact (Hpos ltac:(discriminate)).
Defined.

(** ** Long signed division *)

(** The destination after [LDiv] and [LRem]: the result at the signed type
    of the operation, extended with its sign to the 64 bits. *)
Lemma signed_result_stored (w : Z) (D D' : SSAData) (n : Node) (Res : Z) :
  ((w = 16 \/ w = 32) /\ D' = GD_set D n (sext w Res)) \/
  (w = 64 /\ D' = GDP_memcpy D n Res 8) ->
  GetSrcS w D' n = sext w Res /\ GD_get D' n = wrap 64 (sext w Res).
Proof.
  intros [[Hw ->] | [-> ->]].
  - assert (Hww : 0 < w <= 64) by lia. split.
    + unfold GetSrcS. rewrite <- sext_of_wrap.
      fold (GetSrc w (GD_set D n (sext w Res)) n).
      rewrite GetSrc_GD_set, sext_of_wrap by lia. apply sext_widen. lia.
    + apply GD_get_set.
  - assert (Hget : GetSrc 64 (GDP_memcpy D n Res 8) n = wrap 64 Res)
      by apply (GetSrc_GDP_memcpy 8).
    split.
    + unfold GetSrcS. rewrite <- sext_of_wrap.
      fold (GetSrc 64 (GDP_memcpy D n Res 8) n).
      rewrite Hget. apply sext_of_wrap.
    + unfold GD_get. rewrite Hget. symmetry. apply sext_wrap. lia.
Qed.

(** X23.  [LDiv] and [LRem] at the sizes 2, 4 and 8 divide the signed
    reading of [(high << w) | low] by the signed divisor with rounding
    towards zero.  When the quotient fits the signed type of the operation,
    the quotient times the divisor plus the remainder is the dividend and
    the remainder is smaller than the divisor in absolute value, with the
    sign of the dividend; the 64 bits of the destination hold the results
    extended with their sign.  There is no result for the divisor zero. *)
Theorem LDiv_LRem_division (Op : IROp_Header) (D : SSAData) (n : Node) (s : Z) :
  let w := 8 * s in
  let low := GetSrc w D (Args Op 0%nat) in
  let high := GetSrc w D (Args Op 1%nat) in
  let divisor := GetSrcS w D (Args Op 2%nat) in
  let dividend := sext (2 * w) (high * 2 ^ w + low) in
  In s [2; 4; 8] -> Size Op = s ->
  (divisor = 0 -> Op_LDiv Op D n = None /\ Op_LRem Op D n = None) /\
  (divisor <> 0 ->
   - 2 ^ (w - 1) <= Z.quot dividend divisor < 2 ^ (w - 1) ->
   exists Dq Dr,
     Op_LDiv Op D n = Some Dq /\ Op_LRem Op D n = Some Dr /\
     let q := GetSrcS w Dq n in
     let r := GetSrcS w Dr n in
     q * divisor + r = dividend /\ Z.abs r < Z.abs divisor /\
     0 <= r * dividend /\
     GD_get Dq n = wrap 64 q /\ GD_get Dr n = wrap 64 r).
Proof.
  intros w low high divisor dividend Hin Hs.
  assert (Hw : 0 < w <= 64).
  { subst w. cbn in Hin. destruct Hin as [<- | [<- | [<- | []]]]; lia. }
  assert (Hlow : 0 <= low < 2 ^ w) by (apply wrap_range; lia).
  assert (Hhi : 0 <= high < 2 ^ w) by (apply wrap_range; lia).
  assert (H2w : 2 ^ (2 * w) = 2 ^ w * 2 ^ w).
  { rewrite <- Z.pow_add_r by lia. f_equal. lia. }
  set (Source := Z.lor (wrap (2 * w) (Z.shiftl (wrap (2 * w) high) w)) low).
  assert (HSource : Source = high * 2 ^ w + low).
  { unfold Source. rewrite (wrap_small (2 * w) high) by nia.
    rewrite (wrap_small (2 * w) (Z.shiftl high w))
      by (rewrite Z.shiftl_mul_pow2 by lia; nia).
    apply lor_shiftl_add; lia. }
  assert (HDiv : sext (2 * w) (sext w (GetSrc w D (Args Op 2%nat))) = divisor).
  { rewrite sext_widen by lia. unfold GetSrc. apply sext_of_wrap. }
  set (stored := fun Res : Z =>
    if s =? 8 then GDP_memcpy D n Res 8 else GD_set D n (sext w Res)).
  assert (Hops :
    Op_LDiv Op D n
    = (Res ← sdiv (2 * w) (sext (2 * w) Source)
               (sext (2 * w) (sext w (GetSrc w D (Args Op 2%nat))));
       Some (stored Res)) /\
    Op_LRem Op D n
    = (Res ← srem (2 * w) (sext (2 * w) Source)
               (sext (2 * w) (sext w (GetSrc w D (Args Op 2%nat))));
       Some (stored Res))).
  { unfold Op_LDiv, Op_LRem, stored, Source. rewrite Hs. subst low high w.
    cbn in Hin. destruct Hin as [<- | [<- | [<- | []]]]; split; reflexivity. }
  assert (Hstored : forall Res,
    ((w = 16 \/ w = 32) /\ stored Res = GD_set D n (sext w Res)) \/
    (w = 64 /\ stored Res = GDP_memcpy D n Res 8)).
  { intros Res. unfold stored. subst w. cbn in Hin.
    destruct Hin as [<- | [<- | [<- | []]]]; cbn [Z.eqb Pos.eqb]; auto. }
  rewrite HSource, HDiv in Hops. fold dividend in Hops.
  destruct Hops as [-> ->]. clearbody stored. split.
  - intros ->. split; reflexivity.
  - intros Hd0 Hfit.
    assert (Hdr : - 2 ^ (w - 1) <= divisor < 2 ^ (w - 1)) by (apply sext_range; lia).
    assert (Hmono : 2 ^ (w - 1) <= 2 ^ (2 * w - 1)) by (apply Z.pow_le_mono_r; lia).
    assert (Hp : 0 < 2 ^ (w - 1)) by (apply Z.pow_pos_nonneg; lia).
    assert (Hcond : (dividend =? - 2 ^ (2 * w - 1)) && (divisor =? -1) = false).
    { destruct (Z.eqb_spec dividend (- 2 ^ (2 * w - 1))) as [Ha | _];
        [| reflexivity].
      destruct (Z.eqb_spec divisor (-1)) as [Hb | _]; [| reflexivity].
      exfalso. rewrite Ha, Hb in Hfit. change (-1) with (- (1)) in Hfit.
      rewrite Z.quot_opp_r, Z.quot_1_r in Hfit by lia. lia. }
    unfold sdiv, srem. rewrite Hcond.
    destruct (Z.eqb_spec divisor 0) as [? | _]; [contradiction |].
    cbn [mbind option_bind].
    exists (stored (Z.quot dividend divisor)), (stored (Z.rem dividend divisor)).
    do 2 (split; [reflexivity |]).
    destruct (signed_result_stored w D _ n _ (Hstored (Z.quot dividend divisor)))
      as [Hq HGq].
    destruct (signed_result_stored w D _ n _ (Hstored (Z.rem dividend divisor)))
      as [Hr HGr].
    cbv zeta. rewrite Hq, Hr, HGq, HGr.
    pose proof (Z.quot_rem' dividend divisor) as Hqr.
    pose proof (Z.rem_bound_abs dividend divisor Hd0) as Habs.
    pose proof (Z.rem_sign_mul dividend divisor Hd0) as Hsign.
    rewrite (sext_small w (Z.quot dividend divisor)) by lia.
    rewrite (sext_small w (Z.rem dividend divisor)) by lia.
    repeat split; lia.
Qed.

Lemma LDiv_LRem_division_witness :
  let Op := {| Size := 4; ElementSize := 0; Args := fun i => i |} in
  let D : SSAData := fun k =>
    match k with
    | 0%nat => 0xFFFFFFF9 | 1%nat => 0xFFFFFFFF | _ => 2
    end in
  exists Dq Dr,
    Op_LDiv Op D 3%nat = Some Dq /\ Op_LRem Op D 3%nat = Some Dr /\
    let q := GetSrcS 32 Dq 3%nat in
    let r := GetSrcS 32 Dr 3%nat in
    q * 2 + r = -7 /\ Z.abs r < Z.abs 2 /\ 0 <= r * -7 /\
    GD_get Dq 3%nat = wrap 64 q /\ GD_get Dr 3%nat = wrap 64 r.
Proof.
  intros Op D.
  destruct (LDiv_LRem_division Op D 3%nat 4 ltac:(right; left; reflexivity) eq_refl)
    as [_ Hdiv].
  apply Hdiv.
  - vm_compute. discriminate.
  - vm_compute. split; [discriminate | reflexivity].
Defined.

(** ** Bitwise operations and compositions *)

Lemma GetSrc_DO_OP_ne (w w' : Z) (func : Z -> Z -> Z) (Op : IROp_Header)
    (D : SSAData) (n n' : Node) :
  n <> n' -> GetSrc w' (DO_OP w func Op D n) n' = GetSrc w' D n'.
Proof.
  intros Hn. unfold DO_OP, GetSrc. now rewrite fn_lookup_insert_ne.
Qed.

(** X24.  [And] and [Andn] at the sizes 1, 2, 4 and 8 split the first
    operand between them: their results have no bit in common, together
    they make up the first operand, and the result of [Andn] has no bit of
    the second operand. *)
Theorem And_Andn_partition (Op : IROp_Header) (D : SSAData) (n : Node) (s : Z) :
  let w := 8 * s in
  let a := GetSrc w D (Args Op 0%nat) in
  let b := GetSrc w D (Args Op 1%nat) in
  In s [1; 2; 4; 8] -> Size Op = s ->
  exists Da Dn,
    Op_And Op D n = Some Da /\ Op_Andn Op D n = Some Dn /\
    Z.land (GetSrc w Da n) (GetSrc w Dn n) = 0 /\
    Z.lor (GetSrc w Da n) (GetSrc w Dn n) = a /\
    Z.land (GetSrc w Dn n) b = 0.
Proof.
  intros w a b Hin Hs.
  assert (Hw : 0 < w <= 64).
  { subst w. cbn in Hin. destruct Hin as [<- | [<- | [<- | [<- | []]]]]; lia. }
  assert (Ha : 0 <= a < 2 ^ w) by (apply wrap_range; lia).
  assert (Hops :
    Op_And Op D n = Some (DO_OP w (fun a b => Z.land a b) Op D n) /\
    Op_Andn Op D n
    = Some (DO_OP w (fun a b => wrap w (Z.land a (not_ w b))) Op D n)).
  { unfold Op_And, Op_Andn. rewrite Hs. subst a b w. cbn in Hin.
    destruct Hin as [<- | [<- | [<- | [<- | []]]]]; split; reflexivity. }
  destruct Hops as [HA HN]. do 2 eexists.
  split; [exact HA |]. split; [exact HN |].
  rewrite !GetSrc_DO_OP. fold a b. rewrite wrap_wrap.
  repeat split; apply Z.bits_inj'; intros i Hi;
    rewrite ?Z.land_spec, ?Z.lor_spec, ?Z.bits_0, !wrap_testbit,
      ?Z.land_spec, testbit_not_ by lia;
    destruct (Z.ltb_spec i w) as [Hiw | Hiw]; cbn [andb orb];
    try (rewrite (testbit_above w a i) by lia);
    destruct (Z.testbit a i), (Z.testbit b i); reflexivity.
Qed.

Lemma And_Andn_partition_witness :
  let Op := {| Size := 1; ElementSize := 0; Args := fun i => i |} in
  let D : SSAData := fun k => match k with 0%nat => 0x1CC | _ => 0x2AA end in
  exists Da Dn,
    Op_And Op D 2%nat = Some Da /\ Op_Andn Op D 2%nat = Some Dn /\
    Z.land (GetSrc 8 Da 2%nat) (GetSrc 8 Dn 2%nat) = 0 /\
    Z.lor (GetSrc 8 Da 2%nat) (GetSrc 8 Dn 2%nat) = 0xCC /\
    Z.land (GetSrc 8 Dn 2%nat) 0xAA = 0.
Proof.
  intros Op D.
  exact (And_Andn_partition Op D 2%nat 1 ltac:(left; reflexivity) eq_refl).
Defined.

(** X25.  [Sub] undoes [Add]: when the sum was written to the node [n] and
    a [Sub] takes [n] and the second operand of the [Add], which is another
    node than [n], it writes the first operand of the [Add] again. *)
Theorem Sub_undoes_Add (Op Op' : IROp_Header) (D : SSAData) (n n' : Node)
    (w : Z) :
  w = 32 \/ w = 64 -> Size Op = w / 8 -> Size Op' = w / 8 ->
  Args Op' 0%nat = n -> Args Op' 1%nat = Args Op 1%nat ->
  Args Op 1%nat <> n ->
  exists D1 D2,
    Op_Add Op D n = Some D1 /\ Op_Sub Op' D1 n' = Some D2 /\
    GetSrc w D2 n' = GetSrc w D (Args Op 0%nat).
Proof.
  intros Hw Hs Hs' H0 H1 Hne.
  assert (Hops : forall Op0 D0 n0, Size Op0 = w / 8 ->
    Op_Add Op0 D0 n0 = Some (DO_OP w (fun a b => a + b) Op0 D0 n0) /\
    Op_Sub Op0 D0 n0 = Some (DO_OP w (fun a b => a - b) Op0 D0 n0)).
  { intros Op0 D0 n0 Hs0. unfold Op_Add, Op_Sub. rewrite Hs0.
    destruct Hw as [-> | ->]; split; reflexivity. }
  destruct (Hops Op D n Hs) as [HA _].
  destruct (Hops Op' (DO_OP w (fun a b => a + b) Op D n) n' Hs') as [_ HS].
  do 2 eexists. split; [exact HA |]. split; [exact HS |].
  rewrite GetSrc_DO_OP, H0, H1, GetSrc_DO_OP.
  rewrite GetSrc_DO_OP_ne by congruence.
  set (a := GetSrc w D (Args Op 0%nat)). set (b := GetSrc w D (Args Op 1%nat)).
  assert (Ha : 0 <= a < 2 ^ w) by (apply wrap_range; lia).
  unfold wrap. rewrite Zminus_mod_idemp_l.
  replace (a + b - b) with a by lia. apply Z.mod_small, Ha.
Qed.

Lemma Sub_undoes_Add_witness :
  let Op := {| Size := 4; ElementSize := 0; Args := fun i => i |} in
  let Op' := {| Size := 4; ElementSize := 0;
                Args := fun i => match i with 0%nat => 2%nat | _ => 1%nat end |} in
  let D : SSAData := fun k => match k with 0%nat => 0xFFFFFFFF | _ => 5 end in
  exists D1 D2,
    Op_Add Op D 2%nat = Some D1 /\ Op_Sub Op' D1 3%nat = Some D2 /\
    GetSrc 32 D2 3%nat = 0xFFFFFFFF.
Proof.
  intros Op Op' D.
  exact (Sub_undoes_Add Op Op' D 2%nat 3%nat 32 (or_introl eq_refl) eq_refl eq_refl
           eq_refl eq_refl ltac:(discriminate)).
Defined.

(** What [Not] assigns at the sizes 1, 2, 4 and 8: the complement of the
    low [w] bits of the operand, and no bit above them. *)
Lemma Not_value (Op : IROp_Header) (D : SSAData) (n : Node) (s : Z) :
  In s [1; 2; 4; 8] -> Size Op = s ->
  exists v, Op_Not Op D n = Some (GD_set D n v) /\
    wrap 64 v = wrap (8 * s) (Z.lnot (D (Args Op 0%nat))).
Proof.
  intros Hin Hs. unfold Op_Not. rewrite Hs. cbn in Hin.
  destruct Hin as [<- | [<- | [<- | [<- | []]]]];
    cbn [mbind option_bind lookup list_lookup Z.to_nat Pos.to_nat Pos.iter_op Nat.add];
    (eexists; split; [reflexivity |]);
    try change 0xFF with (Z.ones 8); try change 0xFFFF with (Z.ones 16);
    try change 0xFFFFFFFF with (Z.ones 32);
    try change 0xFFFFFFFFFFFFFFFF with (Z.ones 64);
    try change (8 * 1) with 8; try change (8 * 2) with 16;
    try change (8 * 4) with 32; try change (8 * 8) with 64;
    apply Z.bits_inj'; intros i Hi;
    rewrite !wrap_testbit, Z.land_spec, testbit_not_, testbit_ones_full by lia;
    unfold GetSrc; rewrite wrap_testbit, Z.lnot_spec by lia;
    destruct (Z.leb_spec 0 i); try lia;
    repeat match goal with
    | |- context [i <? ?k] => destruct (Z.ltb_spec i k); try lia
    end; cbn [andb]; rewrite ?andb_true_r, ?andb_false_r; reflexivity.
Qed.

(** X26.  [Neg] is [Not] plus one: at the sizes 4 and 8 the low [w] bits
    that [Neg] writes are those of the result of [Not] for the same
    operand, incremented. *)
Theorem Neg_is_Not_plus_one (Op : IROp_Header) (D : SSAData) (n : Node) (w : Z) :
  w = 32 \/ w = 64 -> Size Op = w / 8 ->
  exists Dneg Dnot,
    Op_Neg Op D n = Some Dneg /\ Op_Not Op D n = Some Dnot /\
    GetSrc w Dneg n = wrap w (GD_get Dnot n + 1).
Proof.
  intros Hw Hs.
  assert (Hin : In (w / 8) [1; 2; 4; 8]).
  { destruct Hw as [-> | ->]; cbn; auto. }
  destruct (Not_value Op D n (w / 8) Hin Hs) as (v & Hnot & Hv).
  assert (H8 : 8 * (w / 8) = w) by (destruct Hw as [-> | ->]; reflexivity).
  rewrite H8 in Hv.
  assert (Hneg : Op_Neg Op D n
            = Some (GD_set D n (sext w (- sext w (wrap 64 (GetSrcS 64 D (Args Op 0%nat))))))).
  { unfold Op_Neg. rewrite Hs. destruct Hw as [-> | ->]; reflexivity. }
  do 2 eexists. split; [exact Hneg |]. split; [exact Hnot |].
  rewrite GetSrc_GD_set, GD_get_set, Hv by lia.
  rewrite sext_wrap by lia.
  unfold GetSrcS. rewrite sext_wrap by lia.
  set (d := D (Args Op 0%nat)).
  assert (Hopp : wrap w (- sext w (wrap 64 d)) = wrap w (- d)).
  { apply wrap_opp_cong. rewrite sext_wrap by lia. apply wrap_narrow. lia. }
  rewrite Hopp. unfold wrap.
  rewrite Zplus_mod_idemp_l. f_equal.
  pose proof (Z.add_lnot_diag d). lia.
Qed.

Lemma Neg_is_Not_plus_one_witness :
  let Op := {| Size := 4; ElementSize := 0; Args := fun i => i |} in
  let D : SSAData := fun _ => 0x100000005 in
  exists Dneg Dnot,
    Op_Neg Op D 1%nat = Some Dneg /\ Op_Not Op D 1%nat = Some Dnot /\
    GetSrc 32 Dneg 1%nat = wrap 32 (GD_get Dnot 1%nat + 1).
Proof.
  intros Op D.
  exact (Neg_is_Not_plus_one Op D 1%nat 32 (or_introl eq_refl) eq_refl).
Defined.

(** X27.  [Not] is an involution on the low [w] bits: a second [Not] of the
    same size, applied to the node that the first one wrote, writes the low
    [w] bits of the first operand again, extended with zeros. *)
Theorem Not_involution (Op Op' : IROp_Header) (D : SSAData) (n n' : Node)
    (s : Z) :
  In s [1; 2; 4; 8] -> Size Op = s -> Size Op' = s ->
  Args Op' 0%nat = n ->
  exists D1 D2,
    Op_Not Op D n = Some D1 /\ Op_Not Op' D1 n' = Some D2 /\
    GD_get D2 n' = GetSrc (8 * s) D (Args Op 0%nat).
Proof.
  intros Hin Hs Hs' H0.
  assert (Hw : 0 < 8 * s <= 64).
  { cbn in Hin. destruct Hin as [<- | [<- | [<- | [<- | []]]]]; lia. }
  destruct (Not_value Op D n s Hin Hs) as (v & H1 & Hv).
  destruct (Not_value Op' (GD_set D n v) n' s Hin Hs') as (v' & H2 & Hv').
  do 2 eexists. split; [exact H1 |]. split; [exact H2 |].
  rewrite GD_get_set, Hv', H0.
  assert (Hslot : wrap (8 * s) (Z.lnot (GD_set D n v n))
            = wrap (8 * s) (Z.lnot (wrap 64 v))).
  { apply Z.bits_inj'. intros i Hi.
    rewrite !wrap_testbit, !Z.lnot_spec by lia.
    destruct (Z.ltb_spec i (8 * s)); [| reflexivity]. cbn [andb]. f_equal.
    rewrite <- (GD_get_set D n v). unfold GD_get, GetSrc.
    rewrite wrap_testbit by lia.
    destruct (Z.ltb_spec i 64); [reflexivity | lia]. }
  rewrite Hslot, Hv. unfold GetSrc.
  apply Z.bits_inj'. intros i Hi.
  rewrite !wrap_testbit, Z.lnot_spec, wrap_testbit, Z.lnot_spec by lia.
  destruct (Z.ltb_spec i (8 * s)); [| reflexivity]. cbn [andb].
  apply negb_involutive.
Qed.

Lemma Not_involution_witness :
  let Op := {| Size := 2; ElementSize := 0; Args := fun i => i |} in
  let Op' := {| Size := 2; ElementSize := 0; Args := fun _ => 1%nat |} in
  let D : SSAData := fun _ => 0x12345678 in
  exists D1 D2,
    Op_Not Op D 1%nat = Some D1 /\ Op_Not Op' D1 2%nat = Some D2 /\
    GD_get D2 2%nat = 0x5678.
Proof.
  intros Op Op' D.
  exact (Not_involution Op Op' D 1%nat 2%nat 2 ltac:(right; left; reflexivity)
           eq_refl eq_refl eq_refl).
Defined.

(** X28.  At the sizes 1, 2, 4 and 8 the result of [Or] is the sum of the
    results of [Xor] and [And]; at size 16 only [Or] has a result, the
    disjunction of the two 128-bit operands: [And], [Xor] and [Andn] end on
    the diagnostic of an unknown size. *)
Theorem Or_Xor_And (Op : IROp_Header) (D : SSAData) (n : Node) :
  (forall s, In s [1; 2; 4; 8] -> Size Op = s ->
     let w := 8 * s in
     exists Do Dx Da,
       Op_Or Op D n = Some Do /\ Op_Xor Op D n = Some Dx /\
       Op_And Op D n = Some Da /\
       GetSrc w Do n = GetSrc w Dx n + GetSrc w Da n) /\
  (Size Op = 16 ->
     (exists Do, Op_Or Op D n = Some Do /\
        GetSrc 128 Do n
        = Z.lor (GetSrc 128 D (Args Op 0%nat)) (GetSrc 128 D (Args Op 1%nat))) /\
     Op_And Op D n = None /\ Op_Xor Op D n = None /\ Op_Andn Op D n = None).
Proof.
  assert (Hbits : forall w a b, 0 <= w -> 0 <= a < 2 ^ w -> 0 <= b < 2 ^ w ->
    wrap w (Z.lor a b) = Z.lor a b /\ wrap w (Z.lxor a b) = Z.lxor a b /\
    wrap w (Z.land a b) = Z.land a b).
  { intros w a b Hw Ha Hb.
    repeat split; apply Z.bits_inj'; intros i Hi;
      rewrite wrap_testbit by lia;
      rewrite ?Z.lor_spec, ?Z.lxor_spec, ?Z.land_spec;
      (destruct (Z.ltb_spec i w) as [Hiw | Hiw]; [reflexivity |]);
      rewrite (testbit_above w a i), (testbit_above w b i) by lia;
      reflexivity. }
  split.
  - intros s Hin Hs w.
    assert (Hw : 0 < w <= 64).
    { subst w. cbn in Hin. destruct Hin as [<- | [<- | [<- | [<- | []]]]]; lia. }
    assert (Hops :
      Op_Or Op D n = Some (DO_OP w (fun a b => Z.lor a b) Op D n) /\
      Op_Xor Op D n = Some (DO_OP w (fun a b => Z.lxor a b) Op D n) /\
      Op_And Op D n = Some (DO_OP w (fun a b => Z.land a b) Op D n)).
    { unfold Op_Or, Op_Xor, Op_And. rewrite Hs. subst w. cbn in Hin.
      destruct Hin as [<- | [<- | [<- | [<- | []]]]]; repeat split; reflexivity. }
    destruct Hops as (HO & HX & HA). do 3 eexists.
    split; [exact HO |]. split; [exact HX |]. split; [exact HA |].
    rewrite !GetSrc_DO_OP.
    set (a := GetSrc w D (Args Op 0%nat)). set (b := GetSrc w D (Args Op 1%nat)).
    destruct (Hbits w a b ltac:(lia) ltac:(apply wrap_range; lia)
                ltac:(apply wrap_range; lia)) as (-> & -> & ->).
    pose proof (Z.sub_lor_land a b). lia.
  - intros Hs. unfold Op_Or, Op_And, Op_Xor, Op_Andn. rewrite Hs.
    cbv beta iota zeta. repeat split.
    eexists. split; [reflexivity |]. rewrite GetSrc_DO_OP.
    apply Hbits; try apply wrap_range; lia.
Qed.

Lemma Or_Xor_And_witness :
  let Op := {| Size := 1; ElementSize := 0; Args := fun i => i |} in
  let Op16 := {| Size := 16; ElementSize := 0; Args := fun i => i |} in
  let D : SSAData := fun k => match k with 0%nat => 0x1CC | _ => 0x2AA end in
  (exists Do Dx Da,
     Op_Or Op D 2%nat = Some Do /\ Op_Xor Op D 2%nat = Some Dx /\
     Op_And Op D 2%nat = Some Da /\
     GetSrc 8 Do 2%nat = GetSrc 8 Dx 2%nat + GetSrc 8 Da 2%nat) /\
  (Op_And Op16 D 2%nat = None /\ Op_Xor Op16 D 2%nat = None /\
   Op_Andn Op16 D 2%nat = None).
Proof.
  intros Op Op16 D. split.
  - exact (proj1 (Or_Xor_And Op D 2%nat) 1 ltac:(left; reflexivity) eq_refl).
  - exact (proj2 (proj2 (Or_Xor_And Op16 D 2%nat) eq_refl)).
Defined.
